(** * go-batsd receiver: a shallow embedding of [receiver/receiver.go] and
    [receiver.go], and the properties of the ingest-and-aggregate core.

    Conventions of the embedding.
    - Go [string]s are byte strings: [string] of the Standard Library.
    - [float64] is the kernel's binary64 ([PrimFloat.float]); [+=] is
      [PrimFloat.add] and [value > 0] is [PrimFloat.ltb 0 value].
    - [int64] values are [Z]; [%] is [Z.rem], [/] is [Z.quot].
    - A Go [map] is a [gmap]; a [range] over it visits the entries in the
      order of [map_to_list] (Go leaves the order unspecified, so every
      statement about a flush is made up to permutation).
    - A buffered channel is the list of the values sent on it, oldest first.
    - A runtime panic (index out of range, division by zero, [panic(err)])
      is [None].
    - [strconv.ParseFloat], the [%v] verb on a [float64], [mmh3.Hash32] and
      [shared.CalculateFilename] live outside the two source files: they are
      the variables of the sections below. *)

From Stdlib Require Import ZArith Floats Ascii.
From stdpp Require Import gmap strings list fin_maps pretty.

Open Scope Z_scope.

(** ** Records of [receiver/receiver.go] *)

Module Datapoint.
Record t : Type := mk
  { Timestamp : Z;        (* time.Time, read only through Unix() *)
    Name : string;
    Value : float;
    Datatype : string }.

(** [Datapoint{}]: every field at its zero value; the zero [time.Time] is
    January 1, year 1, whose [Unix()] is -62135596800. *)
Definition zero : t := mk (-62135596800) "" 0%float "".
End Datapoint.

Module AggregateObservation.
Record t : Type := mk
  { Name : string;
    Content : string;
    Timestamp : Z }.
End AggregateObservation.

(** [fmt.Sprintf("%d", n)] and [strconv.FormatInt(n, 10)]. *)
Definition FormatInt (n : Z) : string := pretty n.

(** ** The regular expression of [parseDatapoint]

    Go's [regexp] promises the match "that a backtracking search would have
    found first" (leftmost, then by the priorities of [|], [*] and [+]); the
    matcher below is that backtracking search, in continuation-passing
    style.  Repetition is only needed over one-character classes.  The
    matcher works on bytes: every literal of the pattern is ASCII and a
    byte of a multi-byte UTF-8 sequence is never ASCII, so bytes and runes
    give the same submatches. *)

Inductive regex : Type :=
| Literal (c : Ascii.ascii)
| CharClass (p : ascii → bool)
| Concat (r1 r2 : regex)
| Alternate (r1 r2 : regex)
| Star (p : ascii → bool)
| Plus (p : ascii → bool)
| Capture (n : nat) (r : regex).

(** Submatches found so far, most recent first. *)
Definition captures : Type := list (nat * string).

(** The text consumed between the input [s] and its suffix [rest]. *)
Definition consumed (s rest : string) : string :=
  String.substring 0 (String.length s - String.length rest) s.

Section Backtrack.
Context {R : Type}.

(** Greedy [p*]: as many characters as possible, giving them back one at a
    time while the continuation fails. *)
Fixpoint star (p : ascii → bool) (s : string) (k : string → option R) : option R :=
  match s with
  | String a s' =>
      if p a then
        match star p s' k with
        | Some x => Some x
        | None => k s
        end
      else k s
  | EmptyString => k s
  end.

Fixpoint backtrack (r : regex) (s : string) (caps : captures)
    (k : string → captures → option R) : option R :=
  match r with
  | Literal c =>
      match s with
      | String a s' => if Ascii.eqb a c then k s' caps else None
      | EmptyString => None
      end
  | CharClass p =>
      match s with
      | String a s' => if p a then k s' caps else None
      | EmptyString => None
      end
  | Concat r1 r2 => backtrack r1 s caps (λ s1 caps1, backtrack r2 s1 caps1 k)
  | Alternate r1 r2 =>
      match backtrack r1 s caps k with
      | Some x => Some x
      | None => backtrack r2 s caps k
      end
  | Star p => star p s (λ rest, k rest caps)
  | Plus p =>
      match s with
      | String a s' => if p a then star p s' (λ rest, k rest caps) else None
      | EmptyString => None
      end
  | Capture n r => backtrack r s caps (λ rest caps', k rest ((n, consumed s rest) :: caps'))
  end.
End Backtrack.

(** Submatch [n], the empty string when the group took no part. *)
Fixpoint submatch (caps : captures) (n : nat) : string :=
  match caps with
  | [] => ""
  | (m, text) :: caps' => if Nat.eqb m n then text else submatch caps' n
  end.

(** A match anchored at the start of [s]: the whole match, the [groups]
    submatches, and the rest of the input. *)
Definition matchHere (r : regex) (groups : nat) (s : string) : option (list string * string) :=
  backtrack r s [] (λ rest caps,
    Some (consumed s rest :: (submatch caps <$> seq 1 groups), rest)).

(** The leftmost match. *)
Fixpoint findSubmatch (r : regex) (groups : nat) (s : string) : option (list string * string) :=
  match matchHere r groups s with
  | Some m => Some m
  | None =>
      match s with
      | String _ s' => findSubmatch r groups s'
      | EmptyString => None
      end
  end.

Fixpoint findAll (fuel : nat) (r : regex) (groups : nat) (s : string) : list (list string) :=
  match fuel with
  | O => []
  | S fuel' =>
      match findSubmatch r groups s with
      | None => []
      | Some (m, rest) =>
          (* after an empty match the search resumes one character on *)
          let next := if String.eqb (default "" (head m)) "" then
                        match rest with String _ t => t | EmptyString => "" end
                      else rest in
          m :: findAll fuel' r groups next
      end
  end.

(** [re.FindAllStringSubmatch(s, -1)]: the successive non-overlapping
    matches, each with its submatches. *)
Definition FindAllStringSubmatch (r : regex) (groups : nat) (s : string) : list (list string) :=
  findAll (S (String.length s)) r groups s.

Definition isDigit (c : ascii) : bool := Ascii.leb "0" c && Ascii.leb c "9".

(** [.]: any character but a newline. *)
Definition anyCharNotNL (c : ascii) : bool := negb (Ascii.eqb c "010").

(** [[0-9|\.]]: a digit, a vertical bar or a dot. *)
Definition valueClass (c : ascii) : bool :=
  isDigit c || Ascii.eqb c "|" || Ascii.eqb c ".".

(** The pattern compiled by [parseDatapoint]: group 1 is a greedy run of
    [.], then a colon, group 2 is a non-empty greedy run of the class
    [[0-9|\.]], then a vertical bar, and group 3 is one of c, g, ms. *)
Definition metricRegex : regex :=
  Concat (Capture 1 (Star anyCharNotNL))
 (Concat (Literal ":")
 (Concat (Capture 2 (Plus valueClass))
 (Concat (Literal "|")
         (Capture 3 (Alternate (Literal "c")
                    (Alternate (Literal "g")
                               (Concat (Literal "m") (Literal "s")))))))).

(** ** The queues between the stages *)

Record Channels : Type := mkChannels
  { gaugeChannel : list Datapoint.t;
    counterChannel : list Datapoint.t;
    timerChannel : list Datapoint.t }.

Definition noTraffic : Channels := mkChannels [] [] [].

(** ** What the two files import

    [strconv.ParseFloat(s, 64)] (first result: [parseDatapoint] discards the
    error, and on an error of syntax the first result is 0), the [%v] verb
    of [fmt] on a [float64], [mmh3.Hash32] (a [uint32]), and, from package
    [shared], [CalculateFilename]; [filepath.Dir]. *)
Class Library : Type :=
  { ParseFloat : string → float;
    FormatFloat : float → string;
    Hash32 : string → N;
    CalculateFilename : string → string → string;
    Dir : string → string }.

Section Parser.
Context `{Library}.

(** [parseDatapoint]; [now] is the reading of [time.Now()]. *)
Definition parseDatapoint (now : Z) (metric : string) : Datapoint.t :=
  let matches := FindAllStringSubmatch metricRegex 3 metric in
  match matches with
  | m0 :: _ =>
      match m0 with
      | [_; name; text; datatype] =>     (* len(matches[0]) == 4 *)
          let value := ParseFloat text in
          Datapoint.mk now name value datatype
      | _ => Datapoint.zero
      end
  | [] => Datapoint.zero
  end.

(** [processIncomingMessage]: the send on the channel of the datatype. *)
Definition processIncomingMessage (now : Z) (message : string) (ch : Channels) : Channels :=
  let d := parseDatapoint now message in
  if String.eqb (Datapoint.Datatype d) "g" then
    mkChannels (gaugeChannel ch ++ [d]) (counterChannel ch) (timerChannel ch)
  else if String.eqb (Datapoint.Datatype d) "c" then
    mkChannels (gaugeChannel ch) (counterChannel ch ++ [d]) (timerChannel ch)
  else if String.eqb (Datapoint.Datatype d) "ms" then
    mkChannels (gaugeChannel ch) (counterChannel ch) (timerChannel ch ++ [d])
  else ch.

End Parser.

(** ** The grammar of the specification

    [<name>:<value>|<type>] with [<value>] in [[0-9.]+] and [<type>] one of
    c, g, ms.  A line matches when it holds a sample; text before and after
    the sample is tolerated, as the search of the pattern is not anchored. *)

Definition specValueChar (c : ascii) : bool := isDigit c || Ascii.eqb c ".".

Fixpoint allChars (p : ascii → bool) (s : string) : bool :=
  match s with
  | EmptyString => true
  | String a s' => p a && allChars p s'
  end.

Definition datatypeLetters : list string := ["c"; "g"; "ms"].

Definition sample (name value datatype : string) : string :=
  name +:+ ":" +:+ value +:+ "|" +:+ datatype.

Definition matchesGrammar (line : string) : Prop :=
  ∃ pre name value datatype post,
    line = pre +:+ sample name value datatype +:+ post
    ∧ value ≠ "" ∧ allChars specValueChar value = true
    ∧ datatype ∈ datatypeLetters.

(** A decision procedure for [matchesGrammar]: some colon is followed by a
    non-empty run of [[0-9.]], a vertical bar and a type letter. *)
Fixpoint dropChars (p : ascii → bool) (s : string) : string :=
  match s with
  | String a s' => if p a then dropChars p s' else s
  | EmptyString => s
  end.

(** [strings.HasPrefix(s, p)] *)
Fixpoint hasPrefix (p s : string) : bool :=
  match p with
  | EmptyString => true
  | String a p' =>
      match s with
      | String b s' => Ascii.eqb a b && hasPrefix p' s'
      | EmptyString => false
      end
  end.

Definition datatypeHere (s : string) : bool :=
  hasPrefix "c" s || hasPrefix "g" s || hasPrefix "ms" s.

Definition sampleTail (s : string) : bool :=
  match s with
  | String a s' =>
      specValueChar a &&
      match dropChars specValueChar s' with
      | String b t => Ascii.eqb b "|" && datatypeHere t
      | EmptyString => false
      end
  | EmptyString => false
  end.

Fixpoint grammarOccurs (s : string) : bool :=
  match s with
  | EmptyString => false
  | String a s' => (Ascii.eqb a ":" && sampleTail s') || grammarOccurs s'
  end.

(** ** The sinks *)

(** The channel an engine sends an observation on: [diskAppendChannel]
    feeds the historical files, [redisAppendChannel] the recent values. *)
Inductive Sink : Type := diskAppendChannel | redisAppendChannel.

Global Instance Sink_eq_dec : EqDecision Sink.
Proof. solve_decision. Defined.

Definition Sent : Type := (Sink * AggregateObservation.t)%type.

(** What reached one sink, in order. *)
Definition sentTo (sink : Sink) (out : list Sent) : list AggregateObservation.t :=
  snd <$> filter (λ x, x.1 = sink) out.

Definition newline : string := String "010" EmptyString.

(** ** [processGauges] *)

Section Gauges.
Context `{Library}.

(** The body of the loop: one observation, built from the datapoint alone,
    sent on [diskAppendChannel]. *)
Definition gaugeObservation (d : Datapoint.t) : AggregateObservation.t :=
  AggregateObservation.mk
    ("gauges:" +:+ Datapoint.Name d)
    (FormatInt (Datapoint.Timestamp d) +:+ " " +:+ FormatFloat (Datapoint.Value d) +:+ newline)
    0.

Definition processGauges (gauges : list Datapoint.t) : list Sent :=
  foldl (λ out d, out ++ [(diskAppendChannel, gaugeObservation d)]) [] gauges.
End Gauges.

(** ** The bucket wheels of [processCounters] and [processTimers]

    The two engines are the same code over two accumulators: a [float64]
    sum and a [[]float64] of samples.  [Accumulator] collects the places
    where they differ. *)
Class Accumulator (A : Type) : Type :=
  { accumulate : option A → float → A;   (* m[name] += v; m[name] = append(m[name], v) *)
    ready : A → bool;                     (* value > 0; len(value) > 0 *)
    render : A → string;                  (* the %v of the payload *)
    family : string }.                    (* "counters:"; "timers:" *)

Definition heartbeatInterval : Z := 1.

Definition wrap64 (z : Z) : Z := (z + 2 ^ 63) `mod` 2 ^ 64 - 2 ^ 63.

(** Row [i] of [currentSlots], [maxSlots] and the wheel ([counters] or
    [timers]), with [shared.Config.Retentions[i].Interval]. *)
Record Wheel (A : Type) : Type := mkWheel
  { interval : Z;
    currentSlot : Z;
    maxSlot : Z;
    buckets : list (gmap string A) }.
Global Arguments mkWheel {A} _ _ _ _.
Global Arguments interval {A} _.
Global Arguments currentSlot {A} _.
Global Arguments maxSlot {A} _.
Global Arguments buckets {A} _.

(** [l[i]] on a slice, panicking out of range. *)
Definition index {A : Type} (l : list A) (i : Z) : option A :=
  if decide (0 ≤ i) then l !! Z.to_nat i else None.

(** What the select loop of an engine receives: a datapoint on its channel
    or a heartbeat.  [clock i] is the pair of readings of
    [time.Now().Unix()] taken while retention [i] is flushed. *)
Inductive Event : Type :=
| Receive (d : Datapoint.t)
| Heartbeat (clock : nat → Z * Z).

Section Wheels.
Context `{Library} {A : Type} `{Accumulator A}.

(** The set-up before the loop; [make] panics on a negative length. *)
Definition newWheel (retention : Z) : option (Wheel A) :=
  let slots := Z.quot retention heartbeatInterval in
  if decide (0 ≤ slots)
  then Some (mkWheel retention 0 slots (replicate (Z.to_nat slots) ∅))
  else None.

Definition newWheels (retentions : list Z) : option (list (Wheel A)) :=
  mapM newWheel retentions.

(** [int64(mmh3.Hash32([]byte(d.Name))) % maxSlots[i]] *)
Definition hashSlot (name : string) (slots : Z) : option Z :=
  if decide (slots = 0) then None
  else Some (Z.rem (Z.of_N (Hash32 name)) slots).

(** [case d := <-ch], for one retention. *)
Definition receive (d : Datapoint.t) (w : Wheel A) : option (Wheel A) :=
  h ← hashSlot (Datapoint.Name d) (maxSlot w);
  bucket ← index (buckets w) h;
  let name := Datapoint.Name d in
  let bucket' := <[name := accumulate (bucket !! name) (Datapoint.Value d)]> bucket in
  Some (mkWheel (interval w) (currentSlot w) (maxSlot w)
          (<[Z.to_nat h := bucket']> (buckets w))).

(** [time.Now().Unix() - (time.Now().Unix() % Interval)], [t1] and [t2]
    being the two readings of the clock. *)
Definition alignedTimestamp (t1 t2 retention : Z) : option Z :=
  if decide (retention = 0) then None
  else Some (wrap64 (t1 - Z.rem t2 retention)).

(** The observation of one entry of the flushed bucket. *)
Definition observation (i : nat) (retention timestamp : Z) (key : string) (value : A) : Sent :=
  if decide (i = 0%nat) then
    (redisAppendChannel,
     AggregateObservation.mk (family +:+ key)
       (FormatInt timestamp +:+ "<X>" +:+ render value) timestamp)
  else
    (diskAppendChannel,
     AggregateObservation.mk (family +:+ key +:+ ":" +:+ FormatInt retention)
       (FormatInt timestamp +:+ " " +:+ render value +:+ newline) timestamp).

(** The body of [for key, value := range bucket]. *)
Definition flushEntry (i : nat) (retention timestamp : Z)
    (acc : gmap string A * list Sent) (entry : string * A) : gmap string A * list Sent :=
  let '(key, value) := entry in
  if ready value
  then (delete key acc.1, acc.2 ++ [observation i retention timestamp key value])
  else acc.

Definition flushBucket (i : nat) (retention timestamp : Z) (bucket : gmap string A)
    : gmap string A * list Sent :=
  foldl (flushEntry i retention timestamp) (bucket, []) (map_to_list bucket).

(** [currentSlots[i] += 1], back to 0 at [maxSlots[i]]. *)
Definition advance (current slots : Z) : Z :=
  let next := wrap64 (current + 1) in
  if decide (next = slots) then 0 else next.

(** The heartbeat, for retention [i]. *)
Definition tick (i : nat) (t1 t2 : Z) (w : Wheel A) : option (Wheel A * list Sent) :=
  timestamp ← alignedTimestamp t1 t2 (interval w);
  bucket ← index (buckets w) (currentSlot w);
  let '(bucket', out) := flushBucket i (interval w) timestamp bucket in
  Some (mkWheel (interval w) (advance (currentSlot w) (maxSlot w)) (maxSlot w)
          (<[Z.to_nat (currentSlot w) := bucket']> (buckets w)),
        out).

(** [case <-heartbeat]: the retentions from index [i] on, in order. *)
Fixpoint heartbeat (i : nat) (clock : nat → Z * Z) (ws : list (Wheel A))
    : option (list (Wheel A) * list Sent) :=
  match ws with
  | [] => Some ([], [])
  | w :: ws' =>
      '(w', out) ← tick i (clock i).1 (clock i).2 w;
      '(ws'', outs) ← heartbeat (S i) clock ws';
      Some (w' :: ws'', out ++ outs)
  end.

(** One turn of the select loop: the wheels after it and what was sent. *)
Definition step (ws : list (Wheel A)) (e : Event) : option (list (Wheel A) * list Sent) :=
  match e with
  | Receive d => ws' ← mapM (receive d) ws; Some (ws', [])
  | Heartbeat clock => heartbeat 0 clock ws
  end.

(** The loop over a sequence of events: the final wheels and, for each
    event, what it sent. *)
Fixpoint run (ws : list (Wheel A)) (events : list Event)
    : option (list (Wheel A) * list (list Sent)) :=
  match events with
  | [] => Some (ws, [])
  | e :: events' =>
      '(ws', out) ← step ws e;
      '(ws'', outs) ← run ws' events';
      Some (ws'', out :: outs)
  end.

(** The engine from its start. *)
Definition engine (retentions : list Z) (events : list Event)
    : option (list (Wheel A) * list (list Sent)) :=
  ws ← newWheels retentions; run ws events.
End Wheels.

(** ** [processCounters] *)

Section Counters.
Context `{Library}.

Global Instance counterAccumulator : Accumulator float :=
  {| accumulate old v := PrimFloat.add (default 0%float old) v;
     ready value := PrimFloat.ltb 0%float value;
     render value := FormatFloat value;
     family := "counters:" |}.

Definition processCounters (retentions : list Z) (events : list Event)
    : option (list (Wheel float) * list (list Sent)) :=
  engine retentions events.
End Counters.

(** ** The statistics of package [shared] *)

Definition floatOfNat (n : nat) : float :=
  PrimFloat.of_uint63 (Uint63.of_Z (Z.of_nat n)).

(** Modelled from the spec: "sort ascending", by insertion, for the
    percentiles and the median of package [shared]. *)
Fixpoint insertSorted (x : float) (l : list float) : list float :=
  match l with
  | [] => [x]
  | y :: l' => if PrimFloat.leb x y then x :: l else y :: insertSorted x l'
  end.

Definition sortAscending (l : list float) : list float := foldr insertSorted [] l.

Definition sumFloats (l : list float) : float := foldl PrimFloat.add 0%float l.

(** Modelled from the spec: [shared.Min], the least sample (package
    [shared] is not among the source files). *)
Definition Min (samples : list float) : float := hd 0%float (sortAscending samples).

(** Modelled from the spec: [shared.Max], the greatest sample. *)
Definition Max (samples : list float) : float := List.last (sortAscending samples) 0%float.

(** Modelled from the spec: [shared.Mean], the arithmetic mean. *)
Definition Mean (samples : list float) : float :=
  PrimFloat.div (sumFloats samples) (floatOfNat (length samples)).

(** Modelled from the spec: [shared.Median], "if [n] odd, middle element of
    sorted samples; if even, arithmetic mean of the two middle elements". *)
Definition Median (samples : list float) : float :=
  let sorted := sortAscending samples in
  let n := length samples in
  if Nat.odd n then nth (n / 2) sorted 0%float
  else PrimFloat.div
         (PrimFloat.add (nth (n / 2 - 1) sorted 0%float) (nth (n / 2) sorted 0%float))
         2%float.

(** Modelled from the spec: [shared.Stddev], "population standard deviation
    sqrt(sum((x-mean)^2) / n)". *)
Definition Stddev (samples : list float) : float :=
  let mean := Mean samples in
  let squares := (λ x, PrimFloat.mul (PrimFloat.sub x mean) (PrimFloat.sub x mean)) <$> samples in
  PrimFloat.sqrt (PrimFloat.div (sumFloats squares) (floatOfNat (length samples))).

(** Modelled from the spec: the "ceil" of the percentile index.  The least
    natural number [k] below [bound] with [x <= k], and [bound] when there
    is none: the ceiling of [x], cut at [bound]. *)
Fixpoint ceilFrom (x : float) (k fuel : nat) : nat :=
  match fuel with
  | O => k
  | S fuel' => if PrimFloat.leb x (floatOfNat k) then k else ceilFrom x (S k) fuel'
  end.

Definition ceilUpTo (x : float) (bound : nat) : nat := ceilFrom x 0 bound.

(** Modelled from the spec: the index of [shared.Percentile], "index
    ceil(p * n) - 1 (0-based), clamped to [0, n-1]". *)
Definition percentileIndex (p : float) (n : nat) : nat :=
  let ceiling := ceilUpTo (PrimFloat.mul p (floatOfNat n)) n in
  Z.to_nat (Z.max 0 (Z.min (Z.of_nat n - 1) (Z.of_nat ceiling - 1))).

(** Modelled from the spec: [shared.Percentile], "sort ascending, take
    element at index ceil(p * n) - 1". *)
Definition Percentile (samples : list float) (p : float) : float :=
  nth (percentileIndex p (length samples)) (sortAscending samples) 0%float.

(** ** [processTimers] *)

(** The [float64] constants 0.9, 0.95 and 0.99: the binary64 values nearest
    to the decimals. *)
Definition p90 : float := 0x1.ccccccccccccdp-1%float.
Definition p95 : float := 0x1.e666666666666p-1%float.
Definition p99 : float := 0x1.fae147ae147aep-1%float.

Section Timers.
Context `{Library}.

(** The [aggregates] string of the heartbeat case. *)
Definition aggregates (value : list float) : string :=
  let count := length value in
  let min := Min value in
  let max := Max value in
  let median := Median value in
  let mean := Mean value in
  let stddev := Stddev value in
  let percentile_90 := Percentile value p90 in
  let percentile_95 := Percentile value p95 in
  let percentile_99 := Percentile value p99 in
  FormatInt (Z.of_nat count) +:+ "/" +:+ FormatFloat min +:+ "/" +:+ FormatFloat max
    +:+ "/" +:+ FormatFloat median +:+ "/" +:+ FormatFloat mean
    +:+ "/" +:+ FormatFloat stddev +:+ "/" +:+ FormatFloat percentile_90
    +:+ "/" +:+ FormatFloat percentile_95 +:+ "/" +:+ FormatFloat percentile_99.

Global Instance timerAccumulator : Accumulator (list float) :=
  {| accumulate old v := default [] old ++ [v];
     ready value := bool_decide (0 < length value)%nat;
     render value := aggregates value;
     family := "timers:" |}.

Definition processTimers (retentions : list Z) (events : list Event)
    : option (list (Wheel (list float)) * list (list Sent)) :=
  engine retentions events.
End Timers.

(** ** [appendToFile] and [saveNewDatapoints]

    The file system the writer sees: the directories made so far and the
    content of each file.  What the environment may refuse is given with
    each observation. *)
Record FileSystem : Type := mkFileSystem
  { dirs : gset string;
    files : gmap string string }.

Inductive Errno : Type := ENOENT | EACCES.

(** The calls that fail for a reason of the environment's own. *)
Record Faults : Type := mkFaults
  { openFault : bool;
    mkdirFault : bool;
    createFault : bool }.

Definition noFaults : Faults := mkFaults false false false.

(** [os.OpenFile(filename, os.O_APPEND|os.O_WRONLY, 0600)]: without
    [O_CREATE] a missing file is [ENOENT]. *)
Definition OpenFile (fs : FileSystem) (env : Faults) (filename : string) : option Errno :=
  if openFault env then Some EACCES
  else if decide (filename ∈ dom (files fs)) then None
  else Some ENOENT.

(** [os.MkdirAll(dir, 0755)] *)
Definition MkdirAll (fs : FileSystem) (env : Faults) (dir : string) : FileSystem * bool :=
  if mkdirFault env then (fs, false)
  else (mkFileSystem ({[dir]} ∪ dirs fs) (files fs), true).

(** [os.Create(filename)]: the file, emptied, when its directory is there. *)
Definition Create `{Library} (fs : FileSystem) (env : Faults) (filename : string) : FileSystem * bool :=
  if createFault env then (fs, false)
  else if decide (Dir filename ∈ dirs fs)
       then (mkFileSystem (dirs fs) (<[filename := ""]> (files fs)), true)
       else (fs, false).

(** [writer.WriteString(text)], [writer.Flush()] and [file.Close()] on a
    file opened for appending. *)
Definition appendText (fs : FileSystem) (filename text : string) : FileSystem :=
  mkFileSystem (dirs fs) (alter (λ content, content +:+ text) filename (files fs)).

(** The state of the writer: the file system and the channel [datapoints]
    read by [saveNewDatapoints]. *)
Record Writer : Type := mkWriter
  { disk : FileSystem;
    datapoints : list string }.

Section Files.
Context `{Library}.

(** The body of the loop of [appendToFile]; [root] is
    [shared.Config.Root]. *)
Definition appendObservation (root : string) (st : Writer)
    (observation : AggregateObservation.t) (env : Faults) : option Writer :=
  let filename := CalculateFilename (AggregateObservation.Name observation) root in
  let fs := disk st in
  match OpenFile fs env filename with
  | None =>
      Some (mkWriter (appendText fs filename (AggregateObservation.Content observation))
              (datapoints st))
  | Some ENOENT =>
      let '(fs1, _) := MkdirAll fs env (Dir filename) in
      let '(fs2, created) := Create fs1 env filename in
      let queue := datapoints st ++ [AggregateObservation.Name observation] in
      if created then
        let fs3 := appendText fs2 filename
                     ("v2 " +:+ AggregateObservation.Name observation +:+ newline) in
        Some (mkWriter (appendText fs3 filename (AggregateObservation.Content observation)) queue)
      else Some (mkWriter fs2 queue)
  | Some _ => None        (* panic(err) *)
  end.

Fixpoint appendToFile (root : string) (st : Writer)
    (observations : list (AggregateObservation.t * Faults)) : option Writer :=
  match observations with
  | [] => Some st
  | (observation, env) :: rest =>
      st' ← appendObservation root st observation env;
      appendToFile root st' rest
  end.
End Files.

(** [saveNewDatapoints]: one [redis.Sadd("datapoints", d)] for each name
    read from the channel; the calls, as (key, member). *)
Definition saveNewDatapoints (ch : list string) : list (string * string) :=
  (λ d, ("datapoints", d)) <$> ch.

(** ** [processDatatype] of [receiver.go]

    A [gobatsd.Metric] is an object behind an interface; what the loop does
    with it is the sequence of calls it makes.  An object is named by the
    order of its creation. *)
Inductive Call : Type :=
| metricCreator (name : string) (m : nat)   (* m := metricCreator(name) *)
| Start (m : nat)                           (* m.Start() *)
| Update (m : nat) (value : float).         (* m.Update(value) *)

Record Metrics : Type := mkMetrics
  { metrics : gmap string nat;   (* map[string]gobatsd.Metric *)
    created : nat;               (* objects made so far *)
    calls : list Call }.

Definition noMetrics : Metrics := mkMetrics ∅ 0 [].

(** [case d := <-ch] *)
Definition processDatapoint (st : Metrics) (d : Datapoint.t) : Metrics :=
  match metrics st !! Datapoint.Name d with
  | Some m =>
      mkMetrics (metrics st) (created st) (calls st ++ [Update m (Datapoint.Value d)])
  | None =>
      let m := created st in
      mkMetrics (<[Datapoint.Name d := m]> (metrics st)) (S (created st))
        (calls st ++ [metricCreator (Datapoint.Name d) m; Start m; Update m (Datapoint.Value d)])
  end.

Definition processDatatype (ch : list Datapoint.t) : Metrics :=
  foldl processDatapoint noMetrics ch.

(** ** Invariants of a wheel *)

Definition validRetention (r : Z) : Prop := 1 ≤ r < 2 ^ 63.

Section WheelInvariants.
Context `{Library} {A : Type} `{Accumulator A}.

(** The entries of a bucket that a flush emits. *)
Definition readyEntries (bucket : gmap string A) : list (string * A) :=
  filter (λ kv, ready kv.2) (map_to_list bucket).

(** The shape of row [i] at every turn of the loop. *)
Definition wheelOk (w : Wheel A) : Prop :=
  validRetention (interval w)
  ∧ maxSlot w = interval w
  ∧ 0 ≤ currentSlot w < maxSlot w
  ∧ length (buckets w) = Z.to_nat (maxSlot w).

(** A name is only ever held by the slot it hashes to. *)
Definition keysHashed (w : Wheel A) : Prop :=
  ∀ (j : nat) bucket name,
    buckets w !! j = Some bucket → is_Some (bucket !! name) →
    hashSlot name (maxSlot w) = Some (Z.of_nat j).

(** Every accumulator held by the wheel would be emitted by a flush. *)
Definition allReady (w : Wheel A) : Prop :=
  ∀ (j : nat) bucket name value,
    buckets w !! j = Some bucket → bucket !! name = Some value → ready value = true.

(** The wheels some run of the engine ends with. *)
Definition Reachable (retentions : list Z) (ws : list (Wheel A)) : Prop :=
  ∃ events outs, engine retentions events = Some (ws, outs).

(** The channel of the observations of [key] at retention [i]. *)
Definition channel (i : nat) (retention : Z) (key : string) : string :=
  if decide (i = 0%nat) then family +:+ key
  else family +:+ key +:+ ":" +:+ FormatInt retention.

(** The loop seen from retention [i]. *)
Definition stepWheel (i : nat) (w : Wheel A) (e : Event) : option (Wheel A * list Sent) :=
  match e with
  | Receive d => w' ← receive d w; Some (w', [])
  | Heartbeat clock => tick i (clock i).1 (clock i).2 w
  end.

Fixpoint runWheel (i : nat) (w : Wheel A) (events : list Event)
    : option (Wheel A * list (list Sent)) :=
  match events with
  | [] => Some (w, [])
  | e :: events' =>
      '(w', out) ← stepWheel i w e;
      '(w'', outs) ← runWheel i w' events';
      Some (w'', out :: outs)
  end.

(** What the engine sends at each event, from what each retention sends at
    each event: the retentions one after the other. *)
Definition merge (rows : list (list (list Sent))) (n : nat) : list (list Sent) :=
  (λ k, concat ((λ row, default [] (row !! k)) <$> rows)) <$> seq 0 n.

(** The keys a flush deletes. *)
Definition purge (l : list (string * A)) (m : gmap string A) : gmap string A :=
  foldl (λ m kv, if ready kv.2 then delete kv.1 m else m) m l.
End WheelInvariants.

Fixpoint ticks (events : list Event) : nat :=
  match events with
  | [] => 0
  | Heartbeat _ :: events' => S (ticks events')
  | Receive _ :: events' => ticks events'
  end.

Section Pointer.
Context `{Library} {A : Type} `{Accumulator A}.

(** [currentSlots[i]] after the engine has gone through [events]. *)
Definition slotAfter (retentions : list Z) (i : nat) (events : list Event) : option Z :=
  '(ws, _) ← engine (A:=A) retentions events;
  currentSlot <$> ws !! i.
End Pointer.

(** The pointer of a wheel of [slots] slots goes round: it starts at 0 and
    stays in range, a heartbeat moves it by one modulo [slots], a datapoint
    leaves it, [slots] heartbeats bring it back, fewer do not, and every
    slot is reached within fewer than [slots] heartbeats. *)
Definition SlotCycle (slot : list Event → option Z) (slots : Z) : Prop :=
  slot [] = Some 0
  ∧ (∀ events, ∃ p, slot events = Some p ∧ 0 ≤ p < slots
       ∧ (∀ clock, slot (events ++ [Heartbeat clock]) = Some ((p + 1) `mod` slots))
       ∧ (∀ d, slot (events ++ [Receive d]) = Some p))
  ∧ (∀ events window, Z.of_nat (ticks window) = slots →
       slot (events ++ window) = slot events)
  ∧ (∀ events window, 0 < Z.of_nat (ticks window) < slots →
       slot (events ++ window) ≠ slot events)
  ∧ (∀ events s, 0 ≤ s < slots →
       ∃ k, 0 ≤ k < slots
            ∧ ∀ window, Z.of_nat (ticks window) = k → slot (events ++ window) = Some s).


Section Held.
Context `{Library} {A : Type} `{Accumulator A}.

(** The accumulator the wheel holds for [name], in the slot of its hash. *)
Definition held (w : Wheel A) (name : string) : option A :=
  h ← hashSlot name (maxSlot w);
  bucket ← index (buckets w) h;
  bucket !! name.

(** The observations of [name] among what a flush of the entries [l] sends. *)
Definition sentFor (i : nat) (r ts : Z) (name : string) (l : list (string * A)) : nat :=
  length (filter (λ x, AggregateObservation.Name x.2 = channel i r name)
            (uncurry (observation i r ts) <$> filter (λ kv, ready kv.2) l)).
End Held.

(** A counter datapoint of value 0 and one of value 1. *)
Definition zeroHit : Datapoint.t := Datapoint.mk 0 "x" 0%float "c".
Definition oneHit : Datapoint.t := Datapoint.mk 0 "a" 1%float "c".

(** ** What [processDatatype] did, read from its calls *)

(** The objects made, each with the name it was made for. *)
Definition creations (cs : list Call) : list (string * nat) :=
  omap (λ c, match c with metricCreator name m => Some (name, m) | _ => None end) cs.

(** The objects started. *)
Definition starts (cs : list Call) : list nat :=
  omap (λ c, match c with Start m => Some m | _ => None end) cs.

(** The updates, each with the object it went to. *)
Definition updates (cs : list Call) : list (nat * float) :=
  omap (λ c, match c with Update m value => Some (m, value) | _ => None end) cs.

(** What holds after every datapoint: the objects are numbered in the order
    they were made, each was started once, the map holds exactly the
    objects made, one for each name seen, and every datapoint was passed to
    the object of its name. *)
Definition metricsInv (ch : list Datapoint.t) (st : Metrics) : Prop :=
  (creations (calls st)).*2 = seq 0 (created st)
  ∧ starts (calls st) = (creations (calls st)).*2
  ∧ NoDup ((creations (calls st)).*1)
  ∧ (∀ name m, metrics st !! name = Some m ↔ (name, m) ∈ creations (calls st))
  ∧ (∀ name, name ∈ (creations (calls st)).*1 ↔ name ∈ Datapoint.Name <$> ch)
  ∧ Forall2 (λ d u, metrics st !! Datapoint.Name d = Some u.1 ∧ u.2 = Datapoint.Value d)
      ch (updates (calls st)).

(** ** What [appendToFile] writes *)

(** The first line of a new file. *)
Definition headerLine (name : string) : string := "v2 " +:+ name +:+ newline.

(** The payloads of the observations of [name], one after the other. *)
Fixpoint payloads (name : string) (observations : list AggregateObservation.t) : string :=
  match observations with
  | [] => ""
  | o :: rest =>
      if decide (AggregateObservation.Name o = name)
      then AggregateObservation.Content o +:+ payloads name rest
      else payloads name rest
  end.

(** Observations written while the environment refuses nothing. *)
Definition unfaulted (observations : list AggregateObservation.t)
    : list (AggregateObservation.t * Faults) :=
  (λ o, (o, noFaults)) <$> observations.

(** ** What goes in and what comes out of a wheel *)

(** The values received for [name], in the order of their arrival. *)
Fixpoint inputsFor (name : string) (events : list Event) : list float :=
  match events with
  | [] => []
  | Receive d :: events' =>
      if decide (Datapoint.Name d = name)
      then Datapoint.Value d :: inputsFor name events'
      else inputsFor name events'
  | Heartbeat _ :: events' => inputsFor name events'
  end.

Section Accounts.
Context `{Library} {A : Type} `{Accumulator A}.

(** The accumulator of a name after the values [vs], from [a] ([None]: the
    name is not in the bucket). *)
Definition pending (a : option A) (vs : list float) : option A :=
  foldl (λ a v, Some (accumulate a v)) a vs.

(** What a flush leaves of an accumulator: nothing when it is emitted. *)
Definition afterFlush (a : option A) : option A :=
  match a with
  | Some value => if ready value then None else Some value
  | None => None
  end.

(** What a flush at retention [i] sends for an accumulator of [name]. *)
Definition flushOf (i : nat) (retention timestamp : Z) (name : string) (a : option A) : list Sent :=
  match a with
  | Some value => if ready value then [observation i retention timestamp name value] else []
  | None => []
  end.

(** The observations of [name] among those sent. *)
Definition sentOf (i : nat) (retention : Z) (name : string) (out : list Sent) : list Sent :=
  filter (λ x, AggregateObservation.Name x.2 = channel i retention name) out.
End Accounts.

(** ** An instance to run the definitions on

    Stand-ins for the imported functions: the hash of a name is its length,
    a file is named after its channel. *)
Definition exampleLibrary : Library :=
  {| ParseFloat _ := 0%float;
     FormatFloat _ := "#";
     Hash32 name := N.of_nat (String.length name);
     CalculateFilename name root := root +:+ "/" +:+ name;
     Dir filename := "dir of " +:+ filename |}.

(** A counter wheel of ten slots holding the sum 3 for [hits] in the
    current slot, and a timer wheel holding three samples for [lat]. *)
Definition exampleCounterWheel : Wheel float :=
  mkWheel 10 0 10 (<[0%nat := {["hits" := 3%float]}]> (replicate 10 ∅)).

Definition exampleTimerWheel : Wheel (list float) :=
  mkWheel 10 0 10 (<[0%nat := {["lat" := [10; 20; 30]%float]}]> (replicate 10 ∅)).

(** The clock of a heartbeat within the second [now]. *)
Definition steadyClock (now : Z) : nat → Z * Z := λ _, (now, now).

(** The counter wheels after one datapoint for [a] on the retentions 10 and 60. *)
Definition exampleReached : list (Wheel float) :=
  match processCounters (H:=exampleLibrary) [10; 60] [Receive oneHit] with
  | Some (ws, _) => ws
  | None => []
  end.

(** ** What the pattern of [parseDatapoint] accepts *)

(** The grammar of the pattern itself: as [matchesGrammar], with the value
    in the class of the pattern (digits, dots and vertical bars) and the
    name free of newlines. *)
Definition matchesPattern (line : string) : Prop :=
  ∃ pre name value datatype post,
    line = pre +:+ sample name value datatype +:+ post
    ∧ allChars anyCharNotNL name = true
    ∧ value ≠ "" ∧ allChars valueClass value = true
    ∧ datatype ∈ datatypeLetters.

Fixpoint countChar (c : ascii) (s : string) : nat :=
  match s with
  | EmptyString => 0
  | String a s' => (if Ascii.eqb a c then 1 else 0) + countChar c s'
  end.

Section Dispatch.
Context `{Library}.

(** The line reaches one of the three queues. *)
Definition dispatched (now : Z) (line : string) : Prop :=
  Datapoint.Datatype (parseDatapoint now line) ∈ datatypeLetters.
End Dispatch.

(** A writer on an empty disk, and three observations of two channels. *)
Definition emptyWriter : Writer := mkWriter (mkFileSystem ∅ ∅) [].

Definition exampleObservations : list AggregateObservation.t :=
  [AggregateObservation.mk "gauges:temp" ("1700000000 72.5" +:+ newline) 0;
   AggregateObservation.mk "counters:hits:60" ("1699999980 3" +:+ newline) 1699999980;
   AggregateObservation.mk "gauges:temp" ("1700000001 73" +:+ newline) 0].

(** ** The listeners of [receiver/receiver.go]: [bindUDP] and [bindTCP] *)

Definition readLen : nat := 256.

(** [buffer[0:n]] after [n, _, err := server.ReadFrom(buffer)]: the bytes
    of the datagram, as many as the buffer of [size] bytes holds. *)
Fixpoint ReadFrom (size : nat) (payload : string) : string :=
  match size, payload with
  | S size', String a payload' => String a (ReadFrom size' payload')
  | _, _ => EmptyString
  end.

(** A turn of the loop of [bindUDP]: a datagram, with the reading of the
    clock taken when it is parsed, or an error of the read. *)
Inductive Read : Type :=
| Datagram (now : Z) (payload : string)
| ReadError.

(** [b.ReadBytes(delim)]: the bytes up to and including the first [delim],
    and what is left of the stream; [None] when the stream ends before a
    [delim] (the error of the source, [io.EOF] when the client closes). *)
Fixpoint ReadBytes (delim : ascii) (stream : string) : option (string * string) :=
  match stream with
  | EmptyString => None
  | String a stream' =>
      if Ascii.eqb a delim then Some (String a EmptyString, stream')
      else '(line, rest) ← ReadBytes delim stream'; Some (String a line, rest)
  end.

Section Listeners.
Context `{Library}.

(** The loop of [bindUDP] over the reads of the socket. *)
Definition bindUDP (reads : list Read) (ch : Channels) : Channels :=
  foldl (λ ch r,
           match r with
           | Datagram now payload =>
               processIncomingMessage now (ReadFrom readLen payload) ch
           | ReadError => ch       (* continue *)
           end) ch reads.

(** The goroutine [bindTCP] starts for a client: line after line, until
    [ReadBytes] fails.  [stream] is what the client sends before it closes,
    [clock k] the reading of the clock at line [k]; the loop takes one unit
    of [fuel] for each line. *)
Fixpoint serveClient (fuel : nat) (clock : nat → Z) (k : nat) (stream : string)
    (ch : Channels) : Channels :=
  match fuel with
  | O => ch
  | S fuel' =>
      match ReadBytes "010" stream with
      | None => ch            (* return *)
      | Some (line, rest) =>
          serveClient fuel' clock (S k) rest (processIncomingMessage (clock k) line ch)
      end
  end.

(** A stream holds fewer lines than bytes. *)
Definition handleClient (clock : nat → Z) (stream : string) (ch : Channels) : Channels :=
  serveClient (S (String.length stream)) clock 0 stream ch.
End Listeners.

(** ** [addToRedisZset] *)

(** [float64(n)] for an [int64] [n]: the nearest float, ties to even. *)
Definition Float64OfInt64 (n : Z) : float :=
  if decide (0 ≤ n) then PrimFloat.of_uint63 (Uint63.of_Z n)
  else if decide (- 2 ^ 63 < n) then PrimFloat.opp (PrimFloat.of_uint63 (Uint63.of_Z (- n)))
  else PrimFloat.opp 0x1p63%float.

(** One [redis.Zadd(key, score, member)] for each observation read from
    the channel; the calls, as (key, score, member). *)
Definition addToRedisZset (ch : list AggregateObservation.t) : list (string * float * string) :=
  (λ observation,
     (AggregateObservation.Name observation,
      Float64OfInt64 (AggregateObservation.Timestamp observation),
      AggregateObservation.Content observation)) <$> ch.

(** ** [runHeartbeat]

    The channel a heartbeat is sent on.  Both channels are unbuffered: a
    send returns when the engine has taken the heartbeat. *)
Inductive Beat : Type := counterHeartbeat | timerHeartbeat.

Global Instance Beat_eq_dec : EqDecision Beat.
Proof. solve_decision. Defined.

(** What the loop sends for [n] ticks of the ticker, in order. *)
Fixpoint runHeartbeat (n : nat) : list Beat :=
  match n with
  | O => []
  | S n' => counterHeartbeat :: timerHeartbeat :: runHeartbeat n'
  end.

(** The heartbeats sent on one channel. *)
Definition beats (b : Beat) (l : list Beat) : nat := length (filter (λ x, x = b) l).

(** ** The message processors of [receiver.go]

    [channels] is the map of [main] from a datatype to its channel, and
    [ParseDatapointFromString], of package [gobatsd], is the variable of
    the section. *)
Inductive Queue : Type := gaugeQueue | counterQueue | timerQueue.

Global Instance Queue_eq_dec : EqDecision Queue.
Proof. solve_decision. Defined.

Definition channels : gmap string Queue :=
  {[ "g" := gaugeQueue; "c" := counterQueue; "ms" := timerQueue ]}.

(** [ch <- d] *)
Definition send (q : Queue) (d : Datapoint.t) (ch : Channels) : Channels :=
  match q with
  | gaugeQueue => mkChannels (gaugeChannel ch ++ [d]) (counterChannel ch) (timerChannel ch)
  | counterQueue => mkChannels (gaugeChannel ch) (counterChannel ch ++ [d]) (timerChannel ch)
  | timerQueue => mkChannels (gaugeChannel ch) (counterChannel ch) (timerChannel ch ++ [d])
  end.

Section Processors.
Context (ParseDatapointFromString : string → Datapoint.t).

(** The body of the loop of a message processor. *)
Definition processMessage (ch : Channels) (message : string) : Channels :=
  let d := ParseDatapointFromString message in
  match channels !! Datapoint.Datatype d with
  | Some q => send q d ch
  | None => ch
  end.

(** The messages in the order the processors take them. *)
Definition processMessages (messages : list string) : Channels :=
  foldl processMessage noTraffic messages.
End Processors.

(** ** Lines, samples and names *)

(** No colon before the first newline. *)
Fixpoint colonFreeLine (s : string) : bool :=
  match s with
  | EmptyString => true
  | String a s' =>
      if Ascii.eqb a "010" then true
      else negb (Ascii.eqb a ":") && colonFreeLine s'
  end.

(** Some colon is followed by a character of the value class. *)
Fixpoint colonThenValue (s : string) : bool :=
  match s with
  | EmptyString => false
  | String a s' =>
      (Ascii.eqb a ":" && match s' with
                          | String b _ => valueClass b
                          | EmptyString => false
                          end)
      || colonThenValue s'
  end.

(** No character of a match of [r] can be [c]. *)
Fixpoint rejects (c : ascii) (r : regex) : bool :=
  match r with
  | Literal a => negb (Ascii.eqb c a)
  | CharClass p | Star p | Plus p => negb (p c)
  | Concat r1 r2 | Alternate r1 r2 => rejects c r1 && rejects c r2
  | Capture _ r => rejects c r
  end.

(** What a match becomes when the character [c] is added at the end of
    the input: the same match, [c] being part of the rest. *)
Definition matchBefore (c : ascii) (x : option (list string * string))
    : option (list string * string) :=
  (λ mr, (mr.1, mr.2 +:+ String c "")) <$> x.

(** The datapoints of one type, in order. *)
Definition ofType (datatype : string) (ds : list Datapoint.t) : list Datapoint.t :=
  filter (λ d, Datapoint.Datatype d = datatype) ds.

Section Ingest.
Context `{Library}.

(** What the reads of the socket parse to, one datapoint for each datagram
    (the empty datapoint when the datagram does not match). *)
Definition datapointsRead (reads : list Read) : list Datapoint.t :=
  omap (λ r, match r with
             | Datagram now payload => Some (parseDatapoint now (ReadFrom readLen payload))
             | ReadError => None
             end) reads.

(** The datapoint of the sample [(name, value, datatype)] parsed at [now]. *)
Definition datapointOf (now : Z) (s : string * string * string) : Datapoint.t :=
  Datapoint.mk now s.1.1 (ParseFloat s.1.2) s.2.
End Ingest.

(** A sample as a line of a TCP stream. *)
Definition wire (s : string * string * string) : string :=
  sample s.1.1 s.1.2 s.2 +:+ newline.

(** A sample a client may send: a name free of newlines, a value of
    digits, dots and bars, and one of the three type letters. *)
Definition wellFormed (s : string * string * string) : Prop :=
  allChars anyCharNotNL s.1.1 = true
  ∧ s.1.2 ≠ "" ∧ allChars valueClass s.1.2 = true
  ∧ s.2 ∈ datatypeLetters.

(** The strings one after the other. *)
Definition joined (l : list string) : string := foldr String.append "" l.

(** A character of a decimal: a digit, or the minus sign. *)
Definition decimalChar (c : ascii) : bool := isDigit c || Ascii.eqb c "-".

(** ** Files *)

(** [content] is the beginning of [content']. *)
Definition startsWith (content' content : string) : Prop :=
  ∃ more, content' = content +:+ more.

(** An environment in which [os.Create] fails. *)
Definition createFails (env : Faults) : Prop :=
  openFault env = false ∧ createFault env = true.

(** The observations of the gauges among those sent to the disk. *)
Definition gaugeSeries (observations : list AggregateObservation.t) : list AggregateObservation.t :=
  filter (λ o, hasPrefix "gauges:" (AggregateObservation.Name o) = true) observations.

(** The line of a gauge datapoint in its file. *)
Definition gaugeLine `{Library} (d : Datapoint.t) : string :=
  FormatInt (Datapoint.Timestamp d) +:+ " " +:+ FormatFloat (Datapoint.Value d) +:+ newline.

(** ** Metrics *)

(** The values passed to the object of [name], in order. *)
Definition updatesOf (st : Metrics) (name : string) : list float :=
  match metrics st !! name with
  | Some m => snd <$> filter (λ u, u.1 = m) (updates (calls st))
  | None => []
  end.

(** The values of the datapoints of [name], in order. *)
Definition valuesFor (name : string) (ch : list Datapoint.t) : list float :=
  Datapoint.Value <$> filter (λ d, Datapoint.Name d = name) ch.

(** ** More instances to run the definitions on *)

(** A name of 256 bytes. *)
Definition exampleLongName : string := joined (replicate 256 "a").

(** Two samples of a client, and the clock of the examples. *)
Definition exampleSamples : list (string * string * string) :=
  [("hits", "1", "c"); ("temp", "72.5", "g")].

Definition exampleClock : nat → Z := λ k, 1700000000 + Z.of_nat k.

(** The first counter wheel after one datapoint for [a], and the bucket of
    the slot [a] hashes to. *)
Definition exampleWheel : Wheel float :=
  default exampleCounterWheel (exampleReached !! 0%nat).

Definition exampleBucket : gmap string float :=
  default ∅ (buckets exampleWheel !! 1%nat).

(** The timer wheels after one datapoint for [a] on the retentions 10 and 60. *)
Definition exampleTimersReached : list (Wheel (list float)) :=
  match processTimers (H:=exampleLibrary) [10; 60] [Receive oneHit] with
  | Some (ws, _) => ws
  | None => []
  end.

(** A heartbeat of the counter wheel of the examples. *)
Definition exampleFlush : list (Wheel float) * list Sent :=
  default ([], [])
    (step (H:=exampleLibrary) (H0:=counterAccumulator (H:=exampleLibrary))
       [exampleCounterWheel] (Heartbeat (steadyClock 1700000007))).

(** A disk on which the file of a gauge is there already, an observation
    of that gauge, and an environment in which no file can be made. *)
Definition exampleGaugeObservation : AggregateObservation.t :=
  AggregateObservation.mk "gauges:temp" ("1700000000 72.5" +:+ newline) 0.

Definition restartedWriter : Writer :=
  mkWriter
    (mkFileSystem ∅ {[ "/var/batsd/gauges:temp" := headerLine "gauges:temp" ]})
    [].

Definition failingCreate : Faults := mkFaults false false true.

(** A gauge and a counter sent over UDP, and what the disk channel
    carries for them. *)
Definition exampleReads : list Read :=
  [Datagram 1700000000 "temp:72.5|g"; ReadError; Datagram 1700000001 "hits:1|c"].

Definition exampleMerged : list AggregateObservation.t :=
  [AggregateObservation.mk "counters:hits:60" ("1699999980 #" +:+ newline) 1699999980;
   AggregateObservation.mk "gauges:temp" ("1700000000 #" +:+ newline) 0].

(** Two lines of a client, without their newlines. *)
Definition exampleTexts : list string := ["hits:1|c"; "temp:72.5|g"].
(** * Properties *)

(** ** Strings *)

Lemma app_nil_l (s : string) : "" +:+ s = s.
Proof. reflexivity. Qed.

Lemma app_cons (a : ascii) (s t : string) : String a s +:+ t = String a (s +:+ t).
Proof. reflexivity. Qed.

Lemma app_assoc_str (s t u : string) : (s +:+ t) +:+ u = s +:+ (t +:+ u).
Proof.
  induction s as [|a s IH]; [reflexivity|].
  rewrite !app_cons. by rewrite IH.
Qed.

Lemma length_app_str (s t : string) :
  String.length (s +:+ t) = (String.length s + String.length t)%nat.
Proof.
  induction s as [|a s IH]; [reflexivity|].
  rewrite app_cons. cbn [String.length]. by rewrite IH.
Qed.

(** Appending the same text keeps two strings apart. *)
Lemma app_inj_r (t s1 s2 : string) : s1 +:+ t = s2 +:+ t → s1 = s2.
Proof.
  revert s2. induction s1 as [|a s1 IH]; intros [|b s2] Heq.
  - reflexivity.
  - apply (f_equal String.length) in Heq.
    rewrite app_cons, app_nil_l in Heq. cbn [String.length] in Heq.
    rewrite length_app_str in Heq. lia.
  - apply (f_equal String.length) in Heq.
    rewrite app_cons, app_nil_l in Heq. cbn [String.length] in Heq.
    rewrite length_app_str in Heq. lia.
  - rewrite !app_cons in Heq. injection Heq as -> Heq. f_equal. by apply IH.
Qed.

(** ** The line parser *)

Lemma grammarOccurs_app (p t : string) :
  grammarOccurs t = true → grammarOccurs (p +:+ t) = true.
Proof.
  intros Ht. induction p as [|a p IH]; [done|].
  rewrite app_cons. cbn [grammarOccurs]. rewrite IH. apply orb_true_r.
Qed.

Lemma dropChars_value (v rest : string) :
  allChars specValueChar v = true →
  dropChars specValueChar (v +:+ String "|" rest) = String "|" rest.
Proof.
  induction v as [|a v IH]; intros Hv; [reflexivity|].
  cbn [allChars] in Hv. apply andb_true_iff in Hv as [Ha Hv].
  rewrite app_cons. cbn [dropChars]. rewrite Ha. by apply IH.
Qed.

Lemma datatypeHere_letters (datatype post : string) :
  datatype ∈ datatypeLetters → datatypeHere (datatype +:+ post) = true.
Proof.
  unfold datatypeLetters. rewrite !elem_of_cons, elem_of_nil.
  intros [-> | [-> | [-> | []]]]; reflexivity.
Qed.

Lemma sampleTail_sample (value datatype post : string) :
  value ≠ "" → allChars specValueChar value = true →
  datatype ∈ datatypeLetters →
  sampleTail (value +:+ "|" +:+ datatype +:+ post) = true.
Proof.
  intros Hne Hv Hd. destruct value as [|a v]; [done|].
  cbn [allChars] in Hv. apply andb_true_iff in Hv as [Ha Hv].
  rewrite app_cons. cbn [sampleTail]. rewrite Ha. cbn [andb].
  change ("|" +:+ datatype +:+ post) with (String "|" (datatype +:+ post)).
  rewrite dropChars_value by done.
  by rewrite datatypeHere_letters.
Qed.

(** Every line that matches the grammar is accepted by the decision
    procedure. *)
Lemma matchesGrammar_occurs (line : string) :
  matchesGrammar line → grammarOccurs line = true.
Proof.
  intros (pre & name & value & datatype & post & -> & Hne & Hv & Hd).
  apply grammarOccurs_app. unfold sample.
  rewrite app_assoc_str. apply grammarOccurs_app.
  rewrite !app_assoc_str.
  change (":" +:+ ?t) with (String ":" t).
  cbn [grammarOccurs]. rewrite sampleTail_sample by done. reflexivity.
Qed.

(** C1, at the line [a:1|2|c]: the line does not match the grammar of the
    specification (after the colon the run of digits and dots is [1], and
    what follows its vertical bar is [2], not a type letter), yet the
    pattern of [parseDatapoint], whose value class also holds the vertical
    bar, captures the value text [1|2]; the datapoint is sent on
    [counterChannel]. *)
Theorem parseDatapoint_bar_in_value `{Library} (now : Z) (ch : Channels) :
  let d := Datapoint.mk now "a" (ParseFloat "1|2") "c" in
  ¬ matchesGrammar "a:1|2|c"
  ∧ parseDatapoint now "a:1|2|c" = d
  ∧ processIncomingMessage now "a:1|2|c" ch
    = mkChannels (gaugeChannel ch) (counterChannel ch ++ [d]) (timerChannel ch).
Proof.
  split_and!.
  - intros Hm%matchesGrammar_occurs. discriminate Hm.
  - reflexivity.
  - reflexivity.
Qed.


(** *** The pattern, as a grammar *)

Lemma length_consumed (pre rest : string) :
  consumed (pre +:+ rest) rest = pre.
Proof.
  unfold consumed. rewrite length_app_str.
  replace (String.length pre + String.length rest - String.length rest)%nat
    with (String.length pre) by lia.
  induction pre as [|a pre IH]; cbn.
  - by destruct rest.
  - rewrite app_cons. cbn. by rewrite IH.
Qed.

Lemma allChars_app (p : ascii → bool) (s t : string) :
  allChars p (s +:+ t) = allChars p s && allChars p t.
Proof.
  induction s as [|a s IH]; [done|]. rewrite app_cons. cbn. rewrite IH.
  by rewrite andb_assoc.
Qed.

Section Star.
Context {R : Type}.

(** A greedy repetition ends on a split of the input whose first part is
    in the class and on whose second part the continuation succeeds. *)
Lemma star_sound (p : ascii → bool) (s : string) (k : string → option R) (x : R) :
  star p s k = Some x →
  ∃ pre rest, s = pre +:+ rest ∧ allChars p pre = true ∧ k rest = Some x.
Proof.
  induction s as [|a s IH]; cbn; intros Hs.
  - by exists "", "".
  - destruct (p a) eqn:Ha; [|by exists "", (String a s)].
    destruct (star p s k) as [y|] eqn:Hy.
    + injection Hs as <-. destruct (IH eq_refl) as (pre & rest & -> & Hpre & Hk).
      exists (String a pre), rest. split_and!; [done| |done]. cbn. by rewrite Ha.
    + by exists "", (String a s).
Qed.

(** It succeeds as soon as one such split exists. *)
Lemma star_complete (p : ascii → bool) (pre rest : string) (k : string → option R) :
  allChars p pre = true → is_Some (k rest) → is_Some (star p (pre +:+ rest) k).
Proof.
  intros Hpre Hk. induction pre as [|a pre IH].
  - rewrite app_nil_l. destruct rest as [|b rest]; [done|]. cbn.
    destruct (p b); [|done]. by destruct (star p rest k).
  - cbn in Hpre. apply andb_true_iff in Hpre as [Ha Hpre].
    rewrite app_cons. cbn. rewrite Ha.
    destruct (IH Hpre) as [y ->]. done.
Qed.
End Star.

(** A match of the pattern at the start of the input: the input is a
    sample and a rest, and the submatches are the parts of the sample. *)
Lemma matchHere_sound (s : string) (m : list string) (rest : string) :
  matchHere metricRegex 3 s = Some (m, rest) →
  ∃ name value datatype,
    s = sample name value datatype +:+ rest
    ∧ allChars anyCharNotNL name = true
    ∧ value ≠ "" ∧ allChars valueClass value = true
    ∧ datatype ∈ datatypeLetters
    ∧ m = [sample name value datatype; name; value; datatype].
Proof.
  unfold matchHere, metricRegex. cbn [backtrack].
  intros Hm. apply star_sound in Hm as (name & s1 & -> & Hname & Hm).
  destruct s1 as [|a s1]; [done|].
  destruct (Ascii.eqb a ":") eqn:Ha; [|done]. apply Ascii.eqb_eq in Ha as ->.
  destruct s1 as [|b s2]; [done|].
  destruct (valueClass b) eqn:Hb; [|done].
  apply star_sound in Hm as (v & s3 & -> & Hv & Hm).
  destruct s3 as [|c s3]; [done|].
  destruct (Ascii.eqb c "|") eqn:Hc; [|done]. apply Ascii.eqb_eq in Hc as ->.
  assert (Hshape : ∀ datatype t,
            s3 = datatype +:+ t → datatype ∈ datatypeLetters →
            Some (consumed (name +:+ String ":" (String b (v +:+ String "|" s3))) t
                  :: (submatch [(3%nat, consumed s3 t);
                                (2%nat, consumed (String b (v +:+ String "|" s3)) (String "|" s3));
                                (1%nat, consumed (name +:+ String ":" (String b (v +:+ String "|" s3)))
                                          (String ":" (String b (v +:+ String "|" s3))))]
                      <$> seq 1 3), t) = Some (m, rest) →
            ∃ name0 value datatype0,
              name +:+ String ":" (String b (v +:+ String "|" s3))
              = sample name0 value datatype0 +:+ rest
              ∧ allChars anyCharNotNL name0 = true
              ∧ value ≠ "" ∧ allChars valueClass value = true
              ∧ datatype0 ∈ datatypeLetters
              ∧ m = [sample name0 value datatype0; name0; value; datatype0]).
  { intros datatype t -> Hd Heq. injection Heq as <- <-.
    exists name, (String b v), datatype.
    assert (Hline : name +:+ String ":" (String b (v +:+ String "|" (datatype +:+ t)))
                    = sample name (String b v) datatype +:+ t).
    { unfold sample. rewrite !app_assoc_str. done. }
    split_and!; try done.
    - cbn. by rewrite Hb, Hv.
    - cbn [fmap list_fmap seq submatch Nat.eqb].
      rewrite (length_consumed datatype t).
      change (String b (v +:+ String "|" (datatype +:+ t)))
        with (String b v +:+ String "|" (datatype +:+ t)).
      rewrite (length_consumed (String b v)).
      rewrite (length_consumed name).
      change (String b v +:+ String "|" (datatype +:+ t))
        with (String b (v +:+ String "|" (datatype +:+ t))).
      rewrite Hline.
      by rewrite (length_consumed (sample name (String b v) datatype) t). }
  cbn [backtrack] in Hm.
  destruct s3 as [|d s4]; [done|].
  destruct (Ascii.eqb d "c") eqn:Hd1.
  { apply Ascii.eqb_eq in Hd1 as ->.
    apply (Hshape "c" s4); [done|set_solver|exact Hm]. }
  destruct (Ascii.eqb d "g") eqn:Hd2.
  { apply Ascii.eqb_eq in Hd2 as ->.
    apply (Hshape "g" s4); [done|set_solver|exact Hm]. }
  destruct (Ascii.eqb d "m") eqn:Hd3; [|done].
  apply Ascii.eqb_eq in Hd3 as ->.
  destruct s4 as [|e s5]; [done|].
  destruct (Ascii.eqb e "s") eqn:He; [|done].
  apply Ascii.eqb_eq in He as ->.
  apply (Hshape "ms" s5); [done|set_solver|exact Hm].
Qed.

Lemma matchHere_complete (name value datatype rest : string) :
  allChars anyCharNotNL name = true →
  value ≠ "" → allChars valueClass value = true →
  datatype ∈ datatypeLetters →
  is_Some (matchHere metricRegex 3 (sample name value datatype +:+ rest)).
Proof.
  intros Hname Hne Hvalue Hd. unfold matchHere, metricRegex, sample. cbn [backtrack].
  rewrite app_assoc_str. apply star_complete; [done|].
  rewrite !app_assoc_str. change (":" +:+ ?t) with (String ":" t). cbn.
  destruct value as [|b v]; [done|]. cbn in Hvalue.
  apply andb_true_iff in Hvalue as [Hb Hv].
  rewrite app_cons, Hb. apply star_complete; [done|].
  change ("|" +:+ ?t) with (String "|" t). cbn.
  unfold datatypeLetters in Hd. rewrite !elem_of_cons, elem_of_nil in Hd.
  destruct Hd as [-> | [-> | [-> | []]]]; cbn; done.
Qed.

Lemma findSubmatch_sound (r : regex) (groups : nat) (s : string) x :
  findSubmatch r groups s = Some x →
  ∃ pre s', s = pre +:+ s' ∧ matchHere r groups s' = Some x.
Proof.
  induction s as [|a s IH]; cbn; intros Hs.
  - destruct (matchHere r groups "") eqn:Hm; [|done]. injection Hs as <-.
    by exists "", "".
  - destruct (matchHere r groups (String a s)) eqn:Hm.
    + injection Hs as <-. by exists "", (String a s).
    + destruct (IH Hs) as (pre & s' & -> & Hs'). by exists (String a pre), s'.
Qed.

Lemma findSubmatch_complete (r : regex) (groups : nat) (pre s' : string) :
  is_Some (matchHere r groups s') → is_Some (findSubmatch r groups (pre +:+ s')).
Proof.
  intros Hs'. induction pre as [|a pre IH].
  - rewrite app_nil_l. destruct s' as [|b s']; cbn; by destruct Hs' as [x ->].
  - rewrite app_cons. cbn. by destruct (matchHere r groups (String a (pre +:+ s'))).
Qed.

Lemma FindAllStringSubmatch_head (r : regex) (groups : nat) (s : string) :
  head (FindAllStringSubmatch r groups s) = fst <$> findSubmatch r groups s.
Proof.
  unfold FindAllStringSubmatch. cbn [findAll].
  by destruct (findSubmatch r groups s) as [[m rest]|].
Qed.

(** Every name ends in a part free of newlines. *)
Lemma newline_free_suffix (name : string) :
  ∃ n1 n2, name = n1 +:+ n2 ∧ allChars anyCharNotNL n2 = true.
Proof.
  induction name as [|a name (n1 & n2 & -> & Hn2)]; [by exists "", ""|].
  destruct n1 as [|b n1].
  - destruct (anyCharNotNL a) eqn:Ha.
    + exists "", (String a n2). split; [done|]. cbn. by rewrite Ha.
    + by exists (String a ""), n2.
  - by exists (String a (String b n1)), n2.
Qed.

Lemma allChars_impl (p q : ascii → bool) (s : string) :
  (∀ c, p c = true → q c = true) → allChars p s = true → allChars q s = true.
Proof.
  intros Hpq. induction s as [|a s IH]; [done|]. cbn.
  rewrite !andb_true_iff. intros [Ha Hs]. auto.
Qed.

Lemma specValueChar_valueClass (c : ascii) : specValueChar c = true → valueClass c = true.
Proof.
  unfold specValueChar, valueClass. rewrite !orb_true_iff. tauto.
Qed.

(** A line that matches the grammar of the specification matches the
    pattern. *)
Lemma matchesGrammar_matchesPattern (line : string) :
  matchesGrammar line → matchesPattern line.
Proof.
  intros (pre & name & value & datatype & post & -> & Hne & Hv & Hd).
  destruct (newline_free_suffix name) as (n1 & n2 & -> & Hn2).
  exists (pre +:+ n1), n2, value, datatype, post. split_and!; try done.
  - unfold sample. by rewrite !app_assoc_str.
  - eapply allChars_impl; [apply specValueChar_valueClass|done].
Qed.

Lemma countChar_app (c : ascii) (s t : string) :
  countChar c (s +:+ t) = (countChar c s + countChar c t)%nat.
Proof.
  induction s as [|a s IH]; [done|]. rewrite app_cons. cbn. rewrite IH. lia.
Qed.

Lemma valueClass_without_bar (value : string) :
  allChars valueClass value = true → countChar "|" value = 0%nat →
  allChars specValueChar value = true.
Proof.
  induction value as [|a value IH]; [done|]. cbn.
  rewrite andb_true_iff. intros [Ha Hvalue] Hcount.
  destruct (Ascii.eqb a "|") eqn:Hbar; [lia|].
  rewrite IH by (done || lia). rewrite andb_true_r.
  unfold valueClass in Ha. unfold specValueChar. rewrite Hbar in Ha.
  by rewrite orb_false_r in Ha.
Qed.

(** With at most one vertical bar in the line, the pattern accepts what
    the grammar of the specification accepts. *)
Lemma matchesPattern_one_bar (line : string) :
  (countChar "|" line ≤ 1)%nat → matchesPattern line → matchesGrammar line.
Proof.
  intros Hbars (pre & name & value & datatype & post & -> & Hname & Hne & Hv & Hd).
  exists pre, name, value, datatype, post. split_and!; try done.
  apply valueClass_without_bar; [done|].
  unfold sample in Hbars. rewrite !countChar_app in Hbars. cbn in Hbars. lia.
Qed.

Section ParserFacts.
Context `{Library}.

(** What [parseDatapoint] returns, from the leftmost match. *)
Lemma parseDatapoint_match (now : Z) (line : string) :
  match findSubmatch metricRegex 3 line with
  | Some (m, rest) =>
      ∃ pre name value datatype,
        line = pre +:+ sample name value datatype +:+ rest
        ∧ allChars anyCharNotNL name = true
        ∧ value ≠ "" ∧ allChars valueClass value = true
        ∧ datatype ∈ datatypeLetters
        ∧ parseDatapoint now line = Datapoint.mk now name (ParseFloat value) datatype
  | None => parseDatapoint now line = Datapoint.zero
  end.
Proof.
  unfold parseDatapoint. cbn zeta.
  pose proof (FindAllStringSubmatch_head metricRegex 3 line) as Hhead.
  destruct (findSubmatch metricRegex 3 line) as [[m rest]|] eqn:Hfind.
  - apply findSubmatch_sound in Hfind as (pre & s' & -> & Hm).
    apply matchHere_sound in Hm as (name & value & datatype & -> & Hname & Hne & Hv & Hd & ->).
    exists pre, name, value, datatype. split_and!; try done.
    destruct (FindAllStringSubmatch metricRegex 3 _) as [|m0 ms]; [done|].
    cbn in Hhead. by injection Hhead as ->.
  - by destruct (FindAllStringSubmatch metricRegex 3 line).
Qed.

(** The parser and the dispatcher, line by line: a line reaches a queue
    exactly when it matches the pattern; the datapoint then carries the
    name, the parsed value text and the type letter of a sample of the
    line, and goes to the queue of its letter; any other line gives the
    empty datapoint and reaches no queue.  With at most one vertical bar
    in the line, matching the pattern is matching the grammar
    [<name>:<value>|<type>] with the value in [[0-9.]+]. *)
Lemma parser_dispatch (now : Z) (line : string) (ch : Channels) :
  (dispatched now line ↔ matchesPattern line)
  ∧ ((countChar "|" line ≤ 1)%nat → (dispatched now line ↔ matchesGrammar line))
  ∧ (dispatched now line →
       ∃ pre name value datatype post,
         line = pre +:+ sample name value datatype +:+ post
         ∧ allChars anyCharNotNL name = true
         ∧ value ≠ "" ∧ allChars valueClass value = true
         ∧ parseDatapoint now line = Datapoint.mk now name (ParseFloat value) datatype
         ∧ processIncomingMessage now line ch
           = let d := Datapoint.mk now name (ParseFloat value) datatype in
             if String.eqb datatype "g" then
               mkChannels (gaugeChannel ch ++ [d]) (counterChannel ch) (timerChannel ch)
             else if String.eqb datatype "c" then
               mkChannels (gaugeChannel ch) (counterChannel ch ++ [d]) (timerChannel ch)
             else
               mkChannels (gaugeChannel ch) (counterChannel ch) (timerChannel ch ++ [d]))
  ∧ (¬ dispatched now line →
       parseDatapoint now line = Datapoint.zero
       ∧ processIncomingMessage now line ch = ch).
Proof.
  assert (Hiff : dispatched now line ↔ matchesPattern line).
  { unfold dispatched. pose proof (parseDatapoint_match now line) as Hp.
    destruct (findSubmatch metricRegex 3 line) as [[m rest]|] eqn:Hfind.
    - destruct Hp as (pre & name & value & datatype & -> & Hname & Hne & Hv & Hd & ->).
      split; [|done]. intros _. by exists pre, name, value, datatype, rest.
    - rewrite Hp. split.
      + unfold datatypeLetters. cbn. rewrite !elem_of_cons, elem_of_nil.
        intros [Hc | [Hc | [Hc | []]]]; discriminate Hc.
      + intros (pre & name & value & datatype & post & -> & Hname & Hne & Hv & Hd).
        destruct (findSubmatch_complete metricRegex 3 pre (sample name value datatype +:+ post))
          as [x Hx]; [by apply matchHere_complete|]. congruence. }
  split_and!.
  - exact Hiff.
  - intros Hbars. rewrite Hiff. split.
    + by apply matchesPattern_one_bar.
    + apply matchesGrammar_matchesPattern.
  - intros Hd. unfold dispatched in Hd.
    pose proof (parseDatapoint_match now line) as Hp.
    destruct (findSubmatch metricRegex 3 line) as [[m rest]|] eqn:Hfind.
    + destruct Hp as (pre & name & value & datatype & -> & Hname & Hne & Hv & Hdt & Heq).
      exists pre, name, value, datatype, rest. split_and!; try done.
      unfold processIncomingMessage. rewrite Heq. cbn [Datapoint.Datatype].
      unfold datatypeLetters in Hdt. rewrite !elem_of_cons, elem_of_nil in Hdt.
      destruct Hdt as [-> | [-> | [-> | []]]]; reflexivity.
    + rewrite Hp in Hd. unfold datatypeLetters in Hd. cbn in Hd.
      rewrite !elem_of_cons, elem_of_nil in Hd.
      destruct Hd as [Hc | [Hc | [Hc | []]]]; discriminate Hc.
  - intros Hnd. unfold dispatched in Hnd.
    assert (Hzero : parseDatapoint now line = Datapoint.zero).
    { pose proof (parseDatapoint_match now line) as Hp.
      destruct (findSubmatch metricRegex 3 line) as [[m rest]|]; [|done].
      destruct Hp as (pre & name & value & datatype & _ & _ & _ & _ & Hdt & Heq).
      exfalso. apply Hnd. by rewrite Heq. }
    split; [done|]. unfold processIncomingMessage. rewrite Hzero. reflexivity.
Qed.
End ParserFacts.
(** ** The gauge engine *)

Lemma processGauges_fold `{Library} (gauges : list Datapoint.t) (out : list Sent) :
  foldl (λ out d, out ++ [(diskAppendChannel, gaugeObservation d)]) out gauges
  = out ++ ((λ d, (diskAppendChannel, gaugeObservation d)) <$> gauges).
Proof.
  revert out. induction gauges as [|d gauges IH]; intros out; cbn.
  - by rewrite app_nil_r.
  - rewrite IH. by rewrite <- app_assoc.
Qed.

Lemma sentTo_disk_only (obs : list AggregateObservation.t) :
  sentTo diskAppendChannel ((λ o, (diskAppendChannel, o)) <$> obs) = obs
  ∧ sentTo redisAppendChannel ((λ o, (diskAppendChannel, o)) <$> obs) = [].
Proof.
  unfold sentTo. induction obs as [|o obs [IH1 IH2]]; [done|].
  rewrite !fmap_cons, !filter_cons. cbn [fst].
  rewrite decide_True by done. rewrite decide_False by done.
  rewrite fmap_cons. cbn [snd]. split; [f_equal; exact IH1 | exact IH2].
Qed.

(** C9: every gauge datapoint gives exactly one observation, sent on the
    historical channel only, with channel [gauges:<name>], payload
    [<ingest_unix_seconds> <value>] and a newline; the observation of a
    datapoint depends on that datapoint alone (the loop keeps no state: the
    output for a queue is the output for its parts, one after the other),
    and the loop reads datapoints only. *)
Theorem processGauges_pass_through `{Library} (gauges more : list Datapoint.t) :
  sentTo diskAppendChannel (processGauges gauges) = gaugeObservation <$> gauges
  ∧ sentTo redisAppendChannel (processGauges gauges) = []
  ∧ length (processGauges gauges) = length gauges
  ∧ (∀ d, AggregateObservation.Name (gaugeObservation d) = "gauges:" +:+ Datapoint.Name d
        ∧ AggregateObservation.Content (gaugeObservation d)
          = FormatInt (Datapoint.Timestamp d) +:+ " "
            +:+ FormatFloat (Datapoint.Value d) +:+ newline)
  ∧ processGauges (gauges ++ more) = processGauges gauges ++ processGauges more.
Proof.
  unfold processGauges. rewrite !processGauges_fold. cbn [app].
  assert (Hsplit : (λ d, (diskAppendChannel, gaugeObservation d)) <$> gauges
                   = (λ o, (diskAppendChannel, o)) <$> (gaugeObservation <$> gauges)).
  { rewrite <- list_fmap_compose. reflexivity. }
  destruct (sentTo_disk_only (gaugeObservation <$> gauges)) as [Hdisk Hredis].
  split_and!.
  - by rewrite Hsplit.
  - by rewrite Hsplit.
  - by rewrite length_fmap.
  - done.
  - by rewrite fmap_app.
Qed.
(** ** The bucket wheels *)

Section WheelFacts.
Context `{Library} {A : Type} `{Accumulator A}.
Implicit Types (w : Wheel A) (bucket m : gmap string A).

Lemma flush_fold i r ts (l : list (string * A)) m out :
  foldl (flushEntry i r ts) (m, out) l
  = (purge l m, out ++ (uncurry (observation i r ts) <$> filter (λ kv, ready kv.2) l)).
Proof.
  revert m out. induction l as [|[k v] l IH]; intros m out.
  - cbn. by rewrite app_nil_r.
  - cbn [foldl]. unfold purge. cbn [foldl]. rewrite filter_cons.
    unfold flushEntry at 2. cbn [fst snd].
    destruct (ready v) eqn:Hv.
    + rewrite decide_True by exact I. rewrite IH. unfold purge.
      rewrite fmap_cons. cbn [uncurry]. by rewrite <- app_assoc.
    + rewrite decide_False by (intros []). rewrite IH. done.
Qed.

Lemma purge_absent l m k : m !! k = None → purge l m !! k = None.
Proof.
  revert m. induction l as [|[k' v] l IH]; intros m Hm; [done|].
  unfold purge. cbn [foldl fst snd]. apply IH.
  destruct (ready v); [|done].
  destruct (decide (k' = k)) as [->|]; [apply lookup_delete_eq|by rewrite lookup_delete_ne].
Qed.

Lemma purge_ready l m k v :
  (k, v) ∈ l → ready v = true → purge l m !! k = None.
Proof.
  revert m. induction l as [|[k' v'] l IH]; intros m Hin Hv.
  - by apply elem_of_nil in Hin.
  - unfold purge. cbn [foldl fst snd].
    apply elem_of_cons in Hin as [Heq|Hin].
    + injection Heq as <- <-. rewrite Hv. apply purge_absent, lookup_delete_eq.
    + by apply IH.
Qed.

Lemma purge_keep l m k :
  (∀ v, (k, v) ∈ l → ready v = false) → purge l m !! k = m !! k.
Proof.
  revert m. induction l as [|[k' v'] l IH]; intros m Hk; [done|].
  unfold purge. cbn [foldl fst snd].
  etrans; [apply IH|].
  - intros v Hin. apply Hk. by right.
  - destruct (ready v') eqn:Hv; [|done].
    destruct (decide (k' = k)) as [->|]; [|by rewrite lookup_delete_ne].
    assert (ready v' = false) by (apply Hk; left). congruence.
Qed.

Lemma purge_map_to_list bucket :
  purge (map_to_list bucket) bucket = filter (λ kv, ¬ ready kv.2) bucket.
Proof.
  apply map_eq. intros k. rewrite map_lookup_filter.
  destruct (bucket !! k) as [v|] eqn:Hk; cbn.
  - destruct (ready v) eqn:Hv.
    + rewrite option_guard_False
        by (intros Hn; apply Hn; exact I).
      cbn.
      eapply purge_ready; [|done]. by apply elem_of_map_to_list.
    + rewrite option_guard_True
        by (intros []).
      cbn.
      rewrite purge_keep; [done|].
      intros v' Hin%elem_of_map_to_list. congruence.
  - by apply purge_absent.
Qed.

(** A flush sends the observations of the ready entries and deletes them. *)
Lemma flushBucket_spec i r ts bucket :
  flushBucket i r ts bucket
  = (filter (λ kv, ¬ ready kv.2) bucket,
     uncurry (observation i r ts) <$> readyEntries bucket).
Proof.
  unfold flushBucket. rewrite flush_fold. by rewrite purge_map_to_list.
Qed.

Lemma hashSlot_range name slots :
  1 ≤ slots → ∃ h, hashSlot name slots = Some h ∧ 0 ≤ h < slots.
Proof.
  intros Hs. unfold hashSlot. rewrite decide_False by lia.
  eexists; split; [done|]. apply Z.rem_bound_pos; lia.
Qed.

Lemma index_in_range {B : Type} (l : list B) (i : Z) :
  0 ≤ i < Z.of_nat (length l) → ∃ x, index l i = Some x ∧ l !! Z.to_nat i = Some x.
Proof.
  intros Hi. unfold index. rewrite decide_True by lia.
  destruct (lookup_lt_is_Some_2 l (Z.to_nat i)) as [x Hx]; [lia|]. eauto.
Qed.

Lemma wrap64_small (z : Z) : - 2 ^ 63 ≤ z < 2 ^ 63 → wrap64 z = z.
Proof.
  intros Hz. unfold wrap64. rewrite Z.mod_small; lia.
Qed.

Lemma advance_mod (current slots : Z) :
  1 ≤ slots < 2 ^ 63 → 0 ≤ current < slots →
  advance current slots = (current + 1) `mod` slots.
Proof.
  intros Hs Hc. unfold advance. rewrite wrap64_small by lia.
  destruct (decide (current + 1 = slots)) as [->|Hne].
  - by rewrite Z.mod_same by lia.
  - rewrite Z.mod_small; lia.
Qed.

(** A datapoint is added to the slot its name hashes to, and to no other. *)
Lemma receive_spec d w :
  wheelOk w →
  ∃ h bucket,
    hashSlot (Datapoint.Name d) (maxSlot w) = Some h ∧ 0 ≤ h < maxSlot w
    ∧ buckets w !! Z.to_nat h = Some bucket
    ∧ receive d w
      = Some (mkWheel (interval w) (currentSlot w) (maxSlot w)
                (<[Z.to_nat h :=
                     <[Datapoint.Name d :=
                         accumulate (bucket !! Datapoint.Name d) (Datapoint.Value d)]> bucket]>
                   (buckets w))).
Proof.
  intros ([Hr1 Hr2] & Hmax & Hcur & Hlen).
  destruct (hashSlot_range (Datapoint.Name d) (maxSlot w)) as (h & Hh & Hrange); [lia|].
  destruct (index_in_range (buckets w) h) as (bucket & Hidx & Hb); [lia|].
  exists h, bucket. split_and!; try done; try lia.
  unfold receive. rewrite Hh. cbn. rewrite Hidx. cbn. done.
Qed.

(** A heartbeat flushes the current slot and moves the pointer on. *)
Lemma tick_spec i t1 t2 w :
  wheelOk w →
  ∃ bucket,
    buckets w !! Z.to_nat (currentSlot w) = Some bucket
    ∧ tick i t1 t2 w
      = Some (mkWheel (interval w) ((currentSlot w + 1) `mod` maxSlot w) (maxSlot w)
                (<[Z.to_nat (currentSlot w) := filter (λ kv, ¬ ready kv.2) bucket]> (buckets w)),
              uncurry (observation i (interval w) (wrap64 (t1 - Z.rem t2 (interval w))))
                <$> readyEntries bucket).
Proof.
  intros ([Hr1 Hr2] & Hmax & Hcur & Hlen).
  destruct (index_in_range (buckets w) (currentSlot w)) as (bucket & Hidx & Hb); [lia|].
  exists bucket. split; [done|].
  unfold tick, alignedTimestamp. rewrite decide_False by lia. cbn.
  rewrite Hidx. cbn. rewrite flushBucket_spec.
  rewrite advance_mod by lia. done.
Qed.

Lemma receive_wheelOk d w w' : wheelOk w → receive d w = Some w' → wheelOk w'.
Proof.
  intros Hok Hrecv. destruct (receive_spec d w Hok) as (h & bucket & _ & _ & _ & Heq).
  rewrite Heq in Hrecv. injection Hrecv as <-.
  destruct Hok as (? & ? & ? & ?).
  split_and!; cbn [interval maxSlot currentSlot buckets]; try done; try lia.
  by rewrite length_insert.
Qed.

Lemma tick_wheelOk i t1 t2 w w' out :
  wheelOk w → tick i t1 t2 w = Some (w', out) → wheelOk w'.
Proof.
  intros Hok Htick. destruct (tick_spec i t1 t2 w Hok) as (bucket & _ & Heq).
  rewrite Heq in Htick. injection Htick as <- <-.
  destruct Hok as ([? ?] & ? & ? & ?).
  split_and!; cbn [interval maxSlot currentSlot buckets]; try done.
  - apply Z.mod_pos_bound; lia.
  - apply Z.mod_pos_bound; lia.
  - by rewrite length_insert.
Qed.

Lemma stepWheel_wheelOk i w e :
  wheelOk w → ∃ w' out, stepWheel i w e = Some (w', out) ∧ wheelOk w'.
Proof.
  intros Hok. destruct e as [d|clock]; cbn.
  - destruct (receive_spec d w Hok) as (h & bucket & _ & _ & _ & Heq).
    rewrite Heq. cbn. eexists _, _. split; [done|].
    by eapply receive_wheelOk.
  - destruct (tick_spec i (clock i).1 (clock i).2 w Hok) as (bucket & _ & Heq).
    eexists _, _. split; [done|]. by eapply tick_wheelOk.
Qed.

Lemma runWheel_wheelOk i w events :
  wheelOk w → ∃ w' outs, runWheel i w events = Some (w', outs) ∧ wheelOk w'
                         ∧ length outs = length events.
Proof.
  revert w. induction events as [|e events IH]; intros w Hok.
  - by exists w, [].
  - destruct (stepWheel_wheelOk i w e Hok) as (w1 & out & Hstep & Hok1).
    destruct (IH w1 Hok1) as (w2 & outs & Hrun & Hok2 & Hlen).
    exists w2, (out :: outs). cbn. rewrite Hstep. cbn. rewrite Hrun. cbn.
    split_and!; [done|done|by rewrite Hlen].
Qed.

(** *** The engine, retention by retention *)

Lemma heartbeat_views j clock (ws : list (Wheel A)) :
  Forall wheelOk ws →
  ∃ views : list (Wheel A * list Sent),
    heartbeat j clock ws = Some (views.*1, concat (views.*2))
    ∧ length views = length ws
    ∧ ∀ i w, ws !! i = Some w →
        ∃ v, views !! i = Some v
             ∧ tick (j + i) (clock (j + i)%nat).1 (clock (j + i)%nat).2 w = Some v.
Proof.
  revert j. induction ws as [|w ws IH]; intros j Hok.
  - exists []. split_and!; [done|done|]. intros i w Hi. done.
  - apply Forall_cons in Hok as [Hw Hws].
    destruct (tick_spec j (clock j).1 (clock j).2 w Hw) as (bucket & _ & Htick).
    destruct (IH (S j) Hws) as (views & Hhb & Hlen & Hviews).
    eexists ((_, _) :: views). split_and!.
    + cbn [heartbeat]. rewrite Htick. cbn. rewrite Hhb. cbn. done.
    + cbn. by rewrite Hlen.
    + intros [|i] w' Hi.
      * injection Hi as <-. eexists. split; [done|].
        by rewrite Nat.add_0_r.
      * destruct (Hviews i w' Hi) as (v & Hv & Ht).
        exists v. split; [done|]. by replace (j + S i)%nat with (S j + i)%nat by lia.
Qed.

Lemma receive_views d (ws : list (Wheel A)) :
  Forall wheelOk ws →
  ∃ ws', mapM (receive d) ws = Some ws'
         ∧ length ws' = length ws
         ∧ ∀ i w, ws !! i = Some w → ∃ w', ws' !! i = Some w' ∧ receive d w = Some w'.
Proof.
  induction ws as [|w ws IH]; intros Hok.
  - exists []. split_and!; [done|done|]. intros i w Hi. done.
  - apply Forall_cons in Hok as [Hw Hws].
    destruct (receive_spec d w Hw) as (h & bucket & _ & _ & _ & Hrecv).
    destruct (IH Hws) as (ws' & HmapM & Hlen & Hviews).
    eexists (_ :: ws'). split_and!.
    + cbn. rewrite Hrecv. cbn. rewrite HmapM. cbn. done.
    + cbn. by rewrite Hlen.
    + intros [|i] w' Hi.
      * injection Hi as <-. eexists. split; done.
      * by apply Hviews.
Qed.

Lemma silent_views {B C : Type} (l : list B) :
  ((λ x, (x, @nil C)) <$> l).*1 = l ∧ concat (((λ x, (x, @nil C)) <$> l).*2) = [].
Proof.
  induction l as [|x l [IH1 IH2]]; [done|].
  rewrite !fmap_cons. cbn [fst snd concat app]. by rewrite IH1, IH2.
Qed.

(** One turn of the loop is one turn of every retention. *)
Lemma step_views (ws : list (Wheel A)) e :
  Forall wheelOk ws →
  ∃ views : list (Wheel A * list Sent),
    step ws e = Some (views.*1, concat (views.*2))
    ∧ length views = length ws
    ∧ ∀ i w, ws !! i = Some w → ∃ v, views !! i = Some v ∧ stepWheel i w e = Some v.
Proof.
  intros Hok. destruct e as [d|clock].
  - destruct (receive_views d ws Hok) as (ws' & HmapM & Hlen & Hviews).
    exists ((λ w', (w', [])) <$> ws'). split_and!.
    + cbn. rewrite HmapM. cbn.
      destruct (silent_views (C:=Sent) ws') as [-> ->]. done.
    + by rewrite length_fmap.
    + intros i w Hi. destruct (Hviews i w Hi) as (w' & Hw' & Hrecv).
      exists (w', []). split.
      * by rewrite list_lookup_fmap, Hw'.
      * cbn. by rewrite Hrecv.
  - destruct (heartbeat_views 0 clock ws Hok) as (views & Hhb & Hlen & Hviews).
    exists views. split_and!; [done|done|]. intros i w Hi.
    destruct (Hviews i w Hi) as (v & Hv & Ht). exists v. split; [done|]. exact Ht.
Qed.

Lemma step_wheelsOk (ws : list (Wheel A)) e ws' out :
  Forall wheelOk ws → step ws e = Some (ws', out) → Forall wheelOk ws'.
Proof.
  intros Hok Hstep. destruct (step_views ws e Hok) as (views & Heq & Hlen & Hviews).
  rewrite Heq in Hstep. injection Hstep as <- <-.
  apply Forall_lookup. intros i w' Hi.
  apply list_lookup_fmap_Some in Hi as ([w1 out1] & -> & Hv).
  destruct (lookup_lt_is_Some_2 ws i) as [w Hw].
  { rewrite <- Hlen. by eapply lookup_lt_Some. }
  destruct (Hviews i w Hw) as (v & Hv' & Hsw).
  rewrite Hv in Hv'. injection Hv' as <-.
  destruct (stepWheel_wheelOk i w e) as (w2 & out2 & Hsw2 & Hok2).
  { by eapply Forall_lookup_1. }
  rewrite Hsw in Hsw2. by injection Hsw2 as -> ->.
Qed.

Lemma merge_cons (outs : list (list Sent)) (rows : list (list (list Sent))) (n : nat) :
  length outs = length rows →
  merge (zip_with cons outs rows) (S n) = concat outs :: merge rows n.
Proof.
  intros Hlen. unfold merge. cbn [seq fmap list_fmap]. f_equal.
  - revert rows Hlen. induction outs as [|o outs IH]; intros [|r rows] Hlen; try done.
    cbn. f_equal. apply IH. by injection Hlen.
  - rewrite <- fmap_S_seq, <- list_fmap_compose. apply list_fmap_ext.
    intros _ k _. cbn. f_equal.
    clear n. revert rows Hlen. induction outs as [|o outs IH]; intros [|r rows] Hlen; try done.
    cbn. f_equal. apply IH. by injection Hlen.
Qed.

Lemma zip_views {B C D : Type} (views1 : list (B * C)) (views2 : list (D * list C)) :
  length views2 = length views1 →
  (zip_with (λ v1 v2, (v2.1, v1.2 :: v2.2)) views1 views2).*1 = views2.*1
  ∧ (zip_with (λ v1 v2, (v2.1, v1.2 :: v2.2)) views1 views2).*2
    = zip_with cons (views1.*2) (views2.*2).
Proof.
  revert views2. induction views1 as [|v1 views1 IH]; intros [|v2 views2] Hlen; try done.
  destruct (IH views2) as [IH1 IH2]; [by injection Hlen|].
  cbn. by rewrite IH1, IH2.
Qed.

(** A run of the engine is a run of every retention: the wheels are the
    wheels of the retentions, and what an event sends is what the
    retentions send at it, in the order of the retentions. *)
Lemma run_views (ws : list (Wheel A)) (events : list Event) :
  Forall wheelOk ws →
  ∃ views : list (Wheel A * list (list Sent)),
    run ws events = Some (views.*1, merge (views.*2) (length events))
    ∧ length views = length ws
    ∧ ∀ i w, ws !! i = Some w → ∃ v, views !! i = Some v ∧ runWheel i w events = Some v.
Proof.
  revert ws. induction events as [|e events IH]; intros ws Hok.
  - exists ((λ w, (w, [])) <$> ws). split_and!.
    + cbn. f_equal. f_equal. symmetry. clear Hok.
      induction ws as [|w ws IHws]; [done|]. rewrite !fmap_cons. cbn. by f_equal.
    + by rewrite length_fmap.
    + intros i w Hi. exists (w, []). split; [|done].
      by rewrite list_lookup_fmap, Hi.
  - destruct (step_views ws e Hok) as (views1 & Hstep & Hlen1 & Hviews1).
    assert (Hok1 : Forall wheelOk (views1.*1)) by (by eapply step_wheelsOk).
    destruct (IH _ Hok1) as (views2 & Hrun & Hlen2 & Hviews2).
    rewrite length_fmap in Hlen2.
    exists (zip_with (λ v1 v2, (v2.1, v1.2 :: v2.2)) views1 views2). split_and!.
    + destruct (zip_views views1 views2 Hlen2) as [-> ->].
      cbn [run length]. rewrite Hstep. cbn [mbind option_bind]. rewrite Hrun.
      cbn [mbind option_bind].
      rewrite merge_cons by (by rewrite !length_fmap). done.
    + rewrite length_zip_with. lia.
    + intros i w Hi. destruct (Hviews1 i w Hi) as ([w1 out1] & Hv1 & Hsw).
      destruct (Hviews2 i w1) as ([w2 outs2] & Hv2 & Hrw).
      { by rewrite list_lookup_fmap, Hv1. }
      exists (w2, out1 :: outs2). split.
      * rewrite lookup_zip_with, Hv1. cbn. rewrite Hv2. done.
      * cbn [runWheel]. rewrite Hsw. cbn. rewrite Hrw. done.
Qed.

Lemma run_wheelsOk (ws ws' : list (Wheel A)) events outs :
  Forall wheelOk ws → run ws events = Some (ws', outs) → Forall wheelOk ws'.
Proof.
  revert ws outs. induction events as [|e events IH]; intros ws outs Hok Hrun.
  - by injection Hrun as <- <-.
  - cbn [run] in Hrun.
    destruct (step ws e) as [[ws1 out]|] eqn:Hstep; [|done]. cbn in Hrun.
    destruct (run ws1 events) as [[ws2 outs2]|] eqn:Hrun2; [|done]. cbn in Hrun.
    injection Hrun as <- <-. eapply IH; [|done]. by eapply step_wheelsOk.
Qed.

(** The wheels at the start. *)
Lemma newWheels_spec (retentions : list Z) :
  Forall validRetention retentions →
  ∃ ws : list (Wheel A),
    newWheels retentions = Some ws
    ∧ Forall wheelOk ws
    ∧ length ws = length retentions
    ∧ ∀ i r, retentions !! i = Some r →
        ws !! i = Some (mkWheel r 0 r (replicate (Z.to_nat r) ∅)).
Proof.
  induction retentions as [|r retentions IH]; intros Hvalid.
  - exists []. split_and!; try done.
  - apply Forall_cons in Hvalid as [Hr Hvalid].
    destruct (IH Hvalid) as (ws & Hnew & Hok & Hlen & Hws).
    exists (mkWheel r 0 r (replicate (Z.to_nat r) ∅) :: ws).
    unfold newWheels in *. destruct Hr as [Hr1 Hr2]. split_and!.
    + assert (Hr : newWheel (A:=A) r = Some (mkWheel r 0 r (replicate (Z.to_nat r) ∅))).
      { unfold newWheel, heartbeatInterval. rewrite Z.quot_1_r.
        by rewrite decide_True by lia. }
      change (mapM newWheel (r :: retentions))
        with (y ← newWheel (A:=A) r; k ← mapM newWheel retentions; mret (y :: k)).
      rewrite Hr. cbn [mbind option_bind]. rewrite Hnew. done.
    + apply Forall_cons. split; [|done].
      split_and!; cbn; try done; try lia. by rewrite length_replicate.
    + cbn. by rewrite Hlen.
    + intros [|i] r' Hi; [by injection Hi as <-|]. by apply Hws.
Qed.

Lemma Reachable_wheelsOk (retentions : list Z) (ws : list (Wheel A)) :
  Forall validRetention retentions → Reachable retentions ws → Forall wheelOk ws.
Proof.
  intros Hvalid (events & outs & Hrun). unfold engine in Hrun.
  destruct (newWheels_spec retentions Hvalid) as (ws0 & Hnew & Hok & _).
  rewrite Hnew in Hrun. cbn in Hrun. by eapply run_wheelsOk.
Qed.

(** *** The slot pointer *)

Lemma ticks_app (events window : list Event) :
  ticks (events ++ window) = (ticks events + ticks window)%nat.
Proof.
  induction events as [|[d|clock] events IH]; cbn; [done|done|by rewrite IH].
Qed.

Lemma runWheel_pointer i w events w' outs :
  wheelOk w → runWheel i w events = Some (w', outs) →
  currentSlot w' = (currentSlot w + Z.of_nat (ticks events)) `mod` maxSlot w
  ∧ maxSlot w' = maxSlot w.
Proof.
  revert w outs. induction events as [|e events IH]; intros w outs Hok Hrun.
  - injection Hrun as <- <-. destruct Hok as (? & ? & ? & ?).
    cbn. rewrite Z.add_0_r, Z.mod_small by lia. done.
  - cbn [runWheel] in Hrun.
    destruct (stepWheel i w e) as [[w1 out]|] eqn:Hstep; [|done]. cbn in Hrun.
    destruct (runWheel i w1 events) as [[w2 outs2]|] eqn:Hrun2; [|done]. cbn in Hrun.
    injection Hrun as <- <-.
    destruct (stepWheel_wheelOk i w e Hok) as (w1' & out' & Hstep' & Hok1).
    rewrite Hstep in Hstep'. injection Hstep' as <- <-.
    destruct (IH w1 outs2 Hok1 Hrun2) as [Hcur Hmax].
    destruct e as [d|clock]; cbn [stepWheel] in Hstep.
    + destruct (receive_spec d w Hok) as (h & bucket & _ & _ & _ & Heq).
      rewrite Heq in Hstep. cbn in Hstep. injection Hstep as <- <-.
      cbn in Hcur, Hmax. done.
    + destruct (tick_spec i (clock i).1 (clock i).2 w Hok) as (bucket & _ & Heq).
      rewrite Heq in Hstep. injection Hstep as <- <-.
      cbn [currentSlot maxSlot] in Hcur, Hmax. split; [|done].
      rewrite Hcur. cbn [ticks]. rewrite Zplus_mod_idemp_l. f_equal. lia.
Qed.

Lemma slotAfter_ticks (retentions : list Z) (i : nat) (r : Z) (events : list Event) :
  Forall validRetention retentions → retentions !! i = Some r →
  slotAfter (A:=A) retentions i events = Some (Z.of_nat (ticks events) `mod` r).
Proof.
  intros Hvalid Hi. unfold slotAfter, engine.
  destruct (newWheels_spec retentions Hvalid) as (ws0 & Hnew & Hok & Hlen & Hws0).
  rewrite Hnew. cbn [mbind option_bind].
  destruct (run_views ws0 events Hok) as (views & Hrun & Hlenv & Hviews).
  rewrite Hrun. cbn [mbind option_bind].
  destruct (Hviews i _ (Hws0 i r Hi)) as ([w' outs] & Hv & Hrw).
  rewrite list_lookup_fmap, Hv. cbn.
  apply runWheel_pointer in Hrw as [Hcur _].
  - cbn in Hcur. by rewrite Hcur.
  - by eapply Forall_lookup_1, Hws0.
Qed.

Lemma slotAfter_cycle (retentions : list Z) (i : nat) (r : Z) :
  Forall validRetention retentions → retentions !! i = Some r →
  SlotCycle (slotAfter (A:=A) retentions i) r.
Proof.
  intros Hvalid Hi.
  assert (Hr : 1 ≤ r < 2 ^ 63) by (by eapply (Forall_lookup_1 validRetention)).
  pose proof (slotAfter_ticks retentions i r) as Hslot.
  split_and!.
  - rewrite Hslot by done. cbn. by rewrite Z.mod_0_l by lia.
  - intros events. eexists. split; [by apply Hslot|]. split_and!.
    + apply Z.mod_pos_bound; lia.
    + apply Z.mod_pos_bound; lia.
    + intros clock. rewrite Hslot by done. rewrite ticks_app. cbn [ticks].
      rewrite Zplus_mod_idemp_l. do 2 f_equal. lia.
    + intros d. rewrite Hslot by done. rewrite ticks_app. cbn [ticks].
      do 2 f_equal. lia.
  - intros events window Hk. rewrite !Hslot by done. rewrite ticks_app.
    f_equal. rewrite Nat2Z.inj_add, Hk.
    rewrite <- Zplus_mod_idemp_r, Z.mod_same, Z.add_0_r by lia. done.
  - intros events window Hk. rewrite !Hslot by done. rewrite ticks_app.
    intros Heq. injection Heq as Heq. rewrite Nat2Z.inj_add in Heq.
    set (n := Z.of_nat (ticks events)) in *. set (k := Z.of_nat (ticks window)) in *.
    assert (Hdiff : (n + k - n) `mod` r = 0).
    { rewrite Zminus_mod, Heq, Z.sub_diag. by rewrite Z.mod_0_l by lia. }
    replace (n + k - n) with k in Hdiff by lia.
    rewrite Z.mod_small in Hdiff; lia.
  - intros events s Hs.
    exists ((s - Z.of_nat (ticks events)) `mod` r). split.
    + apply Z.mod_pos_bound; lia.
    + intros window Hk. rewrite Hslot by done. rewrite ticks_app, Nat2Z.inj_add, Hk.
      rewrite Zplus_mod_idemp_r. f_equal.
      replace (Z.of_nat (ticks events) + (s - Z.of_nat (ticks events))) with s by lia.
      apply Z.mod_small. lia.
Qed.
End WheelFacts.

(** C6: for the counter engine and for the timer engine, and for every
    retention, the current-slot pointer starts at 0, in [0, slots); each
    heartbeat moves it by exactly one, modulo the number of slots (a
    datapoint leaves it where it is); it is back at its value after exactly
    [slots] heartbeats and at another value after fewer, and every slot is
    reached within fewer than [slots] heartbeats: every slot is visited
    once before any is visited again. *)
Theorem slot_cycling `{Library} (retentions : list Z) (i : nat) (r : Z) :
  Forall validRetention retentions → retentions !! i = Some r →
  SlotCycle (slotAfter (A:=float) retentions i) r
  ∧ SlotCycle (slotAfter (A:=list float) retentions i) r.
Proof.
  intros Hvalid Hi. split; by apply slotAfter_cycle.
Qed.

(** ** The counter engine *)

Lemma float_le0_not_gt0 (v : float) :
  PrimFloat.leb v 0%float = true → PrimFloat.ltb 0%float v = false.
Proof.
  rewrite FloatAxioms.ltb_spec, FloatAxioms.leb_spec.
  change (Prim2SF 0%float) with (S754_zero false).
  destruct (Prim2SF v) as [s|s| |s m e]; try destruct s; cbn; congruence.
Qed.

Lemma alignedTimestamp_floor (now r : Z) :
  0 ≤ now < 2 ^ 63 → 1 ≤ r →
  wrap64 (now - Z.rem now r) = now `div` r * r.
Proof.
  intros Hnow Hr. rewrite Z.rem_mod_nonneg by lia.
  assert (Hdm : now = r * (now `div` r) + now `mod` r) by (apply Z.div_mod; lia).
  assert (Hm : 0 ≤ now `mod` r < r) by (apply Z.mod_pos_bound; lia).
  assert (Hq : 0 ≤ now `div` r) by (apply Z.div_pos; lia).
  assert (Hp : 0 ≤ r * (now `div` r)) by (apply Z.mul_nonneg_nonneg; lia).
  rewrite wrap64_small by lia. lia.
Qed.

Section Channels.
Context `{Library} {A : Type} `{Accumulator A}.

Lemma observation_channel i r ts key (value : A) :
  AggregateObservation.Name (observation i r ts key value).2 = channel i r key.
Proof. unfold observation, channel. by destruct (decide (i = 0%nat)). Qed.

Lemma channel_inj i r key1 key2 : channel i r key1 = channel i r key2 → key1 = key2.
Proof.
  unfold channel. destruct (decide (i = 0%nat)); intros Heq.
  - by apply (inj (String.app family)) in Heq.
  - apply (inj (String.app family)) in Heq.
    rewrite <- !(app_assoc_str _ ":" (FormatInt r)) in Heq.
    apply app_inj_r in Heq. by apply app_inj_r in Heq.
Qed.

(** What a flush sends names no key outside the ready entries. *)
Lemma flushed_channel i r ts (bucket : gmap string A) key (x : Sent) :
  x ∈ uncurry (observation i r ts) <$> readyEntries bucket →
  AggregateObservation.Name x.2 = channel i r key →
  ∃ value, bucket !! key = Some value ∧ ready value = true.
Proof.
  intros Hx Hname. apply list_elem_of_fmap in Hx as ([key' value] & -> & Hin).
  cbn [uncurry] in Hname. rewrite observation_channel in Hname.
  apply channel_inj in Hname as ->.
  apply list_elem_of_filter in Hin as [Hready Hin]. cbn in Hready.
  apply elem_of_map_to_list in Hin. exists value. split; [done|].
  by apply Is_true_true.
Qed.
End Channels.

(** C2: on a heartbeat, for every retention [i], the counter engine sends
    one observation for each (name, sum) of the bucket of the current slot
    with sum > 0, and none for a pair with sum <= 0.  Its timestamp is
    floor(now / interval) * interval.  For [i = 0] it goes to the recent
    sink with channel [counters:<name>] and payload [<ts><X><sum>];
    otherwise to the historical sink with channel
    [counters:<name>:<interval>] and payload [<ts> <sum>] and a newline.
    [now] is the reading of the clock during the heartbeat, a Unix time. *)
Theorem counters_heartbeat `{Library} (ws : list (Wheel float)) (clock : nat → Z * Z) (now : Z) :
  Forall wheelOk ws → 0 ≤ now < 2 ^ 63 → (∀ i, clock i = (now, now)) →
  ∃ views : list (Wheel float * list Sent),
    step ws (Heartbeat clock) = Some (views.*1, concat (views.*2))
    ∧ length views = length ws
    ∧ ∀ i w, ws !! i = Some w →
        ∃ bucket w' out,
          index (buckets w) (currentSlot w) = Some bucket
          ∧ views !! i = Some (w', out)
          ∧ (let ts := now `div` interval w * interval w in
             out ≡ₚ
               (λ '(name, sum),
                  if decide (i = 0%nat) then
                    (redisAppendChannel,
                     AggregateObservation.mk ("counters:" +:+ name)
                       (FormatInt ts +:+ "<X>" +:+ FormatFloat sum) ts)
                  else
                    (diskAppendChannel,
                     AggregateObservation.mk
                       ("counters:" +:+ name +:+ ":" +:+ FormatInt (interval w))
                       (FormatInt ts +:+ " " +:+ FormatFloat sum +:+ newline) ts))
               <$> filter (λ kv, PrimFloat.ltb 0%float kv.2) (map_to_list bucket))
          ∧ (∀ name sum, bucket !! name = Some sum → PrimFloat.leb sum 0%float = true →
               ∀ x, x ∈ out →
                 AggregateObservation.Name x.2 ≠ channel (A:=float) i (interval w) name).
Proof.
  intros Hok Hnow Hclock.
  destruct (step_views ws (Heartbeat clock) Hok) as (views & Hstep & Hlen & Hviews).
  exists views. split_and!; [done|done|].
  intros i w Hi. destruct (Hviews i w Hi) as ([w' out] & Hv & Hsw).
  assert (Hw : wheelOk w) by (by eapply Forall_lookup_1).
  cbn [stepWheel] in Hsw. rewrite Hclock in Hsw. cbn [fst snd] in Hsw.
  destruct (tick_spec i now now w Hw) as (bucket & Hb & Htick).
  rewrite Htick in Hsw. injection Hsw as <- <-.
  destruct Hw as ([Hr1 Hr2] & Hmax & Hcur & Hlenb).
  rewrite alignedTimestamp_floor in Hv by lia.
  eexists bucket, _, _. split_and!.
  - unfold index. by rewrite decide_True by lia.
  - done.
  - cbn zeta.
    match goal with |- ?l ≡ₚ ?r => assert (l = r) as ->; [|done] end.
    apply list_fmap_ext. intros _ [name sum] _. cbn [uncurry].
    unfold observation. by destruct (decide (i = 0%nat)).
  - intros name sum Hsum Hle x Hx Hname.
    destruct (flushed_channel _ _ _ _ _ _ Hx Hname) as (value & Hvalue & Hready).
    rewrite Hsum in Hvalue. injection Hvalue as <-.
    cbn in Hready. apply float_le0_not_gt0 in Hle. congruence.
Qed.
(** *** What the wheel holds *)

Section Holdings.
Context `{Library} {A : Type} `{Accumulator A}.
Implicit Types (w : Wheel A) (bucket : gmap string A).

Lemma receive_bucket d w w' (j : nat) :
  wheelOk w → receive d w = Some w' →
  ∃ h bucket,
    hashSlot (Datapoint.Name d) (maxSlot w) = Some (Z.of_nat h)
    ∧ buckets w !! h = Some bucket
    ∧ maxSlot w' = maxSlot w
    ∧ buckets w' !! j
      = if decide (j = h)
        then Some (<[Datapoint.Name d :=
                       accumulate (bucket !! Datapoint.Name d) (Datapoint.Value d)]> bucket)
        else buckets w !! j.
Proof.
  intros Hok Hrecv.
  destruct (receive_spec d w Hok) as (h & bucket & Hh & Hrange & Hb & Heq).
  rewrite Heq in Hrecv. injection Hrecv as <-.
  exists (Z.to_nat h), bucket. rewrite Z2Nat.id by lia. split_and!; try done.
  cbn [buckets]. destruct (decide (j = Z.to_nat h)) as [->|Hne].
  - apply list_lookup_insert_eq. by eapply lookup_lt_Some.
  - by apply list_lookup_insert_ne.
Qed.

Lemma tick_bucket i t1 t2 w w' out (j : nat) :
  wheelOk w → tick i t1 t2 w = Some (w', out) →
  ∃ bucket,
    buckets w !! Z.to_nat (currentSlot w) = Some bucket
    ∧ maxSlot w' = maxSlot w
    ∧ currentSlot w' = (currentSlot w + 1) `mod` maxSlot w
    ∧ out = uncurry (observation i (interval w) (wrap64 (t1 - Z.rem t2 (interval w))))
              <$> readyEntries bucket
    ∧ buckets w' !! j
      = if decide (j = Z.to_nat (currentSlot w))
        then Some (filter (λ kv, ¬ ready kv.2) bucket)
        else buckets w !! j.
Proof.
  intros Hok Htick. destruct (tick_spec i t1 t2 w Hok) as (bucket & Hb & Heq).
  rewrite Heq in Htick. injection Htick as <- <-.
  exists bucket. split_and!; try done.
  cbn [buckets]. destruct (decide (j = Z.to_nat (currentSlot w))) as [->|Hne].
  - apply list_lookup_insert_eq. by eapply lookup_lt_Some.
  - by apply list_lookup_insert_ne.
Qed.

Lemma filter_unready_lookup bucket name :
  filter (λ kv, ¬ ready kv.2) bucket !! name
  = match bucket !! name with
    | Some value => if ready value then None else Some value
    | None => None
    end.
Proof.
  rewrite map_lookup_filter. destruct (bucket !! name) as [value|]; [|done].
  cbn. destruct (ready value).
  - by rewrite option_guard_False by (intros Hn; apply Hn; exact I).
  - by rewrite option_guard_True by (intros []).
Qed.

(** Names stay in the slot they hash to. *)
Lemma stepWheel_keysHashed i w e w' out :
  wheelOk w → keysHashed w → stepWheel i w e = Some (w', out) → keysHashed w'.
Proof.
  intros Hok Hkeys Hstep j bucket' name Hb' Hname.
  destruct e as [d|clock]; cbn [stepWheel] in Hstep.
  - destruct (receive d w) as [w1|] eqn:Hrecv; [|done]. injection Hstep as <- <-.
    destruct (receive_bucket d w w1 j Hok Hrecv) as (h & bucket & Hh & Hb & Hmax & Hj).
    rewrite Hmax. rewrite Hb' in Hj.
    destruct (decide (j = h)) as [->|Hne].
    + injection Hj as ->.
      destruct (decide (name = Datapoint.Name d)) as [->|Hnn]; [done|].
      rewrite lookup_insert_ne in Hname by done. by eapply (Hkeys h bucket).
    + by eapply (Hkeys j bucket').
  - destruct (tick_bucket i _ _ w w' out j Hok Hstep) as (bucket & Hb & Hmax & _ & _ & Hj).
    rewrite Hmax. rewrite Hb' in Hj.
    destruct (decide (j = Z.to_nat (currentSlot w))) as [->|Hne].
    + injection Hj as ->. eapply (Hkeys _ bucket); [done|].
      rewrite filter_unready_lookup in Hname.
      destruct (bucket !! name); [done|by destruct Hname].
    + by eapply (Hkeys j bucket').
Qed.

(** When [accumulate] always gives a ready accumulator, the wheel holds
    ready accumulators only. *)
Lemma stepWheel_allReady i w e w' out :
  (∀ old v, ready (accumulate old v) = true) →
  wheelOk w → allReady w → stepWheel i w e = Some (w', out) → allReady w'.
Proof.
  intros Hacc Hok Hall Hstep j bucket' name value Hb' Hvalue.
  destruct e as [d|clock]; cbn [stepWheel] in Hstep.
  - destruct (receive d w) as [w1|] eqn:Hrecv; [|done]. injection Hstep as <- <-.
    destruct (receive_bucket d w w1 j Hok Hrecv) as (h & bucket & Hh & Hb & Hmax & Hj).
    rewrite Hb' in Hj. destruct (decide (j = h)) as [->|Hne].
    + injection Hj as ->.
      destruct (decide (name = Datapoint.Name d)) as [->|Hnn].
      * rewrite lookup_insert_eq in Hvalue. injection Hvalue as <-. apply Hacc.
      * rewrite lookup_insert_ne in Hvalue by done. by eapply (Hall h bucket).
    + by eapply (Hall j bucket').
  - destruct (tick_bucket i _ _ w w' out j Hok Hstep) as (bucket & Hb & Hmax & _ & _ & Hj).
    rewrite Hb' in Hj. destruct (decide (j = Z.to_nat (currentSlot w))) as [->|Hne].
    + injection Hj as ->. rewrite filter_unready_lookup in Hvalue.
      destruct (bucket !! name) as [v|] eqn:Hv; [|done].
      destruct (ready v) eqn:Hr; [done|]. injection Hvalue as <-.
      by erewrite (Hall _ bucket) in Hr.
    + by eapply (Hall j bucket').
Qed.

Lemma runWheel_invariants i w events w' outs :
  wheelOk w → keysHashed w → runWheel i w events = Some (w', outs) →
  wheelOk w' ∧ keysHashed w'
  ∧ ((∀ old v, ready (accumulate old v) = true) → allReady w → allReady w').
Proof.
  revert w outs. induction events as [|e events IH]; intros w outs Hok Hkeys Hrun.
  - injection Hrun as <- <-. done.
  - cbn [runWheel] in Hrun.
    destruct (stepWheel i w e) as [[w1 out]|] eqn:Hstep; [|done]. cbn in Hrun.
    destruct (runWheel i w1 events) as [[w2 outs2]|] eqn:Hrun2; [|done]. cbn in Hrun.
    injection Hrun as <- <-.
    destruct (stepWheel_wheelOk i w e Hok) as (w1' & out' & Hstep' & Hok1).
    rewrite Hstep in Hstep'. injection Hstep' as <- <-.
    destruct (IH w1 outs2 Hok1) as (Hok2 & Hkeys2 & Hall2); [|done|].
    { exact (stepWheel_keysHashed i w e w1 out Hok Hkeys Hstep). }
    split_and!; [done|done|]. intros Hacc Hall. apply Hall2; [done|].
    exact (stepWheel_allReady i w e w1 out Hacc Hok Hall Hstep).
Qed.

Lemma emptyWheel_invariants (r : Z) :
  keysHashed (mkWheel (A:=A) r 0 r (replicate (Z.to_nat r) ∅))
  ∧ allReady (mkWheel (A:=A) r 0 r (replicate (Z.to_nat r) ∅)).
Proof.
  split.
  - intros j bucket name Hb Hname. cbn in Hb.
    apply lookup_replicate in Hb as [-> _]. rewrite lookup_empty in Hname.
    by destruct Hname.
  - intros j bucket name value Hb Hvalue. cbn in Hb.
    apply lookup_replicate in Hb as [-> _]. by rewrite lookup_empty in Hvalue.
Qed.

(** Every wheel the engine reaches has the three invariants. *)
Lemma Reachable_invariants (retentions : list Z) (ws : list (Wheel A)) :
  Forall validRetention retentions → Reachable retentions ws →
  length ws = length retentions
  ∧ ∀ i w, ws !! i = Some w →
      wheelOk w ∧ keysHashed w ∧ retentions !! i = Some (interval w)
      ∧ ((∀ old v, ready (accumulate old v) = true) → allReady w).
Proof.
  intros Hvalid (events & outs & Hrun). unfold engine in Hrun.
  destruct (newWheels_spec (A:=A) retentions Hvalid) as (ws0 & Hnew & Hok & Hlen & Hws0).
  rewrite Hnew in Hrun. cbn in Hrun.
  destruct (run_views ws0 events Hok) as (views & Hrun' & Hlenv & Hviews).
  rewrite Hrun' in Hrun. injection Hrun as <- <-.
  split; [by rewrite length_fmap, Hlenv|].
  intros i w Hi. apply list_lookup_fmap_Some in Hi as ([w1 outs1] & -> & Hv).
  destruct (lookup_lt_is_Some_2 retentions i) as [r Hr].
  { rewrite <- Hlen, <- Hlenv. by eapply lookup_lt_Some. }
  destruct (Hviews i _ (Hws0 i r Hr)) as (v & Hv' & Hrw).
  rewrite Hv in Hv'. injection Hv' as <-.
  destruct (emptyWheel_invariants r) as [Hkeys0 Hall0].
  assert (Hok0 : wheelOk (mkWheel (A:=A) r 0 r (replicate (Z.to_nat r) ∅))).
  { by eapply Forall_lookup_1, Hws0. }
  destruct (runWheel_invariants i _ events w1 outs1 Hok0 Hkeys0 Hrw) as (Hok1 & Hkeys1 & Hall1).
  cbn [fst]. split_and!; [done|done| |by auto].
  assert (Hint : ∀ evs w0 w2 o, runWheel (A:=A) i w0 evs = Some (w2, o) → wheelOk w0 →
                   interval w2 = interval w0).
  { clear. induction evs as [|e evs IH]; intros w0 w2 o Hrw Hok0.
    - by injection Hrw as <- <-.
    - cbn [runWheel] in Hrw.
      destruct (stepWheel i w0 e) as [[wa oa]|] eqn:Hs; [|done]. cbn in Hrw.
      destruct (runWheel i wa evs) as [[wb ob]|] eqn:Hr; [|done]. cbn in Hrw.
      injection Hrw as <- <-.
      destruct (stepWheel_wheelOk i w0 e Hok0) as (wa' & oa' & Hs' & Hoka).
      rewrite Hs in Hs'. injection Hs' as <- <-.
      rewrite (IH _ _ _ Hr Hoka).
      destruct e as [d|clock]; cbn [stepWheel] in Hs.
      + destruct (receive_spec d w0 Hok0) as (? & ? & _ & _ & _ & Heq).
        rewrite Heq in Hs. by injection Hs as <- <-.
      + destruct (tick_spec i (clock i).1 (clock i).2 w0 Hok0) as (? & _ & Heq).
        rewrite Heq in Hs. by injection Hs as <- <-. }
  rewrite (Hint _ _ _ _ Hrw Hok0). done.
Qed.
End Holdings.
(** *** The slot a heartbeat leaves *)

Section Vacated.
Context `{Library} {A : Type} `{Accumulator A}.
Implicit Types (w : Wheel A) (bucket : gmap string A).

(** After a heartbeat the slot that was current holds what the flush did
    not emit, and the pointer has moved on. *)
Lemma heartbeat_vacated (ws : list (Wheel A)) (clock : nat → Z * Z) :
  Forall wheelOk ws →
  ∃ views : list (Wheel A * list Sent),
    step ws (Heartbeat clock) = Some (views.*1, concat (views.*2))
    ∧ length views = length ws
    ∧ ∀ i w, ws !! i = Some w →
        ∃ w' out bucket,
          views !! i = Some (w', out)
          ∧ currentSlot w' = (currentSlot w + 1) `mod` maxSlot w
          ∧ index (buckets w) (currentSlot w) = Some bucket
          ∧ index (buckets w') (currentSlot w) = Some (filter (λ kv, ¬ ready kv.2) bucket)
          ∧ out = uncurry (observation i (interval w)
                             (wrap64 ((clock i).1 - Z.rem (clock i).2 (interval w))))
                    <$> readyEntries bucket.
Proof.
  intros Hok.
  destruct (step_views ws (Heartbeat clock) Hok) as (views & Hstep & Hlen & Hviews).
  exists views. split_and!; [done|done|].
  intros i w Hi. destruct (Hviews i w Hi) as ([w' out] & Hv & Hsw).
  assert (Hw : wheelOk w) by (by eapply Forall_lookup_1).
  cbn [stepWheel] in Hsw.
  destruct (tick_bucket i _ _ w w' out (Z.to_nat (currentSlot w)) Hw Hsw)
    as (bucket & Hb & Hmax & Hcur & Hout & Hj).
  rewrite decide_True in Hj by done.
  destruct Hw as (_ & _ & Hrange & _).
  exists w', out, bucket. split_and!; try done.
  - unfold index. by rewrite decide_True by lia.
  - unfold index. by rewrite decide_True by lia.
Qed.

Lemma unready_empty bucket :
  (∀ name value, bucket !! name = Some value → ready value = true) →
  filter (λ kv, ¬ ready kv.2) bucket = ∅.
Proof.
  intros Hall. apply map_empty. intros name. rewrite filter_unready_lookup.
  destruct (bucket !! name) as [value|] eqn:Hv; [|done].
  by rewrite (Hall name value).
Qed.
End Vacated.

(** C4, as the code has it: after the heartbeat has flushed a slot and
    moved the pointer on, the slot left behind holds no entry that the
    flush emits.  In a timer wheel every sample list is non-empty, so the
    bucket is empty; in a counter wheel the entries whose sum is > 0 are
    gone, and an entry whose sum is not > 0 stays as it was. *)
Theorem heartbeat_clears_flushed_entries `{Library} (retentions : list Z) (clock : nat → Z * Z) :
  Forall validRetention retentions →
  (∀ ws : list (Wheel float), Reachable retentions ws →
     ∃ views : list (Wheel float * list Sent),
       step ws (Heartbeat clock) = Some (views.*1, concat (views.*2))
       ∧ ∀ i w, ws !! i = Some w →
           ∃ w' out bucket bucket',
             views !! i = Some (w', out)
             ∧ currentSlot w' = (currentSlot w + 1) `mod` maxSlot w
             ∧ index (buckets w) (currentSlot w) = Some bucket
             ∧ index (buckets w') (currentSlot w) = Some bucket'
             ∧ ∀ name,
                 bucket' !! name
                 = match bucket !! name with
                   | Some sum => if PrimFloat.ltb 0%float sum then None else Some sum
                   | None => None
                   end)
  ∧ (∀ ws : list (Wheel (list float)), Reachable retentions ws →
       ∃ views : list (Wheel (list float) * list Sent),
         step ws (Heartbeat clock) = Some (views.*1, concat (views.*2))
         ∧ ∀ i w, ws !! i = Some w →
             ∃ w' out,
               views !! i = Some (w', out)
               ∧ currentSlot w' = (currentSlot w + 1) `mod` maxSlot w
               ∧ index (buckets w') (currentSlot w) = Some ∅).
Proof.
  intros Hvalid. split.
  - intros ws Hreach.
    destruct (heartbeat_vacated ws clock) as (views & Hstep & _ & Hviews).
    { by eapply Reachable_wheelsOk. }
    exists views. split; [done|]. intros i w Hi.
    destruct (Hviews i w Hi) as (w' & out & bucket & Hv & Hcur & Hb & Hb' & _).
    exists w', out, bucket, (filter (λ kv, ¬ ready kv.2) bucket).
    split_and!; try done. intros name. exact (filter_unready_lookup bucket name).
  - intros ws Hreach.
    destruct (heartbeat_vacated ws clock) as (views & Hstep & _ & Hviews).
    { by eapply Reachable_wheelsOk. }
    exists views. split; [done|]. intros i w Hi.
    destruct (Hviews i w Hi) as (w' & out & bucket & Hv & Hcur & Hb & Hb' & _).
    exists w', out. split_and!; try done.
    rewrite Hb'. f_equal. apply unready_empty.
    destruct (Reachable_invariants retentions ws Hvalid Hreach) as [_ Hinv].
    destruct (Hinv i w Hi) as (Hok & _ & _ & Hall).
    assert (Hall' : allReady w).
    { apply Hall. intros old v. cbn. apply bool_decide_eq_true.
      rewrite length_app. cbn. lia. }
    intros name value Hvalue.
    unfold index in Hb. destruct (decide (0 ≤ currentSlot w)); [|done].
    by eapply (Hall' _ bucket).
Qed.
(** *** Runs of one retention *)

Section Runs.
Context `{Library} {A : Type} `{Accumulator A}.
Implicit Types (w : Wheel A) (bucket : gmap string A).

Lemma runWheel_cons i w e events w'' outs :
  runWheel i w (e :: events) = Some (w'', outs) →
  ∃ w' out outs',
    stepWheel i w e = Some (w', out)
    ∧ runWheel i w' events = Some (w'', outs')
    ∧ outs = out :: outs'.
Proof.
  intros Hrun. cbn [runWheel] in Hrun.
  destruct (stepWheel i w e) as [[w1 out]|] eqn:Hstep; [|done]. cbn in Hrun.
  destruct (runWheel i w1 events) as [[w2 outs2]|] eqn:Hrun2; [|done]. cbn in Hrun.
  injection Hrun as <- <-. by exists w1, out, outs2.
Qed.

(** An accumulator that a flush does not emit outlives every heartbeat. *)
Lemma heartbeats_keep_unready i w clock (n : nat) w' outs (j : nat) bucket name value :
  wheelOk w → runWheel i w (replicate n (Heartbeat clock)) = Some (w', outs) →
  buckets w !! j = Some bucket → bucket !! name = Some value → ready value = false →
  ∃ bucket', buckets w' !! j = Some bucket' ∧ bucket' !! name = Some value.
Proof.
  revert w outs bucket. induction n as [|n IH]; intros w outs bucket Hok Hrun Hb Hname Hr.
  - injection Hrun as <- <-. eauto.
  - cbn [replicate] in Hrun.
    apply runWheel_cons in Hrun as (w1 & out & outs' & Hstep & Hrun & ->).
    cbn [stepWheel] in Hstep.
    destruct (tick_bucket i _ _ w w1 out j Hok Hstep) as (b0 & Hb0 & _ & _ & _ & Hj).
    assert (Hok1 : wheelOk w1) by (by eapply tick_wheelOk).
    destruct (decide (j = Z.to_nat (currentSlot w))) as [->|Hne].
    + rewrite Hb in Hb0. injection Hb0 as <-.
      eapply (IH w1 _ _ Hok1 Hrun Hj); [|done].
      by rewrite filter_unready_lookup, Hname, Hr.
    + rewrite Hb in Hj. by eapply (IH w1 _ _ Hok1 Hrun Hj).
Qed.

(** The engine over one retention is the run of that retention. *)
Lemma engine_single (r : Z) (events : list Event) :
  validRetention r →
  ∃ w' outs,
    runWheel 0 (mkWheel r 0 r (replicate (Z.to_nat r) ∅)) events = Some (w', outs)
    ∧ engine (A:=A) [r] events = Some ([w'], (λ out, out ++ []) <$> outs).
Proof.
  intros Hr. unfold engine.
  destruct (newWheels_spec (A:=A) [r]) as (ws0 & Hnew & Hok & Hlen & Hws0).
  { by apply Forall_singleton. }
  specialize (Hws0 0%nat r eq_refl).
  destruct ws0 as [|w0 [|? ?]]; try done. injection Hws0 as ->.
  rewrite Hnew. cbn [mbind option_bind].
  destruct (run_views _ events Hok) as (views & Hrun & Hlenv & Hviews).
  destruct (Hviews 0%nat _ eq_refl) as ([w' outs] & Hv & Hrw).
  destruct views as [|v [|? ?]]; try done. injection Hv as ->.
  exists w', outs. split; [done|]. rewrite Hrun. cbn [fmap list_fmap fst snd].
  f_equal. f_equal.
  destruct (runWheel_wheelOk 0 _ events (Forall_inv Hok)) as (w2 & outs2 & Hrw2 & _ & Hlen2).
  rewrite Hrw in Hrw2. injection Hrw2 as <- <-.
  rewrite <- Hlen2. clear. unfold merge.
  apply list_eq. intros k. rewrite !list_lookup_fmap.
  destruct (outs !! k) as [out|] eqn:Hk.
  - rewrite lookup_seq_lt by (by eapply lookup_lt_Some). cbn. by rewrite Hk.
  - rewrite lookup_seq_ge by (by apply lookup_ge_None). done.
Qed.
End Runs.

(** ** Zero sums and silent ticks of the counter engine *)

(** C4, as stated, fails for the counter engine: a datapoint of value 0
    leaves an entry of sum 0 in the slot of its name; after ten heartbeats
    on a wheel of ten slots every slot has been flushed and left once, the
    pointer is back at 0, and the entry is still in its slot. *)
Lemma zero_sum_counter_is_kept :
  ∃ clock : nat → Z * Z, ∀ L : Library,
    ∃ (w : Wheel float) outs (j : nat) bucket,
      processCounters [10] (Receive zeroHit :: replicate 10 (Heartbeat clock))
        = Some ([w], outs)
      ∧ currentSlot w = 0
      ∧ hashSlot "x" 10 = Some (Z.of_nat j)
      ∧ buckets w !! j = Some bucket
      ∧ bucket !! "x" = Some 0%float.
Proof.
  exists (λ _, (0, 0)). intros L.
  assert (Hr : validRetention 10) by (unfold validRetention; lia).
  destruct (engine_single (A:=float) 10 (Receive zeroHit :: replicate 10 (Heartbeat (λ _, (0, 0)))) Hr)
    as (w' & outs & Hrun & Hengine).
  set (w0 := mkWheel (A:=float) 10 0 10 (replicate (Z.to_nat 10) ∅)) in *.
  assert (Hok0 : wheelOk w0).
  { split_and!; cbn; try done; try lia. }
  pose proof (runWheel_pointer 0 w0 _ w' outs Hok0 Hrun) as [Hcur _].
  apply runWheel_cons in Hrun as (w1 & out & outs' & Hstep & Hrun & ->).
  cbn [stepWheel] in Hstep.
  destruct (receive zeroHit w0) as [w1'|] eqn:Hrecv; [|done]. injection Hstep as <- <-.
  assert (Hok1 : wheelOk w1') by (by eapply receive_wheelOk).
  destruct (receive_bucket zeroHit w0 w1' 0%nat Hok0 Hrecv) as (h & b & Hh & Hb & _ & _).
  destruct (receive_bucket zeroHit w0 w1' h Hok0 Hrecv) as (h' & b' & Hh' & Hb' & _ & Hj).
  rewrite Hh in Hh'. injection Hh' as Heq. apply Nat2Z.inj in Heq as <-.
  rewrite Hb in Hb'. injection Hb' as <-.
  rewrite decide_True in Hj by done.
  apply lookup_replicate in Hb as [-> _].
  destruct (heartbeats_keep_unready 0 w1' _ 10 w' outs' h _ "x" 0%float Hok1 Hrun Hj)
    as (bucket & Hbucket & Hx).
  { by rewrite lookup_insert_eq. }
  { reflexivity. }
  exists w', ((λ out, out ++ []) <$> ([] :: outs')), h, bucket.
  split_and!; try done.
Qed.

(** C3, as stated, fails: the metric [a] receives a datapoint of value 1
    before each of two heartbeats of a wheel of ten slots, and at least one
    of the two heartbeats sends nothing.  The two heartbeats flush slots 0
    and 1, and the name is held by one slot only. *)
Lemma active_counter_silent_tick :
  ∃ clock : nat → Z * Z, ∀ L : Library,
    ∃ ws out1 out2,
      processCounters [10]
        [Receive oneHit; Heartbeat clock; Receive oneHit; Heartbeat clock]
        = Some (ws, [[]; out1; []; out2])
      ∧ (out1 = [] ∨ out2 = []).
Proof.
  exists (λ _, (0, 0)). intros L.
  assert (Hr : validRetention 10) by (unfold validRetention; lia).
  destruct (engine_single (A:=float) 10
              [Receive oneHit; Heartbeat (λ _, (0, 0)); Receive oneHit; Heartbeat (λ _, (0, 0))] Hr)
    as (w' & outs & Hrun & Hengine).
  set (w0 := mkWheel (A:=float) 10 0 10 (replicate (Z.to_nat 10) ∅)) in *.
  assert (Hok0 : wheelOk w0).
  { split_and!; cbn; try done; try lia. }
  (* the first datapoint *)
  apply runWheel_cons in Hrun as (w1 & o0 & outs1 & Hstep1 & Hrun & ->).
  cbn [stepWheel] in Hstep1.
  destruct (receive oneHit w0) as [w1'|] eqn:Hrecv1; [|done]. injection Hstep1 as <- <-.
  assert (Hok1 : wheelOk w1') by (by eapply receive_wheelOk).
  assert (Hcur1 : currentSlot w1' = 0 ∧ maxSlot w1' = 10).
  { destruct (receive_spec oneHit w0 Hok0) as (? & ? & _ & _ & _ & Heq).
    rewrite Heq in Hrecv1. by injection Hrecv1 as <-. }
  destruct Hcur1 as [Hcur1 Hmax1'].
  (* the first heartbeat flushes slot 0 *)
  apply runWheel_cons in Hrun as (w2 & out1 & outs2 & Hstep2 & Hrun & ->).
  cbn [stepWheel] in Hstep2.
  assert (Hok2 : wheelOk w2) by (by eapply tick_wheelOk).
  destruct (tick_bucket 0 _ _ w1' w2 out1 1%nat Hok1 Hstep2)
    as (b1 & Hb1 & Hmax2 & Hcur2 & Hout1 & Hslot1).
  rewrite Hcur1 in Hb1, Hcur2, Hslot1. rewrite Hmax1' in Hcur2.
  change (Z.to_nat 0) with 0%nat in Hb1, Hslot1. cbn in Hcur2.
  (* the second datapoint *)
  apply runWheel_cons in Hrun as (w3 & o2 & outs3 & Hstep3 & Hrun & ->).
  cbn [stepWheel] in Hstep3.
  destruct (receive oneHit w2) as [w3'|] eqn:Hrecv3; [|done]. injection Hstep3 as <- <-.
  assert (Hok3 : wheelOk w3') by (by eapply receive_wheelOk).
  assert (Hcur3 : currentSlot w3' = 1).
  { destruct (receive_spec oneHit w2 Hok2) as (? & ? & _ & _ & _ & Heq).
    rewrite Heq in Hrecv3. injection Hrecv3 as <-. cbn. by rewrite Hcur2. }
  (* the second heartbeat flushes slot 1 *)
  apply runWheel_cons in Hrun as (w4 & out2 & outs4 & Hstep4 & Hrun & ->).
  cbn [stepWheel] in Hstep4.
  destruct (tick_bucket 0 _ _ w3' w4 out2 0%nat Hok3 Hstep4)
    as (b3 & Hb3 & _ & _ & Hout2 & _).
  rewrite Hcur3 in Hb3. change (Z.to_nat 1) with 1%nat in Hb3.
  injection Hrun as <- <-.
  exists [w4], out1, out2. split.
  { unfold processCounters. rewrite Hengine. cbn. by rewrite !app_nil_r. }
  (* where the name hashes to *)
  destruct (receive_bucket oneHit w0 w1' 0%nat Hok0 Hrecv1) as (h & b & Hh & Hb & Hmax1 & Hj0).
  destruct (receive_bucket oneHit w0 w1' 1%nat Hok0 Hrecv1) as (h' & b' & Hh' & _ & _ & Hj1).
  rewrite Hh in Hh'. injection Hh' as Heq. apply Nat2Z.inj in Heq as <-.
  destruct (receive_bucket oneHit w2 w3' 1%nat Hok2 Hrecv3) as (h3 & b3' & Hh3 & _ & _ & Hj3).
  rewrite Hmax2, Hmax1, Hh in Hh3. injection Hh3 as Heq. apply Nat2Z.inj in Heq as <-.
  destruct (decide (h = 0%nat)) as [->|Hne].
  - right. rewrite decide_False in Hj1, Hj3 by done.
    rewrite Hj3, Hslot1 in Hb3. rewrite Hj1 in Hb3. cbn in Hb3.
    injection Hb3 as <-. subst out2. done.
  - left. rewrite decide_False in Hj0 by done. rewrite Hj0 in Hb1. cbn in Hb1.
    injection Hb1 as <-. subst out1. done.
Qed.

(** *** How often a name is flushed *)

Section Counting.
Context `{Library} {A : Type} `{Accumulator A}.
Implicit Types (w : Wheel A) (bucket : gmap string A).

Lemma sentFor_cons i r ts name k v (l : list (string * A)) :
  sentFor i r ts name ((k, v) :: l)
  = ((if decide (k = name) then if ready v then 1 else 0 else 0)
     + sentFor i r ts name l)%nat.
Proof.
  unfold sentFor. rewrite filter_cons. cbn [snd].
  destruct (ready v) eqn:Hv.
  - rewrite decide_True by exact I. rewrite fmap_cons, filter_cons. cbn [uncurry].
    rewrite observation_channel.
    destruct (decide (k = name)) as [->|Hne].
    + by rewrite decide_True by done.
    + rewrite decide_False; [done|]. intros Heq. by apply channel_inj in Heq.
  - rewrite decide_False by (intros []). by destruct (decide (k = name)).
Qed.

Lemma sentFor_none i r ts name (l : list (string * A)) :
  (∀ v, (name, v) ∈ l → ready v = false) → sentFor i r ts name l = 0%nat.
Proof.
  induction l as [|[k v] l IH]; intros Hl; [done|].
  rewrite sentFor_cons, IH.
  - destruct (decide (k = name)) as [->|]; [|done].
    by rewrite (Hl v) by left.
  - intros v' Hin. apply Hl. by right.
Qed.

Lemma sentFor_one i r ts name v (l : list (string * A)) :
  NoDup (l.*1) → (name, v) ∈ l → ready v = true → sentFor i r ts name l = 1%nat.
Proof.
  induction l as [|[k v'] l IH]; intros Hnd Hin Hv.
  - by apply elem_of_nil in Hin.
  - rewrite fmap_cons in Hnd. apply NoDup_cons in Hnd as [Hk Hnd]. cbn in Hk.
    rewrite sentFor_cons. apply elem_of_cons in Hin as [Heq|Hin].
    + injection Heq as <- <-. rewrite decide_True by done. rewrite Hv.
      rewrite sentFor_none; [done|]. intros v' Hin.
      exfalso. apply Hk. apply list_elem_of_fmap. by exists (name, v').
    + rewrite decide_False.
      * by rewrite IH.
      * intros ->. apply Hk. apply list_elem_of_fmap. by exists (name, v).
Qed.

(** A flush sends one observation for a name whose accumulator is ready,
    and none for any other name. *)
Lemma sentFor_bucket i r ts name bucket :
  sentFor i r ts name (map_to_list bucket)
  = match bucket !! name with
    | Some v => if ready v then 1%nat else 0%nat
    | None => 0%nat
    end.
Proof.
  destruct (bucket !! name) as [v|] eqn:Hname.
  - destruct (ready v) eqn:Hv.
    + eapply sentFor_one; [apply NoDup_fst_map_to_list| |done].
      by apply elem_of_map_to_list.
    + apply sentFor_none. intros v' Hin%elem_of_map_to_list. congruence.
  - apply sentFor_none. intros v' Hin%elem_of_map_to_list. congruence.
Qed.

(** What the slot under the pointer holds for a name is what the wheel
    holds for it when the name hashes to that slot, and nothing otherwise. *)
Lemma current_bucket_held w bucket name :
  wheelOk w → keysHashed w →
  index (buckets w) (currentSlot w) = Some bucket →
  bucket !! name
  = if decide (hashSlot name (maxSlot w) = Some (currentSlot w))
    then held w name else None.
Proof.
  intros Hok Hkeys Hb. destruct Hok as (_ & _ & Hcur & _).
  destruct (decide (hashSlot name (maxSlot w) = Some (currentSlot w))) as [Hh|Hh].
  - unfold held. rewrite Hh. cbn. rewrite Hb. done.
  - destruct (bucket !! name) as [v|] eqn:Hname; [|done].
    exfalso. apply Hh. unfold index in Hb. rewrite decide_True in Hb by lia.
    rewrite (Hkeys _ bucket name Hb) by (by rewrite Hname).
    f_equal. lia.
Qed.
End Counting.

(** C3, as the code has it: a heartbeat sends an observation for a counter
    name at retention [i] exactly when the pointer of the wheel is on the
    slot the name hashes to and the sum held for the name is > 0, and then
    it sends one; on a heartbeat that finds the pointer on another slot
    nothing is sent for the name, whatever it has received. *)
Theorem counter_sent_when_its_slot_is_current `{Library}
    (retentions : list Z) (ws : list (Wheel float)) (clock : nat → Z * Z) :
  Forall validRetention retentions → Reachable retentions ws →
  ∃ views : list (Wheel float * list Sent),
    step ws (Heartbeat clock) = Some (views.*1, concat (views.*2))
    ∧ ∀ i w, ws !! i = Some w →
        ∃ w' out,
          views !! i = Some (w', out)
          ∧ ∀ name,
              length (filter (λ x, AggregateObservation.Name x.2
                                   = channel (A:=float) i (interval w) name) out)
              = if decide (hashSlot name (maxSlot w) = Some (currentSlot w))
                then match held w name with
                     | Some sum => if PrimFloat.ltb 0%float sum then 1%nat else 0%nat
                     | None => 0%nat
                     end
                else 0%nat.
Proof.
  intros Hvalid Hreach.
  destruct (heartbeat_vacated ws clock) as (views & Hstep & _ & Hviews).
  { by eapply Reachable_wheelsOk. }
  exists views. split; [done|]. intros i w Hi.
  destruct (Hviews i w Hi) as (w' & out & bucket & Hv & _ & Hb & _ & Hout).
  exists w', out. split; [done|]. intros name.
  destruct (Reachable_invariants retentions ws Hvalid Hreach) as [_ Hinv].
  destruct (Hinv i w Hi) as (Hok & Hkeys & _ & _).
  rewrite Hout.
  change (length _) with (sentFor i (interval w)
    (wrap64 ((clock i).1 - Z.rem (clock i).2 (interval w))) name (map_to_list bucket)).
  rewrite sentFor_bucket, (current_bucket_held w bucket name Hok Hkeys Hb).
  by destruct (decide (hashSlot name (maxSlot w) = Some (currentSlot w))).
Qed.

(** *** The account of one name *)

Section Accounting.
Context `{Library} {A : Type} `{Accumulator A}.
Implicit Types (w : Wheel A) (bucket : gmap string A).

Lemma sentOf_app i r name (l1 l2 : list Sent) :
  sentOf (A:=A) i r name (l1 ++ l2) = sentOf (A:=A) i r name l1 ++ sentOf (A:=A) i r name l2.
Proof. unfold sentOf. apply filter_app. Qed.

Lemma sentOf_entries_cons i r ts name k v (l : list (string * A)) :
  sentOf i r name (uncurry (observation i r ts) <$> filter (λ kv, ready kv.2) ((k, v) :: l))
  = (if decide (k = name) then flushOf i r ts name (Some v) else [])
    ++ sentOf i r name (uncurry (observation i r ts) <$> filter (λ kv, ready kv.2) l).
Proof.
  unfold sentOf, flushOf. rewrite filter_cons. cbn [snd].
  destruct (ready v) eqn:Hv.
  - rewrite decide_True by exact I. rewrite fmap_cons, filter_cons. cbn [uncurry].
    rewrite observation_channel.
    destruct (decide (k = name)) as [->|Hne].
    + by rewrite decide_True by done.
    + rewrite decide_False; [done|]. intros Heq. by apply channel_inj in Heq.
  - rewrite decide_False by (intros []). by destruct (decide (k = name)).
Qed.

Lemma sentOf_entries_none i r ts name (l : list (string * A)) :
  (∀ v, (name, v) ∈ l → ready v = false) →
  sentOf i r name (uncurry (observation i r ts) <$> filter (λ kv, ready kv.2) l) = [].
Proof.
  induction l as [|[k v] l IH]; intros Hl; [done|].
  rewrite sentOf_entries_cons, IH.
  - destruct (decide (k = name)) as [->|]; [|done].
    unfold flushOf. by rewrite (Hl v) by left.
  - intros v' Hin. apply Hl. by right.
Qed.

Lemma sentOf_entries_one i r ts name v (l : list (string * A)) :
  NoDup (l.*1) → (name, v) ∈ l → ready v = true →
  sentOf i r name (uncurry (observation i r ts) <$> filter (λ kv, ready kv.2) l)
  = [observation i r ts name v].
Proof.
  induction l as [|[k v'] l IH]; intros Hnd Hin Hv.
  - by apply elem_of_nil in Hin.
  - rewrite fmap_cons in Hnd. apply NoDup_cons in Hnd as [Hk Hnd]. cbn in Hk.
    rewrite sentOf_entries_cons. apply elem_of_cons in Hin as [Heq|Hin].
    + injection Heq as <- <-. rewrite decide_True by done. unfold flushOf. rewrite Hv.
      rewrite sentOf_entries_none; [done|]. intros v' Hin.
      exfalso. apply Hk. apply list_elem_of_fmap. by exists (name, v').
    + rewrite decide_False.
      * by rewrite IH.
      * intros ->. apply Hk. apply list_elem_of_fmap. by exists (name, v).
Qed.

(** What a flush of a bucket sends for a name. *)
Lemma sentOf_bucket i r ts name bucket :
  sentOf i r name (uncurry (observation i r ts) <$> readyEntries bucket)
  = flushOf i r ts name (bucket !! name).
Proof.
  unfold readyEntries, flushOf. destruct (bucket !! name) as [v|] eqn:Hname.
  - destruct (ready v) eqn:Hv.
    + eapply sentOf_entries_one; [apply NoDup_fst_map_to_list| |done].
      by apply elem_of_map_to_list.
    + apply sentOf_entries_none. intros v' Hin%elem_of_map_to_list. congruence.
  - apply sentOf_entries_none. intros v' Hin%elem_of_map_to_list. congruence.
Qed.

Lemma held_bucket w name (h : nat) bucket :
  hashSlot name (maxSlot w) = Some (Z.of_nat h) → buckets w !! h = Some bucket →
  held w name = bucket !! name.
Proof.
  intros Hh Hb. unfold held. rewrite Hh. cbn. unfold index.
  rewrite decide_True by lia. rewrite Nat2Z.id, Hb. done.
Qed.

Lemma pending_snoc (a : option A) (vs : list float) (v : float) :
  pending a (vs ++ [v]) = Some (accumulate (pending a vs) v).
Proof. unfold pending. by rewrite foldl_app. Qed.

Lemma pending_cons (a : option A) (v : float) (vs : list float) :
  pending a (v :: vs) = pending (Some (accumulate a v)) vs.
Proof. done. Qed.

Lemma pending_app (a : option A) (vs1 vs2 : list float) :
  pending a (vs1 ++ vs2) = pending (pending a vs1) vs2.
Proof. unfold pending. by rewrite foldl_app. Qed.

Lemma inputsFor_app name (ev1 ev2 : list Event) :
  inputsFor name (ev1 ++ ev2) = inputsFor name ev1 ++ inputsFor name ev2.
Proof.
  induction ev1 as [|[d|clock] ev1 IH]; cbn; [done| |done].
  destruct (decide (Datapoint.Name d = name)); [|done]. by rewrite IH.
Qed.

(** A datapoint adds its value to the accumulator of its name and leaves
    the other names alone. *)
Lemma receive_held d w w' name :
  wheelOk w → keysHashed w → receive d w = Some w' →
  held w' name
  = if decide (Datapoint.Name d = name)
    then Some (accumulate (held w name) (Datapoint.Value d))
    else held w name.
Proof.
  intros Hok Hkeys Hrecv.
  destruct (hashSlot_range name (maxSlot w)) as (hn & Hhn & Hrange).
  { destruct Hok as ([? ?] & ? & ? & ?). lia. }
  destruct (index_in_range (buckets w) hn) as (bn & _ & Hbn).
  { destruct Hok as (_ & _ & _ & Hlen). lia. }
  rewrite <- (Z2Nat.id hn) in Hhn by lia.
  destruct (receive_bucket d w w' (Z.to_nat hn) Hok Hrecv) as (h & b & Hh & Hb & Hmax & Hj).
  rewrite (held_bucket w name _ bn Hhn Hbn).
  destruct (decide (Z.to_nat hn = h)) as [Heq|Hne].
  - subst h. rewrite Hbn in Hb. injection Hb as <-.
    rewrite (held_bucket w' name (Z.to_nat hn) _ ltac:(by rewrite Hmax) Hj).
    destruct (decide (Datapoint.Name d = name)) as [->|Hnn].
    + by rewrite lookup_insert_eq.
    + by rewrite lookup_insert_ne.
  - rewrite Hbn in Hj.
    rewrite (held_bucket w' name (Z.to_nat hn) _ ltac:(by rewrite Hmax) Hj).
    rewrite decide_False; [done|].
    intros Heq. rewrite Heq, Hhn in Hh. injection Hh as Hh. lia.
Qed.

(** A heartbeat flushes the accumulator of a name when the pointer is on
    the slot of the name, and leaves it alone otherwise. *)
Lemma tick_held i t1 t2 w w' out name :
  wheelOk w → keysHashed w → tick i t1 t2 w = Some (w', out) →
  let ts := wrap64 (t1 - Z.rem t2 (interval w)) in
  if decide (hashSlot name (maxSlot w) = Some (currentSlot w))
  then held w' name = afterFlush (held w name)
       ∧ sentOf i (interval w) name out = flushOf i (interval w) ts name (held w name)
  else held w' name = held w name ∧ sentOf i (interval w) name out = [].
Proof.
  intros Hok Hkeys Htick. cbn zeta.
  destruct (hashSlot_range name (maxSlot w)) as (hn & Hhn & Hrange).
  { destruct Hok as ([? ?] & ? & ? & ?). lia. }
  destruct (index_in_range (buckets w) hn) as (bn & _ & Hbn).
  { destruct Hok as (_ & _ & _ & Hlen). lia. }
  pose proof Hhn as Hhn'. rewrite <- (Z2Nat.id hn) in Hhn' by lia.
  destruct (tick_bucket i t1 t2 w w' out (Z.to_nat hn) Hok Htick)
    as (bucket & Hb & Hmax & _ & Hout & Hj).
  rewrite (held_bucket w name _ bn Hhn' Hbn). rewrite Hout, sentOf_bucket.
  assert (Hcur : 0 ≤ currentSlot w) by (destruct Hok as (_ & _ & ? & _); lia).
  rewrite Hhn. destruct (decide (Some hn = Some (currentSlot w))) as [[= ->]|Hne].
  - rewrite decide_True in Hj by done. rewrite Hb in Hbn. injection Hbn as ->.
    rewrite (held_bucket w' name _ _ ltac:(by rewrite Hmax) Hj).
    split; [|done]. unfold afterFlush. by rewrite filter_unready_lookup.
  - rewrite decide_False in Hj by (intros Heq; apply Hne; f_equal; lia).
    rewrite Hbn in Hj.
    rewrite (held_bucket w' name _ _ ltac:(by rewrite Hmax) Hj).
    split; [done|].
    destruct (bucket !! name) as [v|] eqn:Hv; [|done].
    exfalso. apply Hne. rewrite <- Hhn.
    rewrite (Hkeys _ bucket name Hb) by (by rewrite Hv). f_equal. lia.
Qed.
End Accounting.

(** *** One revolution of a wheel *)

Section Revolution.
Context `{Library} {A : Type} `{Accumulator A}.
Implicit Types (w : Wheel A) (bucket : gmap string A).

Lemma stepWheel_shape i w e w' out :
  wheelOk w → stepWheel i w e = Some (w', out) →
  interval w' = interval w ∧ maxSlot w' = maxSlot w
  ∧ currentSlot w'
    = match e with
      | Receive _ => currentSlot w
      | Heartbeat _ => (currentSlot w + 1) `mod` maxSlot w
      end.
Proof.
  intros Hok Hstep. destruct e as [d|clock]; cbn [stepWheel] in Hstep.
  - destruct (receive_spec d w Hok) as (? & ? & _ & _ & _ & Heq).
    rewrite Heq in Hstep. by injection Hstep as <- <-.
  - destruct (tick_spec i (clock i).1 (clock i).2 w Hok) as (? & _ & Heq).
    rewrite Heq in Hstep. by injection Hstep as <- <-.
Qed.

Lemma runWheel_app i w (ev1 ev2 : list Event) w'' outs :
  runWheel i w (ev1 ++ ev2) = Some (w'', outs) →
  ∃ w' outs1 outs2,
    runWheel i w ev1 = Some (w', outs1)
    ∧ runWheel i w' ev2 = Some (w'', outs2)
    ∧ outs = outs1 ++ outs2.
Proof.
  revert w outs. induction ev1 as [|e ev1 IH]; intros w outs Hrun.
  - by exists w, [], outs.
  - rewrite <- app_comm_cons in Hrun.
    apply runWheel_cons in Hrun as (w1 & out & outs' & Hstep & Hrun & ->).
    destruct (IH w1 outs' Hrun) as (w' & outs1 & outs2 & Hrun1 & Hrun2 & ->).
    exists w', (out :: outs1), outs2. split_and!; [|done|done].
    cbn [runWheel]. rewrite Hstep. cbn. rewrite Hrun1. done.
Qed.

Lemma split_at_tick (events : list Event) (n : nat) :
  (n < ticks events)%nat →
  ∃ ev1 clock ev2, events = ev1 ++ Heartbeat clock :: ev2 ∧ ticks ev1 = n.
Proof.
  revert n. induction events as [|[d|clock] events IH]; intros n Hn; cbn in Hn.
  - lia.
  - destruct (IH n Hn) as (ev1 & clock & ev2 & -> & Hticks).
    by exists (Receive d :: ev1), clock, ev2.
  - destruct n as [|n].
    + by exists [], clock, events.
    + destruct (IH n ltac:(lia)) as (ev1 & clock' & ev2 & -> & Hticks).
      exists (Heartbeat clock :: ev1), clock', ev2. cbn. by rewrite Hticks.
Qed.

(** While the pointer stays off the slot of a name, the name only gathers:
    nothing is sent for it, and what it holds grows by what it receives. *)
Lemma quiet_run i w events w' outs name h :
  wheelOk w → keysHashed w → hashSlot name (maxSlot w) = Some h →
  runWheel i w events = Some (w', outs) →
  Z.of_nat (ticks events) ≤ (h - currentSlot w) `mod` maxSlot w →
  held w' name = pending (held w name) (inputsFor name events)
  ∧ sentOf i (interval w) name (concat outs) = [].
Proof.
  revert w outs. induction events as [|e events IH]; intros w outs Hok Hkeys Hh Hrun Hticks.
  - by injection Hrun as <- <-.
  - apply runWheel_cons in Hrun as (w1 & out & outs' & Hstep & Hrun & ->).
    assert (Hok1 : wheelOk w1).
    { destruct (stepWheel_wheelOk i w e Hok) as (? & ? & Hs & ?). congruence. }
    pose proof (stepWheel_keysHashed i w e w1 out Hok Hkeys Hstep) as Hkeys1.
    destruct (stepWheel_shape i w e w1 out Hok Hstep) as (Hint & Hmax & Hcur).
    cbn [concat]. rewrite sentOf_app.
    destruct e as [d|clock]; cbn [stepWheel ticks inputsFor] in *.
    + destruct (receive d w) as [w1'|] eqn:Hrecv; [|done]. injection Hstep as <- <-.
      destruct (IH w1' outs' Hok1 Hkeys1) as [Hheld Hsent]; [by rewrite Hmax|done| |].
      { by rewrite Hmax, Hcur. }
      rewrite Hint in Hsent. split; [|done].
      rewrite Hheld, (receive_held d w w1' name Hok Hkeys Hrecv).
      by destruct (decide (Datapoint.Name d = name)).
    + pose proof (tick_held i _ _ w w1 out name Hok Hkeys Hstep) as Htick. cbn zeta in Htick.
      destruct Hok as ([Hr1 Hr2] & Hmi & Hrange & Hlen).
      assert (Hoff : hashSlot name (maxSlot w) ≠ Some (currentSlot w)).
      { rewrite Hh. intros [= ->]. rewrite Z.sub_diag, Z.mod_0_l in Hticks; lia. }
      rewrite decide_False in Htick by done. destruct Htick as [Hheld1 Hsent1].
      destruct (IH w1 outs' Hok1 Hkeys1) as [Hheld Hsent]; [by rewrite Hmax|done| |].
      { rewrite Hmax, Hcur. rewrite Zminus_mod_idemp_r.
        replace (h - (currentSlot w + 1)) with ((h - currentSlot w) - 1) by lia.
        rewrite <- Zminus_mod_idemp_l.
        pose proof (Z.mod_pos_bound (h - currentSlot w) (maxSlot w) ltac:(lia)).
        rewrite (Z.mod_small (_ - 1)); lia. }
      rewrite Hint in Hsent. rewrite Hsent1, Hsent, Hheld, Hheld1. done.
Qed.

(** Over as many heartbeats as the wheel has slots, the slot of a name is
    flushed once: what the name held and received before that flush is
    sent, and what it receives after it is held at the end. *)
Lemma revolution i w events w' outs name :
  wheelOk w → keysHashed w → Z.of_nat (ticks events) = maxSlot w →
  runWheel i w events = Some (w', outs) →
  ∃ before after ts,
    inputsFor name events = before ++ after
    ∧ sentOf i (interval w) name (concat outs)
      = flushOf i (interval w) ts name (pending (held w name) before)
    ∧ held w' name = pending (afterFlush (pending (held w name) before)) after.
Proof.
  intros Hok Hkeys Hticks Hrun.
  pose proof Hok as ([Hr1 Hr2] & Hmi & Hrange & Hlen).
  destruct (hashSlot_range name (maxSlot w)) as (h & Hh & Hhr); [lia|].
  set (n := maxSlot w) in *. set (c := currentSlot w) in *.
  pose proof (Z.mod_pos_bound (h - c) n ltac:(lia)) as Hd.
  destruct (split_at_tick events (Z.to_nat ((h - c) `mod` n)))
    as (ev1 & clock & ev2 & -> & Hticks1); [lia|].
  rewrite ticks_app in Hticks. cbn [ticks] in Hticks.
  apply runWheel_app in Hrun as (w1 & outs1 & outs2 & Hrun1 & Hrun2 & ->).
  apply runWheel_cons in Hrun2 as (w2 & out & outs3 & Hstep & Hrun3 & ->).
  (* up to the flush *)
  destruct (runWheel_invariants i w ev1 w1 outs1 Hok Hkeys Hrun1) as (Hok1 & Hkeys1 & _).
  destruct (runWheel_pointer i w ev1 w1 outs1 Hok Hrun1) as [Hcur1 Hmax1].
  destruct (quiet_run i w ev1 w1 outs1 name h Hok Hkeys Hh Hrun1) as [Hheld1 Hsent1].
  { fold n c. lia. }
  assert (Hint1 : interval w1 = interval w).
  { destruct Hok1 as (_ & Hmi1 & _). rewrite <- Hmi1, Hmax1. done. }
  fold n c in Hcur1, Hmax1. rewrite Hticks1, Z2Nat.id in Hcur1 by lia.
  assert (Hat : currentSlot w1 = h).
  { rewrite Hcur1. rewrite Zplus_mod_idemp_r.
    replace (c + (h - c)) with h by lia. apply Z.mod_small. lia. }
  (* the flush *)
  cbn [stepWheel] in Hstep.
  pose proof (tick_held i _ _ w1 w2 out name Hok1 Hkeys1 Hstep) as Htick. cbn zeta in Htick.
  rewrite decide_True in Htick by (by rewrite Hmax1, Hat).
  destruct Htick as [Hheld2 Hsent2].
  assert (Hok2 : wheelOk w2) by (by eapply tick_wheelOk).
  pose proof (stepWheel_keysHashed i w1 (Heartbeat clock) w2 out Hok1 Hkeys1 Hstep) as Hkeys2.
  destruct (stepWheel_shape i w1 (Heartbeat clock) w2 out Hok1 Hstep) as (Hint2 & Hmax2 & Hcur2).
  (* after the flush *)
  destruct (quiet_run i w2 ev2 w' outs3 name h Hok2 Hkeys2) as [Hheld3 Hsent3];
    [by rewrite Hmax2, Hmax1|done| |].
  { rewrite Hmax2, Hcur2, Hmax1, Hat. rewrite Zminus_mod_idemp_r.
    replace (h - (h + 1)) with (-1) by lia.
    assert (Hm1 : (-1) `mod` n = n - 1).
    { symmetry. apply (Z.mod_unique (-1) n (-1) (n - 1)); lia. }
    rewrite Hm1. lia. }
  exists (inputsFor name ev1), (inputsFor name ev2),
    (wrap64 ((clock i).1 - Z.rem (clock i).2 (interval w1))).
  split_and!.
  - rewrite inputsFor_app. done.
  - rewrite concat_app. cbn [concat]. rewrite !sentOf_app.
    rewrite Hsent1. rewrite Hint2, Hint1 in Hsent3. rewrite Hsent3.
    rewrite Hint1 in Hsent2. rewrite Hsent2, app_nil_r. cbn [app].
    by rewrite Hheld1, Hint1.
  - by rewrite Hheld3, Hheld2, Hheld1.
Qed.
End Revolution.

(** ** Conservation of the counter sums *)

Lemma pending_sum `{Library} (a : float) (vs : list float) :
  pending (A:=float) (Some a) vs = Some (foldl PrimFloat.add a vs).
Proof.
  revert a. induction vs as [|v vs IH]; intros a; [done|].
  rewrite pending_cons. cbn [accumulate counterAccumulator default]. by rewrite IH.
Qed.

Lemma pending_sum_from_nothing `{Library} (vs : list float) :
  vs ≠ [] → pending (A:=float) None vs = Some (foldl PrimFloat.add 0%float vs).
Proof.
  destruct vs as [|v vs]; [done|]. intros _.
  rewrite pending_cons. cbn [accumulate counterAccumulator default]. by rewrite pending_sum.
Qed.

(** C7: over a window of [interval] heartbeats (the seconds of one
    interval), the slot of a name is flushed once.  The values the name
    receives in the window split in two: those before the flush and those
    after it.  What is sent for the name in the window is one observation
    of the sum, in the order of arrival, of what the slot held when the
    window began and of the values before the flush (none when that sum
    is not > 0); the values after the flush are what the slot holds when
    the window ends.  So the sum sent and the sum received differ by what
    one slot holds at the two ends of the window, and by nothing else. *)
Theorem counter_sum_conservation `{Library}
    (retentions : list Z) (ws : list (Wheel float)) (events : list Event) (name : string) :
  Forall validRetention retentions → Reachable retentions ws →
  ∃ views : list (Wheel float * list (list Sent)),
    run ws events = Some (views.*1, merge (views.*2) (length events))
    ∧ (∀ i w, ws !! i = Some w → Z.of_nat (ticks events) = interval w →
         ∃ w' outs before after ts,
           views !! i = Some (w', outs)
           ∧ inputsFor name events = before ++ after
           ∧ sentOf (A:=float) i (interval w) name (concat outs)
             = match pending (held w name) before with
               | Some total =>
                   if PrimFloat.ltb 0%float total
                   then [observation i (interval w) ts name total]
                   else []
               | None => []
               end
           ∧ held w' name
             = pending (match pending (held w name) before with
                        | Some total => if PrimFloat.ltb 0%float total then None else Some total
                        | None => None
                        end) after)
    ∧ (∀ (a : float) vs, pending (Some a) vs = Some (foldl PrimFloat.add a vs))
    ∧ (∀ vs, vs ≠ [] → pending (A:=float) None vs = Some (foldl PrimFloat.add 0%float vs))
    ∧ pending (A:=float) None [] = None.
Proof.
  intros Hvalid Hreach.
  destruct (Reachable_invariants retentions ws Hvalid Hreach) as [_ Hinv].
  destruct (run_views ws events) as (views & Hrun & _ & Hviews).
  { by eapply Reachable_wheelsOk. }
  exists views. split_and!; [done| |apply pending_sum|apply pending_sum_from_nothing|done].
  intros i w Hi Hticks.
  destruct (Hviews i w Hi) as ([w' outs] & Hv & Hrw).
  destruct (Hinv i w Hi) as (Hok & Hkeys & _ & _).
  destruct (revolution i w events w' outs name Hok Hkeys) as (before & after & ts & Hin & Hsent & Hheld).
  { destruct Hok as (_ & -> & _). done. }
  { done. }
  by exists w', outs, before, after, ts.
Qed.


(** ** The timer engine *)

Lemma insertSorted_perm (x : float) (l : list float) : insertSorted x l ≡ₚ x :: l.
Proof.
  induction l as [|y l IH]; [done|]. cbn.
  destruct (PrimFloat.leb x y); [done|].
  rewrite IH. apply Permutation_swap.
Qed.

(** Sorting keeps the samples. *)
Lemma sortAscending_perm (l : list float) : sortAscending l ≡ₚ l.
Proof.
  induction l as [|x l IH]; [done|]. cbn.
  rewrite insertSorted_perm. by rewrite IH.
Qed.

(** The index of a percentile is clamped to the samples. *)
Lemma percentileIndex_lt (p : float) (n : nat) :
  (0 < n)%nat → (percentileIndex p n < n)%nat.
Proof. intros Hn. unfold percentileIndex. lia. Qed.

Lemma Percentile_elem (samples : list float) (p : float) :
  samples ≠ [] → Percentile samples p ∈ samples.
Proof.
  intros Hne. rewrite <- (sortAscending_perm samples) at 2.
  unfold Percentile. apply list_elem_of_In, nth_In.
  rewrite (Permutation_length (sortAscending_perm samples)).
  apply percentileIndex_lt. destruct samples; [done|cbn; lia].
Qed.

(** C5: a heartbeat sends, for each non-empty sample list of the
    flushed bucket, one observation whose payload holds the aggregate
    string [count/min/max/median/mean/stddev/p90/p95/p99] of the list.  The
    median is the middle element of the sorted samples for odd [n] and the
    mean of the two middle elements for even [n]; the standard deviation is
    sqrt(sum((x-mean)^2)/n); the percentile [p] is the element of the
    sorted samples at index ceil(p*n) - 1 clamped to [0, n-1], an element
    of the list; p90, p95 and p99 are taken at 0.9, 0.95 and 0.99. *)
Theorem timers_heartbeat_aggregates `{Library}
    (ws : list (Wheel (list float))) (clock : nat → Z * Z) :
  Forall wheelOk ws →
  (∃ views : list (Wheel (list float) * list Sent),
     step ws (Heartbeat clock) = Some (views.*1, concat (views.*2))
     ∧ ∀ i w, ws !! i = Some w →
         ∃ bucket w' out ts,
           index (buckets w) (currentSlot w) = Some bucket
           ∧ views !! i = Some (w', out)
           ∧ out ≡ₚ
               (λ '(name, samples),
                  if decide (i = 0%nat) then
                    (redisAppendChannel,
                     AggregateObservation.mk ("timers:" +:+ name)
                       (FormatInt ts +:+ "<X>" +:+ aggregates samples) ts)
                  else
                    (diskAppendChannel,
                     AggregateObservation.mk
                       ("timers:" +:+ name +:+ ":" +:+ FormatInt (interval w))
                       (FormatInt ts +:+ " " +:+ aggregates samples +:+ newline) ts))
               <$> filter (λ kv, (0 < length kv.2)%nat) (map_to_list bucket))
  ∧ (∀ samples : list float, samples ≠ [] →
       let n := length samples in
       let sorted := sortAscending samples in
       let mean := PrimFloat.div (sumFloats samples) (floatOfNat n) in
       let percentile p :=
         nth (Z.to_nat (Z.max 0 (Z.min (Z.of_nat n - 1)
                                   (Z.of_nat (ceilUpTo (PrimFloat.mul p (floatOfNat n)) n) - 1))))
           sorted 0%float in
       aggregates samples
       = FormatInt (Z.of_nat n)
         +:+ "/" +:+ FormatFloat (Min samples) +:+ "/" +:+ FormatFloat (Max samples)
         +:+ "/" +:+ FormatFloat
                      (if Nat.odd n then nth (n / 2) sorted 0%float
                       else PrimFloat.div
                              (PrimFloat.add (nth (n / 2 - 1) sorted 0%float)
                                             (nth (n / 2) sorted 0%float)) 2%float)
         +:+ "/" +:+ FormatFloat mean
         +:+ "/" +:+ FormatFloat
                      (PrimFloat.sqrt
                         (PrimFloat.div
                            (sumFloats ((λ x, PrimFloat.mul (PrimFloat.sub x mean)
                                                            (PrimFloat.sub x mean)) <$> samples))
                            (floatOfNat n)))
         +:+ "/" +:+ FormatFloat (percentile p90)
         +:+ "/" +:+ FormatFloat (percentile p95)
         +:+ "/" +:+ FormatFloat (percentile p99)
       ∧ sorted ≡ₚ samples
       ∧ percentile p90 ∈ samples ∧ percentile p95 ∈ samples ∧ percentile p99 ∈ samples).
Proof.
  intros Hok. split.
  - destruct (heartbeat_vacated ws clock Hok) as (views & Hstep & _ & Hviews).
    exists views. split; [done|]. intros i w Hi.
    destruct (Hviews i w Hi) as (w' & out & bucket & Hv & _ & Hb & _ & Hout).
    exists bucket, w', out,
      (wrap64 ((clock i).1 - Z.rem (clock i).2 (interval w))).
    split_and!; [done|done|]. rewrite Hout.
    match goal with |- ?l ≡ₚ ?r => assert (l = r) as ->; [|done] end.
    unfold readyEntries.
    rewrite (list_filter_iff (λ kv : string * list float, ready kv.2)
               (λ kv, (0 < length kv.2)%nat)).
    + apply list_fmap_ext. intros _ [name samples] _. cbn [uncurry].
      unfold observation. by destruct (decide (i = 0%nat)).
    + intros [name samples]. cbn. apply bool_decide_spec.
  - intros samples Hsamples. cbn zeta. split_and!.
    + reflexivity.
    + apply sortAscending_perm.
    + by apply Percentile_elem.
    + by apply Percentile_elem.
    + by apply Percentile_elem.
Qed.

(** ** The historical sink writer *)

Lemma app_nil_r_str (s : string) : s +:+ "" = s.
Proof. induction s as [|a s IH]; [done|]. rewrite app_cons. by rewrite IH. Qed.

Lemma payloads_app (name : string) (l1 l2 : list AggregateObservation.t) :
  payloads name (l1 ++ l2) = payloads name l1 +:+ payloads name l2.
Proof.
  induction l1 as [|o l1 IH]; [done|]. cbn.
  destruct (decide (AggregateObservation.Name o = name)); [|done].
  by rewrite IH, app_assoc_str.
Qed.

Lemma payloads_absent (name : string) (l : list AggregateObservation.t) :
  name ∉ AggregateObservation.Name <$> l → payloads name l = "".
Proof.
  induction l as [|o l IH]; [done|]. rewrite fmap_cons, not_elem_of_cons.
  intros [Hne Hl]. cbn. rewrite decide_False by done. by apply IH.
Qed.

Section FileFacts.
Context `{Library}.
Implicit Types (st : Writer) (o : AggregateObservation.t).

Lemma appendToFile_app root st l1 l2 :
  appendToFile root st (l1 ++ l2)
  = st1 ← appendToFile root st l1; appendToFile root st1 l2.
Proof.
  revert st. induction l1 as [|[o env] l1 IH]; intros st; [done|].
  cbn. destruct (appendObservation root st o env) as [st'|]; [|done]. cbn. apply IH.
Qed.

(** A missing file: the directories and the file are made, the header is
    its first line, the payload follows, and the name is queued. *)
Lemma appendObservation_new root st o :
  CalculateFilename (AggregateObservation.Name o) root ∉ dom (files (disk st)) →
  let filename := CalculateFilename (AggregateObservation.Name o) root in
  ∃ st',
    appendObservation root st o noFaults = Some st'
    ∧ Dir filename ∈ dirs (disk st')
    ∧ files (disk st')
      = <[filename := headerLine (AggregateObservation.Name o)
                      +:+ AggregateObservation.Content o]> (files (disk st))
    ∧ datapoints st' = datapoints st ++ [AggregateObservation.Name o].
Proof.
  intros Hnew. cbn zeta. unfold appendObservation, OpenFile. cbn [openFault noFaults].
  rewrite decide_False by done.
  unfold MkdirAll. cbn [mkdirFault noFaults]. unfold Create. cbn [createFault noFaults dirs files].
  rewrite decide_True by set_solver. cbn [files dirs].
  eexists. split; [done|]. cbn [disk datapoints appendText dirs files].
  split_and!; [set_solver| |done].
  apply map_eq. intros f.
  destruct (decide (f = CalculateFilename (AggregateObservation.Name o) root)) as [->|Hne].
  - rewrite !lookup_alter_eq, !lookup_insert_eq. cbn.
    by rewrite app_nil_l.
  - by rewrite !lookup_alter_ne, !lookup_insert_ne.
Qed.

(** An existing file: the payload is appended, and nothing else happens. *)
Lemma appendObservation_old root st o content :
  files (disk st) !! CalculateFilename (AggregateObservation.Name o) root = Some content →
  let filename := CalculateFilename (AggregateObservation.Name o) root in
  appendObservation root st o noFaults
  = Some (mkWriter
            (mkFileSystem (dirs (disk st))
               (<[filename := content +:+ AggregateObservation.Content o]> (files (disk st))))
            (datapoints st)).
Proof.
  intros Hold. cbn zeta. unfold appendObservation, OpenFile. cbn [openFault noFaults].
  rewrite decide_True by (apply elem_of_dom; eauto).
  unfold appendText. do 3 f_equal.
  apply map_eq. intros f. destruct (decide (f = CalculateFilename (AggregateObservation.Name o) root)) as [->|Hne].
  - by rewrite lookup_alter_eq, Hold, lookup_insert_eq.
  - by rewrite lookup_alter_ne, lookup_insert_ne.
Qed.

(** Any other failure of the open is a panic. *)
Lemma appendObservation_fatal root st o env :
  openFault env = true → appendObservation root st o env = None.
Proof. intros Hfault. unfold appendObservation, OpenFile. by rewrite Hfault. Qed.

Lemma appendToFile_once root st0 (all observations : list AggregateObservation.t) :
  (∀ o, o ∈ all →
     CalculateFilename (AggregateObservation.Name o) root ∉ dom (files (disk st0))) →
  (∀ o1 o2, o1 ∈ all → o2 ∈ all →
     CalculateFilename (AggregateObservation.Name o1) root
     = CalculateFilename (AggregateObservation.Name o2) root →
     AggregateObservation.Name o1 = AggregateObservation.Name o2) →
  (∀ o, o ∈ observations → o ∈ all) →
  ∃ st news,
    appendToFile root st0 (unfaulted observations) = Some st
    ∧ datapoints st = datapoints st0 ++ news
    ∧ NoDup news
    ∧ (∀ name, name ∈ news ↔ name ∈ AggregateObservation.Name <$> observations)
    ∧ (∀ o, o ∈ observations →
         files (disk st) !! CalculateFilename (AggregateObservation.Name o) root
         = Some (headerLine (AggregateObservation.Name o)
                 +:+ payloads (AggregateObservation.Name o) observations))
    ∧ (∀ f, (∀ o, o ∈ observations →
               CalculateFilename (AggregateObservation.Name o) root ≠ f) →
            files (disk st) !! f = files (disk st0) !! f).
Proof.
  intros Hfresh Hinj.
  induction observations as [|o observations IH] using rev_ind; intros Hsub.
  - exists st0, []. split_and!; try done.
    + by rewrite app_nil_r.
    + apply NoDup_nil_2.
    + intros o Ho. by apply elem_of_nil in Ho.
  - destruct IH as (st & news & Hrun & Hdp & Hnd & Hnews & Hfiles & Hframe).
    { intros o' Ho'. apply Hsub. apply elem_of_app. by left. }
    assert (Ho : o ∈ all) by (apply Hsub, elem_of_app; right; by left).
    unfold unfaulted in *. rewrite fmap_app, appendToFile_app, Hrun.
    cbn [mbind option_bind fmap list_fmap appendToFile].
    set (name := AggregateObservation.Name o) in *.
    destruct (decide (name ∈ AggregateObservation.Name <$> observations)) as [Hseen|Hnew].
    + (* the file of the name is there *)
      apply list_elem_of_fmap in Hseen as (o' & Hname & Ho').
      pose proof (Hfiles o' Ho') as Hfile. rewrite <- Hname in Hfile.
      rewrite (appendObservation_old root st o _ Hfile). cbn [mbind option_bind].
      eexists _, news. split; [done|]. cbn [datapoints disk files].
      split_and!; try done.
      * intros n. rewrite Hnews, fmap_app, elem_of_app. cbn.
        rewrite list_elem_of_singleton. split; [by left|].
        intros [?| ->]; [done|]. apply list_elem_of_fmap. by exists o'.
      * intros o2 Ho2. rewrite payloads_app. cbn [payloads]. fold name.
        destruct (decide (name = AggregateObservation.Name o2)) as [Heq|Hne].
        -- rewrite <- Heq. rewrite lookup_insert_eq. rewrite ?decide_True by done.
           by rewrite app_nil_r_str, app_assoc_str.
        -- rewrite app_nil_r_str.
           rewrite lookup_insert_ne.
           ++ apply elem_of_app in Ho2 as [Ho2|Ho2%list_elem_of_singleton]; [by apply Hfiles|].
              by subst o2.
           ++ intros Hf. apply Hne. apply (Hinj o o2); [done| |done].
              apply Hsub. done.
      * intros f Hf. rewrite lookup_insert_ne.
        -- apply Hframe. intros o2 Ho2. apply Hf. apply elem_of_app. by left.
        -- apply Hf. apply elem_of_app. right. by left.
    + (* the first observation of the name *)
      assert (Habsent : CalculateFilename name root ∉ dom (files (disk st))).
      { rewrite elem_of_dom, Hframe.
        - rewrite <- elem_of_dom. by apply Hfresh.
        - intros o2 Ho2 Hf. apply Hnew. apply list_elem_of_fmap. exists o2.
          split; [|done]. symmetry. apply (Hinj o2 o); [|done|done].
          apply Hsub, elem_of_app. by left. }
      destruct (appendObservation_new root st o Habsent) as (st' & Hstep & _ & Hfiles' & Hdp').
      rewrite Hstep. cbn [mbind option_bind].
      exists st', (news ++ [name]). split; [done|].
      split_and!.
      * rewrite Hdp', Hdp. by rewrite <- app_assoc.
      * apply NoDup_app. split_and!; [done| |apply NoDup_singleton].
        intros n Hn Heq%list_elem_of_singleton. subst n. by apply Hnew, Hnews.
      * intros n. rewrite fmap_app, !elem_of_app, Hnews. cbn.
        by rewrite !list_elem_of_singleton.
      * intros o2 Ho2. rewrite Hfiles'. rewrite payloads_app. cbn [payloads]. fold name.
        destruct (decide (name = AggregateObservation.Name o2)) as [Heq|Hne].
        -- rewrite <- Heq. rewrite lookup_insert_eq. rewrite ?decide_True by done.
           by rewrite payloads_absent, app_nil_l, app_nil_r_str by done.
        -- rewrite app_nil_r_str.
           rewrite lookup_insert_ne.
           ++ apply elem_of_app in Ho2 as [Ho2|Ho2%list_elem_of_singleton]; [by apply Hfiles|].
              by subst o2.
           ++ intros Hf. apply Hne. apply (Hinj o o2); [done| |done].
              apply Hsub. done.
      * intros f Hf. rewrite Hfiles', lookup_insert_ne.
        -- apply Hframe. intros o2 Ho2. apply Hf. apply elem_of_app. by left.
        -- apply Hf. apply elem_of_app. right. by left.
Qed.
End FileFacts.

(** ** The historical sink writer, observation by observation *)

(** C8: when the open of the file of an observation fails because the
    file does not exist, the writer makes the directory and the file,
    writes the header [v2 <channel>] and a newline as the first line, then
    the payload, and queues the channel for the name registry; when the
    open fails for another reason the writer panics.  Over a run on files
    that did not exist, with one file for each channel, every file begins
    with its header, followed by the payloads of its channel and nothing
    else, and the registry receives one add for each channel. *)
Theorem historical_writer `{Library} (root : string) :
  (∀ st o,
     CalculateFilename (AggregateObservation.Name o) root ∉ dom (files (disk st)) →
     let filename := CalculateFilename (AggregateObservation.Name o) root in
     ∃ st',
       appendObservation root st o noFaults = Some st'
       ∧ Dir filename ∈ dirs (disk st')
       ∧ files (disk st') !! filename
         = Some (headerLine (AggregateObservation.Name o) +:+ AggregateObservation.Content o)
       ∧ datapoints st' = datapoints st ++ [AggregateObservation.Name o])
  ∧ (∀ st o env, openFault env = true → appendObservation root st o env = None)
  ∧ (∀ st0 observations,
       (∀ o, o ∈ observations →
          CalculateFilename (AggregateObservation.Name o) root ∉ dom (files (disk st0))) →
       (∀ o1 o2, o1 ∈ observations → o2 ∈ observations →
          CalculateFilename (AggregateObservation.Name o1) root
          = CalculateFilename (AggregateObservation.Name o2) root →
          AggregateObservation.Name o1 = AggregateObservation.Name o2) →
       ∃ st news,
         appendToFile root st0 (unfaulted observations) = Some st
         ∧ datapoints st = datapoints st0 ++ news
         ∧ NoDup (saveNewDatapoints news)
         ∧ (∀ name, ("datapoints", name) ∈ saveNewDatapoints news
                    ↔ name ∈ AggregateObservation.Name <$> observations)
         ∧ (∀ o, o ∈ observations →
              files (disk st) !! CalculateFilename (AggregateObservation.Name o) root
              = Some (headerLine (AggregateObservation.Name o)
                      +:+ payloads (AggregateObservation.Name o) observations))).
Proof.
  split_and!.
  - intros st o Hnew. cbn zeta.
    destruct (appendObservation_new root st o Hnew) as (st' & Hstep & Hdir & Hfiles & Hdp).
    exists st'. split_and!; try done. by rewrite Hfiles, lookup_insert_eq.
  - apply appendObservation_fatal.
  - intros st0 observations Hfresh Hinj.
    destruct (appendToFile_once root st0 observations observations Hfresh Hinj)
      as (st & news & Hrun & Hdp & Hnd & Hnews & Hfiles & _); [done|].
    exists st, news. split_and!; try done.
    + unfold saveNewDatapoints. apply NoDup_fmap_2; [|done]. by intros ?? [= ->].
    + intros name. rewrite <- Hnews. unfold saveNewDatapoints.
      rewrite list_elem_of_fmap. split.
      * by intros (n & [= ->] & Hn).
      * intros Hn. by exists name.
Qed.

(** ** The dispatcher-fed loop of [receiver.go] *)

Lemma processDatatype_snoc (ch : list Datapoint.t) (d : Datapoint.t) :
  processDatatype (ch ++ [d]) = processDatapoint (processDatatype ch) d.
Proof. unfold processDatatype. by rewrite foldl_app. Qed.

Lemma calls_first (cs : list Call) (name : string) (m : nat) (v : float) :
  creations (cs ++ [metricCreator name m; Start m; Update m v]) = creations cs ++ [(name, m)]
  ∧ starts (cs ++ [metricCreator name m; Start m; Update m v]) = starts cs ++ [m]
  ∧ updates (cs ++ [metricCreator name m; Start m; Update m v]) = updates cs ++ [(m, v)].
Proof. unfold creations, starts, updates. by rewrite !omap_app. Qed.

Lemma calls_next (cs : list Call) (m : nat) (v : float) :
  creations (cs ++ [Update m v]) = creations cs
  ∧ starts (cs ++ [Update m v]) = starts cs
  ∧ updates (cs ++ [Update m v]) = updates cs ++ [(m, v)].
Proof.
  unfold creations, starts, updates. rewrite !omap_app. cbn. by rewrite !app_nil_r.
Qed.

Lemma processDatatype_inv (ch : list Datapoint.t) : metricsInv ch (processDatatype ch).
Proof.
  induction ch as [|d ch IH] using rev_ind.
  - split_and!; try done; cbn.
    all: try apply NoDup_nil_2.
    all: try (intros name m; rewrite lookup_empty, elem_of_nil; naive_solver).
    all: try (intros name; by rewrite !elem_of_nil).
    all: try by apply Forall2_nil.
  - rewrite processDatatype_snoc.
    destruct IH as (Hids & Hstarts & Hnd & Hmap & Hnames & Hupd).
    set (st := processDatatype ch) in *. unfold processDatapoint.
    destruct (metrics st !! Datapoint.Name d) as [m|] eqn:Hd.
    + (* the name has its object *)
      unfold metricsInv. cbn [calls metrics created].
      destruct (calls_next (calls st) m (Datapoint.Value d)) as (-> & -> & ->).
      split_and!; try done.
      * intros name. rewrite Hnames, fmap_app, elem_of_app. cbn.
        rewrite list_elem_of_singleton. split; [by left|].
        intros [Hin| ->]; [done|].
        apply Hnames. apply list_elem_of_fmap. exists (Datapoint.Name d, m).
        split; [done|]. by apply Hmap.
      * apply Forall2_app; [done|]. by apply Forall2_cons.
    + (* the first datapoint of the name *)
      assert (Hfresh : Datapoint.Name d ∉ (creations (calls st)).*1).
      { intros Hin. apply list_elem_of_fmap in Hin as ([name m] & Heq & Hin).
        cbn in Heq. subst name. apply Hmap in Hin. congruence. }
      unfold metricsInv. cbn [calls metrics created].
      destruct (calls_first (calls st) (Datapoint.Name d) (created st) (Datapoint.Value d))
        as (-> & -> & ->).
      rewrite !fmap_app. cbn [fmap list_fmap fst snd].
      split_and!.
      * rewrite Hids. by rewrite seq_S.
      * by rewrite Hstarts.
      * apply NoDup_app. split_and!; [done| |apply NoDup_singleton].
        intros name Hin Heq%list_elem_of_singleton. by subst name.
      * intros name m. rewrite elem_of_app, list_elem_of_singleton.
        destruct (decide (name = Datapoint.Name d)) as [->|Hne].
        -- rewrite lookup_insert_eq. split.
           ++ intros [= <-]. by right.
           ++ intros [Hin|[= <-]]; [|done].
              exfalso. apply Hfresh. apply list_elem_of_fmap. by exists (Datapoint.Name d, m).
        -- rewrite lookup_insert_ne by done. rewrite Hmap. split; [by left|].
           intros [Hin|[= ? ?]]; done.
      * intros name. rewrite !elem_of_app, !list_elem_of_singleton, Hnames. done.
      * apply Forall2_app.
        -- eapply Forall2_impl; [exact Hupd|]. intros d' [m' v'] [Hm' Hv'].
           split; [|done]. cbn in *.
           destruct (decide (Datapoint.Name d' = Datapoint.Name d)) as [Heq|Hne].
           ++ rewrite Heq in Hm'. congruence.
           ++ by rewrite lookup_insert_ne.
        -- apply Forall2_cons. split; [|done]. cbn. by rewrite lookup_insert_eq.
Qed.

(** C10: whatever the datapoints drained from the channel, the map holds
    one object for each name seen and no other; an object is made for a
    name once, by the first datapoint of the name, and started once;
    every datapoint, the first of its name included, is one [Update] of
    the object of its name with its value, in the order of the channel. *)
Theorem processDatatype_one_metric_per_name (ch : list Datapoint.t) :
  let st := processDatatype ch in
  NoDup ((creations (calls st)).*1)
  ∧ NoDup ((creations (calls st)).*2)
  ∧ (∀ name, name ∈ (creations (calls st)).*1 ↔ name ∈ Datapoint.Name <$> ch)
  ∧ (∀ name m, metrics st !! name = Some m ↔ (name, m) ∈ creations (calls st))
  ∧ starts (calls st) = (creations (calls st)).*2
  ∧ Forall2 (λ d u, metrics st !! Datapoint.Name d = Some u.1 ∧ u.2 = Datapoint.Value d)
      ch (updates (calls st))
  ∧ (∀ d, processDatatype (ch ++ [d])
          = processDatapoint st d
          ∧ ∃ m, metrics (processDatatype (ch ++ [d])) !! Datapoint.Name d = Some m
                 ∧ calls (processDatatype (ch ++ [d]))
                   = calls st
                     ++ (if decide (Datapoint.Name d ∈ Datapoint.Name <$> ch)
                         then [Update m (Datapoint.Value d)]
                         else [metricCreator (Datapoint.Name d) m; Start m;
                               Update m (Datapoint.Value d)])).
Proof.
  cbn zeta. destruct (processDatatype_inv ch) as (Hids & Hstarts & Hnd & Hmap & Hnames & Hupd).
  split_and!; try done.
  - rewrite Hids. apply NoDup_seq.
  - intros d. split; [apply processDatatype_snoc|].
    rewrite processDatatype_snoc. unfold processDatapoint.
    destruct (metrics (processDatatype ch) !! Datapoint.Name d) as [m|] eqn:Hd.
    + exists m. cbn [metrics calls]. split; [done|].
      rewrite decide_True; [done|].
      apply Hnames. apply list_elem_of_fmap. exists (Datapoint.Name d, m).
      split; [done|]. by apply Hmap.
    + eexists. cbn [metrics calls]. split; [by rewrite lookup_insert_eq|].
      rewrite decide_False; [done|].
      intros Hin. apply Hnames in Hin.
      apply list_elem_of_fmap in Hin as ([name m] & Heq & Hin).
      cbn in Heq. subst name. apply Hmap in Hin. congruence.
Qed.
(** ** The parser on the samples of a client *)

Section StarFirst.
Context {R : Type}.

(** A greedy repetition stays where it is when no longer run satisfies the
    continuation. *)
Lemma star_stops (p : ascii → bool) (rest : string) (k : string → option R) :
  (∀ pre' rest', pre' ≠ "" → rest = pre' +:+ rest' → allChars p pre' = true →
     k rest' = None) →
  star p rest k = k rest.
Proof.
  induction rest as [|a rest IH]; intros Hlonger; [done|]. cbn.
  destruct (p a) eqn:Ha; [|done].
  rewrite IH.
  - rewrite (Hlonger (String a "") rest); [done|done|done|]. cbn. by rewrite Ha.
  - intros pre' rest' Hne -> Hpre'.
    apply (Hlonger (String a pre') rest'); [done|done|]. cbn. by rewrite Ha.
Qed.

(** It ends on the longest run on which the continuation succeeds. *)
Lemma star_first (p : ascii → bool) (pre rest : string) (k : string → option R) (x : R) :
  allChars p pre = true → k rest = Some x →
  (∀ pre' rest', pre' ≠ "" → rest = pre' +:+ rest' → allChars p pre' = true →
     k rest' = None) →
  star p (pre +:+ rest) k = Some x.
Proof.
  intros Hpre Hk Hlonger. induction pre as [|a pre IH].
  - rewrite app_nil_l. by rewrite star_stops.
  - cbn in Hpre. apply andb_true_iff in Hpre as [Ha Hpre].
    rewrite app_cons. cbn. rewrite Ha. by rewrite IH.
Qed.
End StarFirst.

Lemma colonFreeLine_split (t p r : string) :
  colonFreeLine t = true → t = p +:+ r → allChars anyCharNotNL p = true →
  match r with String a _ => a ≠ ":"%char | EmptyString => True end.
Proof.
  revert t. induction p as [|b p IH]; intros t Ht -> Hp.
  - rewrite app_nil_l in Ht. destruct r as [|a r]; [done|]. cbn in Ht.
    destruct (Ascii.eqb a "010") eqn:Hnl.
    + apply Ascii.eqb_eq in Hnl as ->. done.
    + apply andb_true_iff in Ht as [Ha _]. apply negb_true_iff in Ha.
      by apply Ascii.eqb_neq in Ha.
  - cbn in Hp. apply andb_true_iff in Hp as [Hb Hp].
    rewrite app_cons in Ht. cbn in Ht. unfold anyCharNotNL in Hb.
    apply negb_true_iff in Hb. rewrite Hb in Ht.
    apply andb_true_iff in Ht as [_ Ht]. by eapply IH.
Qed.

Lemma colonFreeLine_app (s t : string) :
  allChars (λ c, negb (Ascii.eqb c ":")) s = true → colonFreeLine t = true →
  colonFreeLine (s +:+ t) = true.
Proof.
  intros Hs Ht. induction s as [|a s IH]; [by rewrite app_nil_l|].
  cbn in Hs. apply andb_true_iff in Hs as [Ha Hs]. rewrite app_cons. cbn.
  destruct (Ascii.eqb a "010"); [done|]. by rewrite Ha, IH.
Qed.

Lemma valueClass_not_colon (c : ascii) : valueClass c = true → negb (Ascii.eqb c ":") = true.
Proof.
  unfold valueClass, isDigit. intros Hc. apply negb_true_iff. apply Ascii.eqb_neq.
  intros ->. by vm_compute in Hc.
Qed.

(** The match at the start of a line that begins with a sample: the
    greedy name ends at the last colon that a value and a type follow,
    and the greedy value gives back the bar of the type. *)
Lemma matchHere_exact (name value datatype post : string) :
  allChars anyCharNotNL name = true →
  value ≠ "" → allChars valueClass value = true →
  datatype ∈ datatypeLetters →
  colonFreeLine post = true →
  matchHere metricRegex 3 (sample name value datatype +:+ post)
  = Some ([sample name value datatype; name; value; datatype], post).
Proof.
  intros Hname Hne Hvalue Hd Hpost.
  assert (Hfirst : ∀ t, match datatype +:+ t with
                        | String a _ => valueClass a = false ∧ a ≠ "|"%char ∧ a ≠ ":"%char
                        | EmptyString => False end).
  { intros t. unfold datatypeLetters in Hd. rewrite !elem_of_cons, elem_of_nil in Hd.
    destruct Hd as [-> | [-> | [-> | []]]]; cbn; done. }
  assert (Htail : colonFreeLine (value +:+ "|" +:+ datatype +:+ post) = true).
  { apply colonFreeLine_app; [by eapply allChars_impl; [apply valueClass_not_colon|]|].
    apply (colonFreeLine_app "|"); [done|].
    apply colonFreeLine_app; [|done].
    unfold datatypeLetters in Hd. rewrite !elem_of_cons, elem_of_nil in Hd.
    destruct Hd as [-> | [-> | [-> | []]]]; done. }
  unfold matchHere, metricRegex. cbn [backtrack].
  unfold sample. rewrite !app_assoc_str.
  apply star_first; [done| |].
  - change (":" +:+ ?t) with (String ":" t). cbn [backtrack Ascii.eqb Bool.eqb].
    destruct value as [|b v]; [done|]. cbn in Hvalue.
    apply andb_true_iff in Hvalue as [Hb Hv].
    rewrite app_cons. rewrite Hb. apply star_first; [done| |].
    + change ("|" +:+ ?t) with (String "|" t). cbn [backtrack Ascii.eqb Bool.eqb].
      rewrite (length_consumed name).
      change (String b (v +:+ String "|" (datatype +:+ post)))
        with (String b v +:+ String "|" (datatype +:+ post)).
      rewrite (length_consumed (String b v)).
      assert (Hwhole : consumed (name +:+ String ":" (String b v +:+ String "|" (datatype +:+ post))) post
                       = name +:+ ":" +:+ String b v +:+ "|" +:+ datatype).
      { replace (name +:+ String ":" (String b v +:+ String "|" (datatype +:+ post)))
          with ((name +:+ ":" +:+ String b v +:+ "|" +:+ datatype) +:+ post)
          by (by rewrite !app_assoc_str).
        apply length_consumed. }
      unfold datatypeLetters in Hd. rewrite !elem_of_cons, elem_of_nil in Hd.
      destruct Hd as [-> | [-> | [-> | []]]].
      * change ("c" +:+ post) with (String "c" post) in *.
        cbn [backtrack Ascii.eqb Bool.eqb].
        change (String "c" post) with ("c" +:+ post) in *.
        rewrite (length_consumed "c" post). cbn [fmap list_fmap seq submatch Nat.eqb].
        rewrite Hwhole. reflexivity.
      * change ("g" +:+ post) with (String "g" post) in *.
        cbn [backtrack Ascii.eqb Bool.eqb].
        change (String "g" post) with ("g" +:+ post) in *.
        rewrite (length_consumed "g" post). cbn [fmap list_fmap seq submatch Nat.eqb].
        rewrite Hwhole. reflexivity.
      * change ("ms" +:+ post) with (String "m" (String "s" post)) in *.
        cbn [backtrack Ascii.eqb Bool.eqb].
        change (String "m" (String "s" post)) with ("ms" +:+ post) in *.
        rewrite (length_consumed "ms" post). cbn [fmap list_fmap seq submatch Nat.eqb].
        rewrite Hwhole. reflexivity.
    + intros pre' rest' Hne' Heq Hpre'.
      destruct pre' as [|c pre']; [done|].
      change ("|" +:+ ?t) with (String "|" t) in Heq. rewrite app_cons in Heq.
      injection Heq as <- Heq.
      destruct pre' as [|c' pre'].
      * rewrite app_nil_l in Heq. subst rest'.
        specialize (Hfirst post). destruct (datatype +:+ post) as [|a t]; [done|].
        destruct Hfirst as (_ & Hbar & _). cbn.
        by apply Ascii.eqb_neq in Hbar as ->.
      * exfalso. specialize (Hfirst post). rewrite app_cons in Heq.
        rewrite Heq in Hfirst. destruct Hfirst as (Hc & _).
        cbn in Hpre'. rewrite Hc in Hpre'. by rewrite andb_false_r in Hpre'.
  - intros pre' rest' Hne' Heq Hpre'.
    destruct pre' as [|c pre']; [done|].
    change (":" +:+ ?t) with (String ":" t) in Heq. rewrite app_cons in Heq.
    injection Heq as <- Heq.
    cbn in Hpre'.
    pose proof (colonFreeLine_split _ pre' rest' Htail) as Hr.
    specialize (Hr Heq Hpre').
    destruct rest' as [|a t]; [done|]. cbn [backtrack].
    by apply Ascii.eqb_neq in Hr as ->.
Qed.

Lemma colonThenValue_app (p t : string) :
  colonThenValue t = true → colonThenValue (p +:+ t) = true.
Proof.
  intros Ht. induction p as [|a p IH]; [by rewrite app_nil_l|].
  rewrite app_cons. cbn [colonThenValue]. rewrite IH. apply orb_true_r.
Qed.

Lemma matchesPattern_colonThenValue (line : string) :
  matchesPattern line → colonThenValue line = true.
Proof.
  intros (pre & name & value & datatype & post & -> & _ & Hne & Hv & _).
  apply colonThenValue_app. unfold sample. rewrite !app_assoc_str.
  apply colonThenValue_app.
  destruct value as [|b v]; [done|]. cbn in Hv. apply andb_true_iff in Hv as [Hb _].
  change (":" +:+ ?t) with (String ":" t). rewrite app_cons. cbn [colonThenValue].
  by rewrite Hb.
Qed.

(** The search stops at the first position: the leftmost match. *)
Lemma findSubmatch_here (r : regex) (groups : nat) (s : string) x :
  matchHere r groups s = Some x → findSubmatch r groups s = Some x.
Proof. intros Hm. destruct s; cbn [findSubmatch]; by rewrite Hm. Qed.

Section SampleFacts.
Context `{Library}.

Lemma parseDatapoint_exact (now : Z) (name value datatype post : string) :
  allChars anyCharNotNL name = true →
  value ≠ "" → allChars valueClass value = true →
  datatype ∈ datatypeLetters →
  colonFreeLine post = true →
  parseDatapoint now (sample name value datatype +:+ post)
  = Datapoint.mk now name (ParseFloat value) datatype.
Proof.
  intros Hname Hne Hvalue Hd Hpost. unfold parseDatapoint. cbn zeta.
  pose proof (FindAllStringSubmatch_head metricRegex 3 (sample name value datatype +:+ post))
    as Hhead.
  assert (Hfind : findSubmatch metricRegex 3 (sample name value datatype +:+ post)
                  = Some ([sample name value datatype; name; value; datatype], post)).
  { apply findSubmatch_here. by apply matchHere_exact. }
  rewrite Hfind in Hhead.
  destruct (FindAllStringSubmatch metricRegex 3 _) as [|m0 ms]; [done|].
  cbn in Hhead. by injection Hhead as ->.
Qed.

(** A line in which no colon is followed by a character of the value
    class is not a datapoint. *)
Lemma parseDatapoint_no_value (now : Z) (line : string) (ch : Channels) :
  colonThenValue line = false →
  parseDatapoint now line = Datapoint.zero ∧ processIncomingMessage now line ch = ch.
Proof.
  intros Hline. destruct (parser_dispatch now line ch) as (Hiff & _ & _ & Hnot).
  apply Hnot. rewrite Hiff. intros Hm%matchesPattern_colonThenValue. congruence.
Qed.

(** What a message adds to the queues: its datapoint, at the end of the
    queue of its type. *)
Lemma processIncomingMessage_queues (now : Z) (message : string) (ch : Channels) :
  let d := [parseDatapoint now message] in
  processIncomingMessage now message ch
  = mkChannels (gaugeChannel ch ++ ofType "g" d) (counterChannel ch ++ ofType "c" d)
      (timerChannel ch ++ ofType "ms" d).
Proof.
  cbn zeta. unfold processIncomingMessage, ofType.
  set (d := parseDatapoint now message). rewrite !filter_cons, !filter_nil.
  destruct (String.eqb (Datapoint.Datatype d) "g") eqn:Hg.
  { apply String.eqb_eq in Hg. rewrite Hg.
    rewrite decide_True by done. rewrite !decide_False by done.
    by rewrite !app_nil_r. }
  apply String.eqb_neq in Hg. rewrite (decide_False (P:=_ = "g")) by done.
  destruct (String.eqb (Datapoint.Datatype d) "c") eqn:Hc.
  { apply String.eqb_eq in Hc. rewrite Hc.
    rewrite decide_True by done. rewrite !decide_False by done.
    by rewrite !app_nil_r. }
  apply String.eqb_neq in Hc. rewrite (decide_False (P:=_ = "c")) by done.
  destruct (String.eqb (Datapoint.Datatype d) "ms") eqn:Hms.
  { apply String.eqb_eq in Hms. rewrite Hms.
    rewrite decide_True by done. by rewrite !app_nil_r. }
  apply String.eqb_neq in Hms. rewrite (decide_False (P:=_ = "ms")) by done.
  rewrite !app_nil_r. by destruct ch.
Qed.
End SampleFacts.

(** X1: a line that begins with a sample [<name>:<value>|<type>], the name
    free of newlines (colons allowed), the value a non-empty run of
    digits, dots and bars, the type one of c, g and ms, and with no colon
    in what follows on the same line, parses to that name, to the float of
    that value text and to that type.  What follows the type on the line
    (a sampling rate, say) and every further line of the message are
    ignored. *)
Theorem parseDatapoint_round_trip `{Library} (now : Z) (s : string * string * string)
    (post : string) :
  wellFormed s → colonFreeLine post = true →
  parseDatapoint now (sample s.1.1 s.1.2 s.2 +:+ post) = datapointOf now s.
Proof.
  intros (Hname & Hne & Hvalue & Hd) Hpost. by apply parseDatapoint_exact.
Qed.

(** X2: a message in which no colon is directly followed by a digit, a dot
    or a bar (a signed value, a value after a space, no colon at all, the
    empty message) gives the empty datapoint and reaches no queue. *)
Theorem message_without_value_is_dropped `{Library} (now : Z) (message : string)
    (ch : Channels) :
  colonThenValue message = false →
  parseDatapoint now message = Datapoint.zero
  ∧ processIncomingMessage now message ch = ch.
Proof. apply parseDatapoint_no_value. Qed.
(** ** Lines before the sample *)

Lemma colonThenValue_app_l (s t : string) :
  colonThenValue s = true → colonThenValue (s +:+ t) = true.
Proof.
  induction s as [|a s IH]; [done|]. rewrite app_cons. cbn [colonThenValue].
  intros [Hhere|Hlater]%orb_true_iff.
  - apply andb_true_iff in Hhere as [Ha Hb]. destruct s as [|b s]; [done|].
    rewrite app_cons, Ha, Hb. done.
  - rewrite (IH Hlater). apply orb_true_r.
Qed.

(** A part without newline at the start of a text that goes on with a
    newline lies within what is before the newline. *)
Lemma prefix_before_newline (n x q rest : string) :
  allChars anyCharNotNL n = true →
  n +:+ x = q +:+ newline +:+ rest → ∃ q2, q = n +:+ q2 ∧ x = q2 +:+ newline +:+ rest.
Proof.
  revert q. induction n as [|a n IH]; intros q Hn Heq.
  - exists q. by rewrite !app_nil_l in *.
  - cbn in Hn. apply andb_true_iff in Hn as [Ha Hn]. rewrite app_cons in Heq.
    destruct q as [|b q].
    + rewrite app_nil_l in Heq. injection Heq as -> _. done.
    + rewrite app_cons in Heq. injection Heq as -> Heq.
      destruct (IH q Hn Heq) as (q2 & -> & ->). by exists q2.
Qed.

(** No match begins on a line that has no colon followed by a character
    of the value class. *)
Lemma no_match_on_line (q rest : string) :
  colonThenValue (q +:+ newline) = false →
  matchHere metricRegex 3 (q +:+ newline +:+ rest) = None.
Proof.
  intros Hq. destruct (matchHere metricRegex 3 (q +:+ newline +:+ rest)) as [[m r]|] eqn:Hm;
    [|done].
  exfalso. apply matchHere_sound in Hm
    as (name & value & datatype & Heq & Hname & Hne & Hvalue & _ & _).
  unfold sample in Heq. rewrite !app_assoc_str in Heq. symmetry in Heq.
  destruct (prefix_before_newline _ _ _ _ Hname Heq) as (q2 & -> & Hx).
  destruct value as [|b v]; [done|]. cbn in Hvalue.
  apply andb_true_iff in Hvalue as [Hb _].
  change (":" +:+ ?t) with (String ":" t) in Hx. rewrite app_cons in Hx.
  destruct q2 as [|c q2]; [by rewrite app_nil_l in Hx|].
  rewrite app_cons in Hx. injection Hx as <- Hx.
  destruct q2 as [|c q2].
  { rewrite app_nil_l in Hx. injection Hx as -> _. done. }
  rewrite app_cons in Hx. injection Hx as <- _.
  rewrite app_assoc_str, colonThenValue_app in Hq; [done|].
  rewrite !app_cons. cbn [colonThenValue]. by rewrite Hb.
Qed.

Lemma findSubmatch_skips_lines (pre rest : string) :
  colonThenValue pre = false → (pre = "" ∨ ∃ q, pre = q +:+ newline) →
  findSubmatch metricRegex 3 (pre +:+ rest) = findSubmatch metricRegex 3 rest.
Proof.
  induction pre as [|a pre IH]; intros Hpre Hend; [by rewrite app_nil_l|].
  destruct Hend as [|[q Hq]]; [done|].
  rewrite app_cons. cbn [findSubmatch].
  assert (Hm : matchHere metricRegex 3 (String a (pre +:+ rest)) = None).
  { rewrite <- app_cons, Hq, app_assoc_str. apply no_match_on_line. by rewrite <- Hq. }
  rewrite Hm. apply IH.
  - cbn [colonThenValue] in Hpre. by apply orb_false_iff in Hpre as [_ ?].
  - destruct q as [|b q].
    + rewrite app_nil_l in Hq. injection Hq as _ ->. by left.
    + rewrite app_cons in Hq. injection Hq as _ ->. right. by exists q.
Qed.

(** X3: in a message of several lines the first line that holds a sample
    is the one that counts.  Lines in which no colon is followed by a
    digit, a dot or a bar are passed over, and when the next line begins
    with a well-formed sample with no colon after it, the message parses
    to that sample; whatever follows that line is ignored. *)
Theorem parseDatapoint_first_sample_line `{Library} (now : Z) (pre : string)
    (s : string * string * string) (post : string) :
  colonThenValue pre = false → (pre = "" ∨ ∃ q, pre = q +:+ newline) →
  wellFormed s → colonFreeLine post = true →
  parseDatapoint now (pre +:+ sample s.1.1 s.1.2 s.2 +:+ post) = datapointOf now s.
Proof.
  intros Hpre Hend (Hname & Hne & Hvalue & Hd) Hpost.
  pose proof (parseDatapoint_exact now s.1.1 s.1.2 s.2 post Hname Hne Hvalue Hd Hpost) as Hexact.
  unfold parseDatapoint in *. cbn zeta in *.
  pose proof (FindAllStringSubmatch_head metricRegex 3 (pre +:+ sample s.1.1 s.1.2 s.2 +:+ post))
    as H1.
  pose proof (FindAllStringSubmatch_head metricRegex 3 (sample s.1.1 s.1.2 s.2 +:+ post)) as H2.
  rewrite findSubmatch_skips_lines in H1 by done. rewrite <- H2 in H1.
  destruct (FindAllStringSubmatch metricRegex 3 (pre +:+ sample s.1.1 s.1.2 s.2 +:+ post))
    as [|m1 ms1];
    destruct (FindAllStringSubmatch metricRegex 3 (sample s.1.1 s.1.2 s.2 +:+ post))
      as [|m2 ms2]; cbn in H1; try done.
  by injection H1 as ->.
Qed.
(** ** The UDP listener *)

Lemma ReadFrom_app_long (n : nat) (p q : string) :
  (n ≤ String.length p)%nat → ReadFrom n (p +:+ q) = ReadFrom n p.
Proof.
  revert p. induction n as [|n IH]; intros p Hn; [by destruct p, q|].
  destruct p as [|a p]; [cbn in Hn; lia|]. rewrite app_cons. cbn.
  rewrite IH; [done|]. cbn in Hn. lia.
Qed.

Lemma ReadFrom_short (n : nat) (p : string) :
  (String.length p ≤ n)%nat → ReadFrom n p = p.
Proof.
  revert n. induction p as [|a p IH]; intros n Hn; [by destruct n|].
  destruct n as [|n]; [cbn in Hn; lia|]. cbn. rewrite IH; [done|]. cbn in Hn. lia.
Qed.

Lemma countChar_ReadFrom (c : ascii) (n : nat) (s : string) :
  countChar c s = 0%nat → countChar c (ReadFrom n s) = 0%nat.
Proof.
  revert s. induction n as [|n IH]; intros s Hs; [by destruct s|].
  destruct s as [|a s]; [done|]. cbn in *.
  destruct (Ascii.eqb a c); [lia|]. cbn in *. by apply IH.
Qed.

Lemma colonThenValue_no_colon (s : string) :
  countChar ":" s = 0%nat → colonThenValue s = false.
Proof.
  induction s as [|a s IH]; [done|]. cbn [countChar colonThenValue].
  destruct (Ascii.eqb a ":"); [cbn; lia|]. cbn. apply IH.
Qed.

Lemma ofType_cons (datatype : string) (d : Datapoint.t) (ds : list Datapoint.t) :
  ofType datatype (d :: ds) = ofType datatype [d] ++ ofType datatype ds.
Proof. unfold ofType. by rewrite (filter_app _ [d] ds). Qed.

Section UDP.
Context `{Library}.

Lemma bindUDP_cons (r : Read) (reads : list Read) (ch : Channels) :
  bindUDP (r :: reads) ch
  = bindUDP reads
      match r with
      | Datagram now payload => processIncomingMessage now (ReadFrom readLen payload) ch
      | ReadError => ch
      end.
Proof. done. Qed.

Lemma bindUDP_queues (reads : list Read) (ch : Channels) :
  bindUDP reads ch
  = mkChannels (gaugeChannel ch ++ ofType "g" (datapointsRead reads))
      (counterChannel ch ++ ofType "c" (datapointsRead reads))
      (timerChannel ch ++ ofType "ms" (datapointsRead reads)).
Proof.
  revert ch. induction reads as [|r reads IH]; intros ch.
  - cbn. rewrite !app_nil_r. by destruct ch.
  - rewrite bindUDP_cons, IH. destruct r as [now payload|].
    + rewrite processIncomingMessage_queues. cbn [gaugeChannel counterChannel timerChannel].
      unfold datapointsRead. cbn [omap list_omap]. fold (datapointsRead reads).
      f_equal; rewrite <- app_assoc; f_equal; symmetry; apply ofType_cons.
    + done.
Qed.
End UDP.

(** X4: the loop of [bindUDP] puts on each queue, after what the queue
    held and in the order of arrival, the datapoints of its type among
    those parsed from the first 256 bytes of each datagram; a failed read
    adds nothing. *)
Theorem bindUDP_queues_in_order `{Library} (reads : list Read) (ch : Channels) :
  let ds := datapointsRead reads in
  gaugeChannel (bindUDP reads ch) = gaugeChannel ch ++ ofType "g" ds
  ∧ counterChannel (bindUDP reads ch) = counterChannel ch ++ ofType "c" ds
  ∧ timerChannel (bindUDP reads ch) = timerChannel ch ++ ofType "ms" ds.
Proof. cbn zeta. by rewrite bindUDP_queues. Qed.

(** X5: the buffer of [bindUDP] holds 256 bytes, so a datagram whose first
    256 bytes hold no colon is dropped whatever follows them: a sample
    whose name has 256 bytes or more is never queued. *)
Theorem bindUDP_long_name_dropped `{Library} (now : Z) (name rest : string)
    (reads : list Read) (ch : Channels) :
  (readLen ≤ String.length name)%nat → countChar ":" name = 0%nat →
  bindUDP (Datagram now (name +:+ rest) :: reads) ch = bindUDP reads ch.
Proof.
  intros Hlong Hname. rewrite bindUDP_cons. f_equal.
  rewrite ReadFrom_app_long by done.
  apply parseDatapoint_no_value. apply colonThenValue_no_colon.
  by apply countChar_ReadFrom.
Qed.

(** X6: a client that sends well-formed samples over UDP, one to a
    datagram of at most 256 bytes, gets every one of them queued: each
    queue receives, in the order of arrival, the datapoints of its type,
    with the name, the parsed value text and the clock of their
    datagram. *)
Theorem bindUDP_samples `{Library} (sent : list (Z * (string * string * string)))
    (ch : Channels) :
  Forall (λ ns, wellFormed ns.2
                ∧ (String.length (sample ns.2.1.1 ns.2.1.2 ns.2.2) ≤ readLen)%nat) sent →
  let ds := (λ ns, datapointOf ns.1 ns.2) <$> sent in
  bindUDP ((λ ns, Datagram ns.1 (sample ns.2.1.1 ns.2.1.2 ns.2.2)) <$> sent) ch
  = mkChannels (gaugeChannel ch ++ ofType "g" ds) (counterChannel ch ++ ofType "c" ds)
      (timerChannel ch ++ ofType "ms" ds).
Proof.
  intros Hsent. cbn zeta. rewrite bindUDP_queues.
  assert (Hds : datapointsRead
                  ((λ ns, Datagram ns.1 (sample ns.2.1.1 ns.2.1.2 ns.2.2)) <$> sent)
                = (λ ns, datapointOf ns.1 ns.2) <$> sent).
  { induction Hsent as [|[now s] sent [(Hname & Hne & Hvalue & Hd) Hlen] Hsent IH]; [done|].
    rewrite !fmap_cons. unfold datapointsRead in *. cbn [omap list_omap fst snd] in *.
    rewrite IH. f_equal. rewrite ReadFrom_short by done.
    rewrite <- (app_nil_r_str (sample _ _ _)). by apply parseDatapoint_exact. }
  by rewrite Hds.
Qed.
(** ** The TCP listener *)

Lemma ReadBytes_line (text rest : string) :
  allChars anyCharNotNL text = true →
  ReadBytes "010" (text +:+ newline +:+ rest) = Some (text +:+ newline, rest).
Proof.
  intros Htext. induction text as [|a text IH]; [done|].
  cbn in Htext. apply andb_true_iff in Htext as [Ha Htext].
  rewrite !app_cons. cbn [ReadBytes]. unfold anyCharNotNL in Ha.
  apply negb_true_iff in Ha. rewrite Ha, (IH Htext). done.
Qed.

Lemma ReadBytes_tail (tail : string) :
  allChars anyCharNotNL tail = true → ReadBytes "010" tail = None.
Proof.
  intros Htail. induction tail as [|a tail IH]; [done|].
  cbn in Htail. apply andb_true_iff in Htail as [Ha Htail].
  cbn [ReadBytes]. unfold anyCharNotNL in Ha.
  apply negb_true_iff in Ha. rewrite Ha, (IH Htail). done.
Qed.

Lemma joined_cons (s : string) (l : list string) : joined (s :: l) = s +:+ joined l.
Proof. done. Qed.

Lemma length_joined_lines (texts : list string) (tail : string) :
  (length texts
   ≤ String.length (joined ((λ t, t +:+ newline) <$> texts) +:+ tail))%nat.
Proof.
  induction texts as [|t texts IH]; [cbn; lia|].
  rewrite fmap_cons, joined_cons, !length_app_str in *.
  change (String.length newline) with 1%nat. cbn [length]. lia.
Qed.

(** Every stream is a sequence of lines, each ended by its newline, and a
    rest without newline. *)
Lemma stream_lines (stream : string) :
  ∃ texts tail,
    stream = joined ((λ t, t +:+ newline) <$> texts) +:+ tail
    ∧ Forall (λ t, allChars anyCharNotNL t = true) texts
    ∧ allChars anyCharNotNL tail = true.
Proof.
  induction stream as [|a stream (texts & tail & -> & Htexts & Htail)].
  - by exists [], "".
  - destruct (anyCharNotNL a) eqn:Ha.
    + destruct texts as [|t texts].
      * exists [], (String a tail). split_and!; [done|done|]. cbn. by rewrite Ha.
      * exists (String a t :: texts), tail. split_and!; [done| |done].
        apply Forall_cons in Htexts as [Ht Htexts]. apply Forall_cons.
        split; [|done]. cbn. by rewrite Ha.
    + exists ("" :: texts), tail. split_and!; [|by apply Forall_cons|done].
      unfold anyCharNotNL in Ha. apply negb_false_iff, Ascii.eqb_eq in Ha as ->. done.
Qed.

Section TCP.
Context `{Library}.

(** The lines of a client, each with its number, one after the other. *)
Lemma serveClient_lines (clock : nat → Z) (texts : list string) (tail : string) :
  Forall (λ t, allChars anyCharNotNL t = true) texts →
  allChars anyCharNotNL tail = true →
  ∀ (fuel k : nat) (ch : Channels), (length texts < fuel)%nat →
    serveClient fuel clock k (joined ((λ t, t +:+ newline) <$> texts) +:+ tail) ch
    = foldl (λ ch kt, processIncomingMessage (clock kt.1) (kt.2 +:+ newline) ch) ch
        (imap (λ j t, ((k + j)%nat, t)) texts).
Proof.
  intros Htexts Htail. induction Htexts as [|t texts Ht Htexts IH]; intros fuel k ch Hfuel.
  - destruct fuel as [|fuel]; [cbn in Hfuel; lia|]. cbn [serveClient fmap list_fmap joined foldr].
    rewrite app_nil_l, ReadBytes_tail by done. done.
  - destruct fuel as [|fuel]; [cbn in Hfuel; lia|].
    rewrite fmap_cons, joined_cons. cbn [serveClient].
    rewrite !app_assoc_str, ReadBytes_line by done.
    rewrite IH by (cbn in Hfuel; lia).
    cbn [imap foldl fst snd]. rewrite Nat.add_0_r. f_equal.
    apply imap_ext. intros j x _. cbn. f_equal. lia.
Qed.

Lemma handleClient_lines (clock : nat → Z) (texts : list string) (tail : string)
    (ch : Channels) :
  Forall (λ t, allChars anyCharNotNL t = true) texts →
  allChars anyCharNotNL tail = true →
  handleClient clock (joined ((λ t, t +:+ newline) <$> texts) +:+ tail) ch
  = foldl (λ ch kt, processIncomingMessage (clock kt.1) (kt.2 +:+ newline) ch) ch
      (imap pair texts).
Proof.
  intros Htexts Htail. unfold handleClient.
  rewrite (serveClient_lines clock texts tail Htexts Htail).
  - f_equal.
  - pose proof (length_joined_lines texts tail). lia.
Qed.

Lemma sample_one_line (s : string * string * string) :
  wellFormed s → allChars anyCharNotNL (sample s.1.1 s.1.2 s.2) = true.
Proof.
  intros (Hname & _ & Hvalue & Hd). unfold sample.
  assert (Hv : allChars anyCharNotNL s.1.2 = true).
  { eapply allChars_impl; [|exact Hvalue]. intros c Hc. unfold anyCharNotNL.
    apply negb_true_iff, Ascii.eqb_neq. intros ->. by vm_compute in Hc. }
  rewrite !allChars_app, Hname, Hv. cbn [andb].
  unfold datatypeLetters in Hd. rewrite !elem_of_cons, elem_of_nil in Hd.
  destruct Hd as [-> | [-> | [-> | []]]]; done.
Qed.

(** The queues after the lines of well-formed samples. *)
Lemma samples_queued (clock : nat → Z) (samples : list (string * string * string)) :
  Forall wellFormed samples →
  ∀ (k : nat) (ch : Channels),
    let ds := imap (λ j s, datapointOf (clock (k + j)%nat) s) samples in
    foldl (λ ch kt, processIncomingMessage (clock kt.1) (kt.2 +:+ newline) ch) ch
      (imap (λ j t, ((k + j)%nat, t)) ((λ s, sample s.1.1 s.1.2 s.2) <$> samples))
    = mkChannels (gaugeChannel ch ++ ofType "g" ds) (counterChannel ch ++ ofType "c" ds)
        (timerChannel ch ++ ofType "ms" ds).
Proof.
  intros Hsamples. induction Hsamples as [|s samples Hs Hsamples IH]; intros k ch.
  - cbn. rewrite !app_nil_r. by destruct ch.
  - cbn zeta. rewrite fmap_cons. cbn [imap foldl fst snd].
    rewrite Nat.add_0_r.
    rewrite (imap_ext _ (λ j t, ((S k + j)%nat, t))) by (intros j x _; cbn; f_equal; lia).
    rewrite IH. cbn zeta.
    rewrite processIncomingMessage_queues. cbn [gaugeChannel counterChannel timerChannel].
    destruct Hs as (Hname & Hne & Hvalue & Hd).
    rewrite (parseDatapoint_exact (clock k) s.1.1 s.1.2 s.2 newline) by done.
    fold (datapointOf (clock k) s).
    rewrite (imap_ext (λ j s0, datapointOf (clock (S k + j)%nat) s0)
               ((λ j s0, datapointOf (clock (k + j)%nat) s0) ∘ S))
      by (intros j x _; cbn; do 2 f_equal; lia).
    f_equal; rewrite <- app_assoc; f_equal; symmetry; apply ofType_cons.
Qed.
End TCP.

(** X7: the goroutine of a TCP client passes to the parser, one by one and
    in order, the lines of the stream that end in a newline, each with its
    newline; what the client sent after its last newline is never parsed.
    Every stream splits in this way. *)
Theorem handleClient_line_by_line `{Library} (clock : nat → Z) (stream : string)
    (ch : Channels) :
  ∃ texts tail,
    stream = joined ((λ t, t +:+ newline) <$> texts) +:+ tail
    ∧ Forall (λ t, allChars anyCharNotNL t = true) texts
    ∧ allChars anyCharNotNL tail = true
    ∧ handleClient clock stream ch
      = foldl (λ ch kt, processIncomingMessage (clock kt.1) (kt.2 +:+ newline) ch) ch
          (imap pair texts)
    ∧ handleClient clock stream ch
      = handleClient clock (joined ((λ t, t +:+ newline) <$> texts)) ch.
Proof.
  destruct (stream_lines stream) as (texts & tail & -> & Htexts & Htail).
  exists texts, tail. split_and!; try done.
  - by apply handleClient_lines.
  - rewrite handleClient_lines by done.
    rewrite <- (app_nil_r_str (joined ((λ t, t +:+ newline) <$> texts))).
    by rewrite handleClient_lines.
Qed.

(** X8: a TCP client that sends well-formed samples, one to a line, gets
    every one of them queued: each queue receives, in the order of the
    lines, the datapoints of its type, with the name, the parsed value
    text and the clock of their line; a last sample without a newline is
    lost. *)
Theorem handleClient_samples `{Library} (clock : nat → Z)
    (samples : list (string * string * string)) (tail : string) (ch : Channels) :
  Forall wellFormed samples → allChars anyCharNotNL tail = true →
  let ds := imap (λ k s, datapointOf (clock k) s) samples in
  handleClient clock (joined (wire <$> samples) +:+ tail) ch
  = mkChannels (gaugeChannel ch ++ ofType "g" ds) (counterChannel ch ++ ofType "c" ds)
      (timerChannel ch ++ ofType "ms" ds).
Proof.
  intros Hsamples Htail. cbn zeta.
  replace (wire <$> samples)
    with ((λ t, t +:+ newline) <$> ((λ s, sample s.1.1 s.1.2 s.2) <$> samples))
    by (by rewrite <- list_fmap_compose).
  rewrite handleClient_lines; [|by apply Forall_fmap, (Forall_impl _ _ _ Hsamples), sample_one_line|done].
  apply (samples_queued clock samples Hsamples 0).
Qed.
(** ** The engines over any traffic *)

Section EngineFacts.
Context `{Library} {A : Type} `{Accumulator A}.
Implicit Types (w : Wheel A) (bucket : gmap string A).

Lemma length_merge (rows : list (list (list Sent))) (n : nat) : length (merge rows n) = n.
Proof. unfold merge. by rewrite length_fmap, length_seq. Qed.

(** With retentions of one second or more no turn of the loop panics. *)
Lemma engine_total (retentions : list Z) (events : list Event) :
  Forall validRetention retentions →
  ∃ (ws : list (Wheel A)) outs,
    engine retentions events = Some (ws, outs)
    ∧ length ws = length retentions ∧ length outs = length events.
Proof.
  intros Hvalid. unfold engine.
  destruct (newWheels_spec (A:=A) retentions Hvalid) as (ws0 & Hnew & Hok & Hlen & _).
  rewrite Hnew. cbn [mbind option_bind].
  destruct (run_views ws0 events Hok) as (views & Hrun & Hlenv & _).
  rewrite Hrun. eexists _, _. split_and!; [done| |apply length_merge].
  by rewrite length_fmap, Hlenv.
Qed.

Lemma heartbeat_panics (j : nat) (clock : nat → Z * Z) (ws : list (Wheel A)) :
  Exists (λ w, ∀ i t1 t2, tick i t1 t2 w = None) ws → heartbeat j clock ws = None.
Proof.
  intros Hex. revert j. induction Hex as [w ws Hw|w ws Hex IH]; intros j.
  - cbn [heartbeat]. by rewrite Hw.
  - cbn [heartbeat]. destruct (tick j _ _ w) as [[w' out]|]; [|done].
    cbn. by rewrite IH.
Qed.

(** An interval below one second: the set-up panics on a negative number
    of slots, and with no slot at all the first datapoint or heartbeat
    divides by zero. *)
Lemma engine_bad_interval (retentions : list Z) (events : list Event) (r : Z) :
  r ∈ retentions → r < 0 ∨ (r = 0 ∧ events ≠ []) →
  engine (A:=A) retentions events = None.
Proof.
  intros Hr Hbad. unfold engine.
  destruct (newWheels (A:=A) retentions) as [ws|] eqn:Hnew; [|done].
  cbn [mbind option_bind].
  apply mapM_Some_1 in Hnew.
  apply list_elem_of_lookup in Hr as [i Hi].
  destruct (Forall2_lookup_l _ _ _ _ _ Hnew Hi) as (w & Hw & Hnw).
  unfold newWheel, heartbeatInterval in Hnw. rewrite Z.quot_1_r in Hnw.
  destruct Hbad as [Hneg|[-> Hevents]].
  - rewrite decide_False in Hnw by lia. done.
  - rewrite decide_True in Hnw by lia. injection Hnw as <-.
    destruct events as [|e events]; [done|]. cbn [run].
    assert (Hstep : step ws e = None); [|by rewrite Hstep].
    assert (Hin : mkWheel (A:=A) 0 0 0 (replicate (Z.to_nat 0) ∅) ∈ ws)
      by (by eapply list_elem_of_lookup_2).
    destruct e as [d|clock]; cbn [step].
    + assert (Hnone : mapM (receive d) ws = None); [|by rewrite Hnone].
      apply mapM_None_2, Exists_exists. eexists. split; [exact Hin|]. done.
    + apply heartbeat_panics, Exists_exists. eexists. split; [exact Hin|]. done.
Qed.

Lemma held_lookup w name value :
  held w name = Some value →
  ∃ (j : nat) bucket, buckets w !! j = Some bucket ∧ bucket !! name = Some value.
Proof.
  unfold held, index. intros Hheld.
  destruct (hashSlot name (maxSlot w)) as [h|]; [|done]. cbn in Hheld.
  destruct (decide (0 ≤ h)); [|done].
  destruct (buckets w !! Z.to_nat h) as [bucket|] eqn:Hb; [|done]. cbn in Hheld.
  by exists (Z.to_nat h), bucket.
Qed.
End EngineFacts.

(** X9: with retention intervals of one second or more, [processCounters]
    and [processTimers] go through any sequence of datapoints and
    heartbeats without a panic (no index out of range, no division by
    zero), keep one wheel for each retention, and answer each event. *)
Theorem engines_never_panic `{Library} (retentions : list Z) (events : list Event) :
  Forall validRetention retentions →
  (∃ ws outs, processCounters retentions events = Some (ws, outs)
              ∧ length ws = length retentions ∧ length outs = length events)
  ∧ (∃ ws outs, processTimers retentions events = Some (ws, outs)
                ∧ length ws = length retentions ∧ length outs = length events).
Proof. intros Hvalid. split; by apply engine_total. Qed.

(** X10: a retention with a negative interval makes both engines panic at
    their set-up ([make] of a negative length); a retention with the
    interval 0 makes them panic at the first datapoint or heartbeat (a
    remainder by zero). *)
Theorem engines_panic_on_bad_interval `{Library} (retentions : list Z)
    (events : list Event) (r : Z) :
  r ∈ retentions → r < 0 ∨ (r = 0 ∧ events ≠ []) →
  processCounters retentions events = None ∧ processTimers retentions events = None.
Proof. intros Hr Hbad. split; by eapply engine_bad_interval. Qed.

(** X11: in every state an engine reaches, a name is held by one slot only
    of each wheel, the slot its hash selects: an entry found in slot [j]
    hashes to [j], it is what the wheel holds for the name, and no other
    slot has an entry for the name. *)
Theorem names_stay_in_their_hash_slot `{Library} {A : Type} `{Accumulator A}
    (retentions : list Z) (ws : list (Wheel A)) (i j : nat) (w : Wheel A)
    (bucket : gmap string A) (name : string) (value : A) :
  Forall validRetention retentions → Reachable retentions ws →
  ws !! i = Some w → buckets w !! j = Some bucket → bucket !! name = Some value →
  hashSlot name (maxSlot w) = Some (Z.of_nat j)
  ∧ held w name = Some value
  ∧ ∀ (j' : nat) bucket', buckets w !! j' = Some bucket' → is_Some (bucket' !! name) → j' = j.
Proof.
  intros Hvalid Hreach Hi Hj Hname.
  destruct (Reachable_invariants retentions ws Hvalid Hreach) as [_ Hinv].
  destruct (Hinv i w Hi) as (Hok & Hkeys & _ & _).
  assert (Hh : hashSlot name (maxSlot w) = Some (Z.of_nat j)).
  { apply (Hkeys j bucket name Hj). by rewrite Hname. }
  split_and!; [done| |].
  - by rewrite (held_bucket w name j bucket Hh Hj).
  - intros j' bucket' Hj' Hname'. pose proof (Hkeys j' bucket' name Hj' Hname') as Hh'.
    rewrite Hh in Hh'. injection Hh' as Hh'. lia.
Qed.

(** X12: a datapoint is counted in every retention at once and sends
    nothing: in each wheel it is added to what the wheel holds for its
    name, the other names and the slot pointer being left as they are. *)
Theorem datapoint_feeds_every_retention `{Library} {A : Type} `{Accumulator A}
    (retentions : list Z) (ws : list (Wheel A)) (d : Datapoint.t) :
  Forall validRetention retentions → Reachable retentions ws →
  ∃ ws',
    step ws (Receive d) = Some (ws', [])
    ∧ length ws' = length ws
    ∧ ∀ i w, ws !! i = Some w →
        ∃ w', ws' !! i = Some w'
              ∧ currentSlot w' = currentSlot w
              ∧ held w' (Datapoint.Name d)
                = Some (accumulate (held w (Datapoint.Name d)) (Datapoint.Value d))
              ∧ ∀ name, name ≠ Datapoint.Name d → held w' name = held w name.
Proof.
  intros Hvalid Hreach.
  destruct (Reachable_invariants retentions ws Hvalid Hreach) as [_ Hinv].
  assert (Hok : Forall wheelOk ws) by (by eapply Reachable_wheelsOk).
  destruct (receive_views d ws Hok) as (ws' & HmapM & Hlen & Hviews).
  exists ws'. split_and!; [by cbn; rewrite HmapM|done|].
  intros i w Hi. destruct (Hviews i w Hi) as (w' & Hw' & Hrecv).
  destruct (Hinv i w Hi) as (Hokw & Hkeys & _ & _).
  exists w'. split_and!; [done| | |].
  - destruct (stepWheel_shape i w (Receive d) w' []) as (_ & _ & Hcur); [done| |done].
    cbn. by rewrite Hrecv.
  - rewrite (receive_held d w w' _ Hokw Hkeys Hrecv). by rewrite decide_True.
  - intros name Hne. rewrite (receive_held d w w' _ Hokw Hkeys Hrecv).
    by rewrite decide_False.
Qed.
(** ** The samples of a timer over one revolution *)

Section TimerAccounts.
Context `{Library}.

Lemma timers_pending (a : option (list float)) (vs : list float) :
  pending a vs = match vs with [] => a | _ => Some (default [] a ++ vs) end.
Proof.
  revert a. induction vs as [|v vs IH]; intros a; [done|].
  rewrite pending_cons, IH. cbn [accumulate timerAccumulator].
  destruct vs as [|v' vs]; [done|]. cbn [default from_option id]. by rewrite <- app_assoc.
Qed.

Lemma timers_always_ready (old : option (list float)) (v : float) :
  ready (accumulate old v) = true.
Proof.
  cbn [ready accumulate timerAccumulator]. apply bool_decide_eq_true.
  rewrite length_app. cbn. lia.
Qed.

Lemma timers_ready (l : list float) : l ≠ [] → ready (A:=list float) l = true.
Proof.
  intros Hl. cbn [ready timerAccumulator]. apply bool_decide_eq_true.
  destruct l; [done|cbn; lia].
Qed.
End TimerAccounts.

(** X13: over a window of [interval] heartbeats the slot of a timer name
    is flushed once.  The samples the name receives in the window split
    in two, those before the flush and those after it: the one observation
    sent for the name aggregates the samples the slot held when the window
    began followed by the samples before the flush, in the order of their
    arrival (no observation when there is none), and the samples after the
    flush are what the slot holds when the window ends.  No sample is lost
    and none is reported twice. *)
Theorem timer_samples_conservation `{Library}
    (retentions : list Z) (ws : list (Wheel (list float))) (events : list Event)
    (name : string) :
  Forall validRetention retentions → Reachable retentions ws →
  ∃ views : list (Wheel (list float) * list (list Sent)),
    run ws events = Some (views.*1, merge (views.*2) (length events))
    ∧ ∀ i w, ws !! i = Some w → Z.of_nat (ticks events) = interval w →
        ∃ w' outs before after ts,
          views !! i = Some (w', outs)
          ∧ inputsFor name events = before ++ after
          ∧ sentOf (A:=list float) i (interval w) name (concat outs)
            = (let samples := default [] (held w name) ++ before in
               if decide (samples = []) then []
               else [observation i (interval w) ts name samples])
          ∧ held w' name = (if decide (after = []) then None else Some after).
Proof.
  intros Hvalid Hreach.
  destruct (Reachable_invariants retentions ws Hvalid Hreach) as [_ Hinv].
  destruct (run_views ws events) as (views & Hrun & _ & Hviews).
  { by eapply Reachable_wheelsOk. }
  exists views. split; [done|].
  intros i w Hi Hticks.
  destruct (Hviews i w Hi) as ([w' outs] & Hv & Hrw).
  destruct (Hinv i w Hi) as (Hok & Hkeys & _ & Hready).
  specialize (Hready timers_always_ready).
  destruct (revolution i w events w' outs name Hok Hkeys)
    as (before & after & ts & Hin & Hsent & Hheld).
  { destruct Hok as (_ & -> & _). done. }
  { done. }
  exists w', outs, before, after, ts. split_and!; [done|done| |].
  - rewrite Hsent, timers_pending. cbn zeta.
    destruct (held w name) as [l|] eqn:Hl.
    + destruct (held_lookup w name l Hl) as (j & bucket & Hj & Hb).
      pose proof (Hready j bucket name l Hj Hb) as Hr.
      assert (Hne : l ≠ []).
      { intros ->. by vm_compute in Hr. }
      cbn [default from_option id]. rewrite decide_False by (by destruct l).
      destruct before as [|v before].
      * rewrite app_nil_r. cbn [flushOf]. by rewrite Hr.
      * cbn [flushOf]. by rewrite timers_ready by (by destruct l).
    + cbn [default from_option id app]. destruct before as [|v before]; [done|].
      rewrite decide_False by done. cbn [flushOf].
      by rewrite timers_ready.
  - rewrite Hheld, !timers_pending.
    assert (Hflushed : afterFlush (A:=list float)
                         match before with
                         | [] => held w name
                         | _ :: _ => Some (default [] (held w name) ++ before)
                         end = None).
    { destruct before as [|v before].
      - destruct (held w name) as [l|] eqn:Hl; [|done].
        destruct (held_lookup w name l Hl) as (j & bucket & Hj & Hb).
        cbn [afterFlush]. by rewrite (Hready j bucket name l Hj Hb).
      - cbn [afterFlush]. rewrite timers_ready; [done|].
        by destruct (default [] (held w name)). }
    rewrite Hflushed. destruct after as [|v after]; [done|].
    by rewrite decide_False.
Qed.

(** ** The clock of a heartbeat *)

(** X14: the timestamp of a flush is computed from two readings of the
    clock.  When the second changes between them (the first reading is
    [t], the second [t + 1]) and the interval is two seconds or more, the
    observations of the heartbeat are stamped one second before a multiple
    of the interval, not on it. *)
Theorem timestamp_across_second_boundary `{Library} {A : Type} `{Accumulator A}
    (i : nat) (t : Z) (w : Wheel A) :
  wheelOk w → 2 ≤ interval w → 0 ≤ t < 2 ^ 63 - 1 →
  ∃ w' bucket ts,
    buckets w !! Z.to_nat (currentSlot w) = Some bucket
    ∧ tick i t (t + 1) w
      = Some (w', uncurry (observation i (interval w) ts) <$> readyEntries bucket)
    ∧ alignedTimestamp t (t + 1) (interval w) = Some ts
    ∧ ts `mod` interval w = interval w - 1
    ∧ t - interval w < ts ≤ t.
Proof.
  intros Hok Hr Ht. destruct (tick_spec i t (t + 1) w Hok) as (bucket & Hb & Htick).
  pose proof Hok as ([_ Hmax] & _).
  eexists _, bucket, _.
  split; [done|]. split; [exact Htick|]. split; [|split].
  - unfold alignedTimestamp. by rewrite decide_False by lia.
  - set (r := interval w) in *. rewrite Z.rem_mod_nonneg by lia.
    assert (Hm : 0 ≤ (t + 1) `mod` r < r) by (apply Z.mod_pos_bound; lia).
    rewrite wrap64_small by lia.
    assert (Hdm : t + 1 = r * ((t + 1) `div` r) + (t + 1) `mod` r) by (apply Z.div_mod; lia).
    replace (t - (t + 1) `mod` r) with ((r - 1) + ((t + 1) `div` r - 1) * r) by lia.
    rewrite Z.mod_add by lia. apply Z.mod_small. lia.
  - set (r := interval w) in *. rewrite Z.rem_mod_nonneg by lia.
    assert (Hm : 0 ≤ (t + 1) `mod` r < r) by (apply Z.mod_pos_bound; lia).
    rewrite wrap64_small by lia. lia.
Qed.
(** ** The samples of a timer over any run *)

Section TimerRuns.
Context `{Library}.
Implicit Types (w : Wheel (list float)).

Lemma timers_held_nonempty w name l :
  allReady w → held w name = Some l → l ≠ [].
Proof.
  intros Hall Hl. destruct (held_lookup w name l Hl) as (j & bucket & Hj & Hb).
  pose proof (Hall j bucket name l Hj Hb) as Hr. intros ->. by vm_compute in Hr.
Qed.

(** A run of one wheel: what is sent for a name is a sequence of
    observations of non-empty lists of samples, and these lists, one
    after the other and followed by what the wheel holds at the end, are
    what the wheel held at the start followed by what it received. *)
Lemma timer_run_accounts i w events w' outs name :
  wheelOk w → keysHashed w → allReady w → runWheel i w events = Some (w', outs) →
  ∃ stamped : list (Z * list float),
    sentOf (A:=list float) i (interval w) name (concat outs)
    = (λ st, observation i (interval w) st.1 name st.2) <$> stamped
    ∧ Forall (λ st, st.2 ≠ []) stamped
    ∧ default [] (held w name) ++ inputsFor name events
      = concat (stamped.*2) ++ default [] (held w' name).
Proof.
  revert w outs. induction events as [|e events IH]; intros w outs Hok Hkeys Hall Hrun.
  - injection Hrun as <- <-. exists []. split_and!; [done|done|].
    cbn. by rewrite app_nil_r.
  - apply runWheel_cons in Hrun as (w1 & out & outs' & Hstep & Hrun & ->).
    assert (Hok1 : wheelOk w1).
    { destruct (stepWheel_wheelOk i w e Hok) as (? & ? & Hs & ?). congruence. }
    pose proof (stepWheel_keysHashed i w e w1 out Hok Hkeys Hstep) as Hkeys1.
    pose proof (stepWheel_allReady i w e w1 out timers_always_ready Hok Hall Hstep) as Hall1.
    destruct (stepWheel_shape i w e w1 out Hok Hstep) as (Hint & _ & _).
    destruct (IH w1 outs' Hok1 Hkeys1 Hall1 Hrun) as (stamped & Hsent & Hne & Hacc).
    rewrite Hint in Hsent. cbn [concat]. rewrite sentOf_app, Hsent.
    destruct e as [d|clock]; cbn [stepWheel inputsFor] in *.
    + destruct (receive d w) as [w1'|] eqn:Hrecv; [|done]. injection Hstep as <- <-.
      exists stamped. split_and!; [done|done|].
      rewrite <- Hacc, (receive_held d w w1' name Hok Hkeys Hrecv).
      destruct (decide (Datapoint.Name d = name)); [|done].
      cbn [default from_option id accumulate timerAccumulator].
      by rewrite <- app_assoc.
    + pose proof (tick_held i _ _ w w1 out name Hok Hkeys Hstep) as Htick. cbn zeta in Htick.
      destruct (decide (hashSlot name (maxSlot w) = Some (currentSlot w))) as [Hh|Hh].
      * destruct Htick as [Hheld1 Hsent1]. rewrite Hsent1.
        destruct (held w name) as [l|] eqn:Hl.
        -- pose proof (timers_held_nonempty w name l Hall Hl) as Hl'.
           cbn [flushOf afterFlush] in *. rewrite timers_ready in * by done.
           eexists ((_, l) :: stamped). split_and!.
           ++ done.
           ++ by apply Forall_cons.
           ++ rewrite fmap_cons. cbn [concat snd default from_option id].
              rewrite <- app_assoc. f_equal. rewrite <- Hacc, Hheld1. done.
        -- cbn [flushOf afterFlush] in *. exists stamped. split_and!; [done|done|].
           by rewrite <- Hacc, Hheld1.
      * destruct Htick as [Hheld1 Hsent1]. rewrite Hsent1.
        exists stamped. split_and!; [done|done|]. by rewrite <- Hacc, Hheld1.
Qed.
End TimerRuns.

(** X15: a heartbeat sends an observation for a timer name at retention
    [i] exactly when the pointer of the wheel is on the slot the name
    hashes to and the wheel holds samples for the name, and then it sends
    one; on the other heartbeats nothing is sent for the name. *)
Theorem timer_sent_when_its_slot_is_current `{Library}
    (retentions : list Z) (ws : list (Wheel (list float))) (clock : nat → Z * Z) :
  Forall validRetention retentions → Reachable retentions ws →
  ∃ views : list (Wheel (list float) * list Sent),
    step ws (Heartbeat clock) = Some (views.*1, concat (views.*2))
    ∧ ∀ i w, ws !! i = Some w →
        ∃ w' out,
          views !! i = Some (w', out)
          ∧ ∀ name,
              length (filter (λ x, AggregateObservation.Name x.2
                                   = channel (A:=list float) i (interval w) name) out)
              = if decide (hashSlot name (maxSlot w) = Some (currentSlot w))
                then match held w name with Some _ => 1%nat | None => 0%nat end
                else 0%nat.
Proof.
  intros Hvalid Hreach.
  destruct (heartbeat_vacated ws clock) as (views & Hstep & _ & Hviews).
  { by eapply Reachable_wheelsOk. }
  exists views. split; [done|]. intros i w Hi.
  destruct (Hviews i w Hi) as (w' & out & bucket & Hv & _ & Hb & _ & Hout).
  exists w', out. split; [done|]. intros name.
  destruct (Reachable_invariants retentions ws Hvalid Hreach) as [_ Hinv].
  destruct (Hinv i w Hi) as (Hok & Hkeys & _ & Hall).
  specialize (Hall timers_always_ready).
  rewrite Hout.
  change (length _) with (sentFor i (interval w)
    (wrap64 ((clock i).1 - Z.rem (clock i).2 (interval w))) name (map_to_list bucket)).
  rewrite sentFor_bucket, (current_bucket_held w bucket name Hok Hkeys Hb).
  destruct (decide (hashSlot name (maxSlot w) = Some (currentSlot w))); [|done].
  destruct (held w name) as [l|] eqn:Hl; [|done].
  by rewrite timers_ready by (by eapply timers_held_nonempty).
Qed.

(** X16: the timer engine loses no sample and reports none twice, over
    any run.  For every retention and every name, what is sent for the
    name along the run is a sequence of observations, each of a non-empty
    list of samples; these lists one after the other, followed by the
    samples the wheel holds for the name at the end, are the samples the
    wheel held at the start followed by the samples received, in the
    order of their arrival. *)
Theorem timer_samples_all_reported_in_order `{Library}
    (retentions : list Z) (ws : list (Wheel (list float))) (events : list Event)
    (name : string) :
  Forall validRetention retentions → Reachable retentions ws →
  ∃ views : list (Wheel (list float) * list (list Sent)),
    run ws events = Some (views.*1, merge (views.*2) (length events))
    ∧ ∀ i w, ws !! i = Some w →
        ∃ w' outs (stamped : list (Z * list float)),
          views !! i = Some (w', outs)
          ∧ sentOf (A:=list float) i (interval w) name (concat outs)
            = (λ st, observation i (interval w) st.1 name st.2) <$> stamped
          ∧ Forall (λ st, st.2 ≠ []) stamped
          ∧ default [] (held w name) ++ inputsFor name events
            = concat (stamped.*2) ++ default [] (held w' name).
Proof.
  intros Hvalid Hreach.
  destruct (Reachable_invariants retentions ws Hvalid Hreach) as [_ Hinv].
  destruct (run_views ws events) as (views & Hrun & _ & Hviews).
  { by eapply Reachable_wheelsOk. }
  exists views. split; [done|]. intros i w Hi.
  destruct (Hviews i w Hi) as ([w' outs] & Hv & Hrw).
  destruct (Hinv i w Hi) as (Hok & Hkeys & _ & Hall).
  destruct (timer_run_accounts i w events w' outs name Hok Hkeys
              (Hall timers_always_ready) Hrw) as (stamped & Hsent & Hne & Hacc).
  by exists w', outs, stamped.
Qed.
(** ** The names and the payloads of the observations *)

Lemma pretty_N_char_digit (x : N) : isDigit (pretty_N_char x) = true.
Proof. unfold pretty_N_char. by repeat case_match. Qed.

Lemma pretty_N_go_digits (x : N) (s : string) :
  ∃ d, pretty_N_go x s = d +:+ s ∧ allChars decimalChar d = true.
Proof.
  revert s. induction (N.lt_wf_0 x) as [x _ IH]; intros s.
  assert (x = 0 ∨ 0 < x)%N as [->|Hx] by lia.
  - exists "". by rewrite pretty_N_go_0.
  - rewrite pretty_N_go_step by done.
    destruct (IH (x `div` 10)%N ltac:(by apply N.div_lt)
                (String (pretty_N_char (x `mod` 10)) s)) as (d & -> & Hd).
    exists (d +:+ String (pretty_N_char (x `mod` 10)) ""). split.
    + by rewrite app_assoc_str.
    + rewrite allChars_app, Hd. cbn. unfold decimalChar.
      by rewrite pretty_N_char_digit.
Qed.

Lemma FormatInt_decimal (z : Z) : allChars decimalChar (FormatInt z) = true.
Proof.
  assert (HN : ∀ n : N, allChars decimalChar (pretty n) = true).
  { intros n. unfold pretty, pretty_N. case_decide; [done|].
    destruct (pretty_N_go_digits n "") as (d & -> & Hd). by rewrite app_nil_r_str. }
  unfold FormatInt. destruct z as [|p|p]; [done|apply (HN (Npos p))|].
  change (allChars decimalChar ("-" +:+ pretty (Npos p)) = true).
  rewrite allChars_app, (HN (Npos p)). done.
Qed.

(** Two texts cut at the first [c] are equal part by part. *)
Lemma split_at_first (c : ascii) (p1 p2 r1 r2 : string) :
  countChar c p1 = 0%nat → countChar c p2 = 0%nat →
  p1 +:+ String c r1 = p2 +:+ String c r2 → p1 = p2 ∧ r1 = r2.
Proof.
  revert p2. induction p1 as [|a p1 IH]; intros [|b p2] H1 H2 Heq.
  - rewrite !app_nil_l in Heq. by injection Heq as ->.
  - rewrite app_nil_l, app_cons in Heq. injection Heq as <- _.
    cbn in H2. rewrite Ascii.eqb_refl in H2. lia.
  - rewrite app_nil_l, app_cons in Heq. injection Heq as -> _.
    cbn in H1. rewrite Ascii.eqb_refl in H1. lia.
  - rewrite !app_cons in Heq. injection Heq as -> Heq.
    cbn in H1, H2. destruct (Ascii.eqb b c); [lia|].
    destruct (IH p2) as [-> ->]; done.
Qed.

(** Two texts cut at the last [c] are equal part by part. *)
Lemma split_at_last (c : ascii) (p1 p2 r1 r2 : string) :
  countChar c r1 = 0%nat → countChar c r2 = 0%nat →
  p1 +:+ String c r1 = p2 +:+ String c r2 → p1 = p2 ∧ r1 = r2.
Proof.
  revert p2. induction p1 as [|a p1 IH]; intros [|b p2] H1 H2 Heq.
  - rewrite !app_nil_l in Heq. by injection Heq as ->.
  - rewrite app_nil_l, app_cons in Heq. injection Heq as <- ->.
    rewrite countChar_app in H1. cbn in H1. rewrite Ascii.eqb_refl in H1. lia.
  - rewrite app_nil_l, app_cons in Heq. injection Heq as -> <-.
    rewrite countChar_app in H2. cbn in H2. rewrite Ascii.eqb_refl in H2. lia.
  - rewrite !app_cons in Heq. injection Heq as -> Heq.
    destruct (IH p2) as [-> ->]; done.
Qed.

Lemma decimal_without (c : ascii) (s : string) :
  decimalChar c = false → allChars decimalChar s = true → countChar c s = 0%nat.
Proof.
  intros Hc. induction s as [|a s IH]; [done|]. cbn.
  rewrite andb_true_iff. intros [Ha Hs].
  destruct (Ascii.eqb a c) eqn:Hac; [|by apply IH].
  apply Ascii.eqb_eq in Hac as ->. congruence.
Qed.

Section Names.
Context `{Library} {A : Type} `{Accumulator A}.

Lemma disk_name_inj (i i' : nat) (r r' ts ts' : Z) (k k' : string) (v v' : A) :
  i ≠ 0%nat → i' ≠ 0%nat →
  AggregateObservation.Name (observation i r ts k v).2
  = AggregateObservation.Name (observation i' r' ts' k' v').2 →
  k = k' ∧ r = r'.
Proof.
  intros Hi Hi'. unfold observation. rewrite !decide_False by done.
  cbn [snd AggregateObservation.Name].
  intros Heq%(inj (String.app family)).
  change (":" +:+ ?t) with (String ":" t) in Heq.
  apply split_at_last in Heq as [-> Heq];
    try (apply decimal_without; [done|apply FormatInt_decimal]).
  split; [done|]. by apply (inj pretty).
Qed.

Lemma content_inj (i : nat) (r r' ts ts' : Z) (k k' : string) (v v' : A) :
  AggregateObservation.Content (observation i r ts k v).2
  = AggregateObservation.Content (observation i r' ts' k' v').2 →
  ts = ts' ∧ render v = render v'.
Proof.
  unfold observation. destruct (decide (i = 0%nat)) as [_|_];
    cbn [snd AggregateObservation.Content]; intros Heq.
  - change ("<X>" +:+ ?t) with (String "<" ("X>" +:+ t)) in Heq.
    apply split_at_first in Heq as [Hts Heq];
      try (apply decimal_without; [done|apply FormatInt_decimal]).
    split; [by apply (inj pretty)|]. by apply (inj (String.app "X>")) in Heq.
  - change (" " +:+ ?t) with (String " " t) in Heq.
    apply split_at_first in Heq as [Hts Heq];
      try (apply decimal_without; [done|apply FormatInt_decimal]).
    split; [by apply (inj pretty)|]. by apply app_inj_r in Heq.
Qed.
End Names.

(** X17: the observations written to the disk name their series
    unambiguously.  Two counter observations of retentions other than the
    first, or two timer observations, have the same name only for the same
    key and the same interval; a counter, a timer and a gauge observation
    never have the same name; two gauge observations have the same name
    only for the same metric. *)
Theorem disk_series_names_distinct `{Library} :
  (∀ (i i' : nat) r r' ts ts' k k' (v v' : float),
     i ≠ 0%nat → i' ≠ 0%nat →
     AggregateObservation.Name (observation i r ts k v).2
     = AggregateObservation.Name (observation i' r' ts' k' v').2 →
     k = k' ∧ r = r')
  ∧ (∀ (i i' : nat) r r' ts ts' k k' (v v' : list float),
       i ≠ 0%nat → i' ≠ 0%nat →
       AggregateObservation.Name (observation i r ts k v).2
       = AggregateObservation.Name (observation i' r' ts' k' v').2 →
       k = k' ∧ r = r')
  ∧ (∀ (i i' : nat) r r' ts ts' k k' (v : float) (v' : list float),
       AggregateObservation.Name (observation i r ts k v).2
       ≠ AggregateObservation.Name (observation i' r' ts' k' v').2)
  ∧ (∀ d (i : nat) r ts k (v : float) (v' : list float),
       AggregateObservation.Name (gaugeObservation d)
       ≠ AggregateObservation.Name (observation i r ts k v).2
       ∧ AggregateObservation.Name (gaugeObservation d)
         ≠ AggregateObservation.Name (observation i r ts k v').2)
  ∧ (∀ d d',
       AggregateObservation.Name (gaugeObservation d)
       = AggregateObservation.Name (gaugeObservation d') →
       Datapoint.Name d = Datapoint.Name d').
Proof.
  split_and!.
  - intros i i' r r' ts ts' k k' v v' Hi Hi' Heq.
    exact (disk_name_inj i i' r r' ts ts' k k' v v' Hi Hi' Heq).
  - intros i i' r r' ts ts' k k' v v' Hi Hi' Heq.
    exact (disk_name_inj i i' r r' ts ts' k k' v v' Hi Hi' Heq).
  - intros i i' r r' ts ts' k k' v v'. unfold observation.
    destruct (decide (i = 0%nat)), (decide (i' = 0%nat)); cbn; discriminate.
  - intros d i r ts k v v'. unfold observation, gaugeObservation.
    destruct (decide (i = 0%nat)); cbn; split; discriminate.
  - intros d d'. unfold gaugeObservation. cbn [AggregateObservation.Name].
    by intros Heq%(inj (String.app "gauges:")).
Qed.

(** X18: the payload of an observation of an engine gives back its
    timestamp and the text of its value: two observations of the same
    retention with the same payload have the same timestamp and the same
    rendered value, on the recent-values channel (the timestamp, [<X>],
    the value) as on the disk (the timestamp, a space, the value, a
    newline). *)
Theorem payload_gives_back_timestamp `{Library} {A : Type} `{Accumulator A}
    (i : nat) (r r' ts ts' : Z) (k k' : string) (v v' : A) :
  AggregateObservation.Content (observation i r ts k v).2
  = AggregateObservation.Content (observation i r' ts' k' v').2 →
  ts = ts' ∧ render v = render v'
  ∧ AggregateObservation.Timestamp (observation i r ts k v).2 = ts.
Proof.
  intros Heq. destruct (content_inj i r r' ts ts' k k' v v' Heq) as [-> ->].
  split_and!; [done|done|]. unfold observation. by destruct (decide (i = 0%nat)).
Qed.
(** ** The writer on the files it finds, and when a call fails *)

Lemma startsWith_refl (content : string) : startsWith content content.
Proof. exists "". by rewrite app_nil_r_str. Qed.

Lemma startsWith_trans (c1 c2 c3 : string) :
  startsWith c2 c1 → startsWith c3 c2 → startsWith c3 c1.
Proof. intros [m1 ->] [m2 ->]. exists (m1 +:+ m2). by rewrite app_assoc_str. Qed.

Section WriterFacts.
Context `{Library}.
Implicit Types (st : Writer) (o : AggregateObservation.t).

Lemma appendText_lookup (fs : FileSystem) (filename text f : string) :
  files (appendText fs filename text) !! f
  = if decide (f = filename) then (λ content, content +:+ text) <$> files fs !! f
    else files fs !! f.
Proof.
  unfold appendText. cbn [files]. destruct (decide (f = filename)) as [->|Hne].
  - by rewrite lookup_alter_eq.
  - by rewrite lookup_alter_ne.
Qed.

Lemma MkdirAll_spec (fs : FileSystem) (env : Faults) (dir : string) :
  files (MkdirAll fs env dir).1 = files fs ∧ dirs fs ⊆ dirs (MkdirAll fs env dir).1.
Proof. unfold MkdirAll. destruct (mkdirFault env); cbn; set_solver. Qed.

Lemma Create_spec (fs : FileSystem) (env : Faults) (filename : string) :
  dirs (Create fs env filename).1 = dirs fs
  ∧ ∀ f, f ≠ filename → files (Create fs env filename).1 !! f = files fs !! f.
Proof.
  unfold Create. destruct (createFault env); [done|].
  destruct (decide (Dir filename ∈ dirs fs)); [|done]. cbn. split; [done|].
  intros f Hne. by rewrite lookup_insert_ne.
Qed.

(** One observation, whatever the environment refuses: what was on the
    disk stays, the file of the observation may grow. *)
Lemma appendObservation_grows root st o env st' :
  appendObservation root st o env = Some st' →
  (∀ f content, files (disk st) !! f = Some content →
     ∃ content', files (disk st') !! f = Some content' ∧ startsWith content' content
                 ∧ (f ≠ CalculateFilename (AggregateObservation.Name o) root →
                    content' = content))
  ∧ dirs (disk st) ⊆ dirs (disk st')
  ∧ ∃ news, datapoints st' = datapoints st ++ news.
Proof.
  unfold appendObservation. set (filename := CalculateFilename _ root).
  unfold OpenFile. destruct (openFault env); [done|].
  destruct (decide (filename ∈ dom (files (disk st)))) as [Hin|Hout].
  - intros [= <-]. cbn [disk datapoints]. split_and!.
    + intros f content Hf. rewrite appendText_lookup, Hf.
      destruct (decide (f = filename)) as [->|Hne]; cbn.
      * eexists. split_and!; [done|by eexists|done].
      * eexists. split_and!; [done|apply startsWith_refl|done].
    + done.
    + exists []. by rewrite app_nil_r.
  - assert (Hkeep : ∀ f content, files (disk st) !! f = Some content → f ≠ filename).
    { intros f content Hf ->. apply Hout, elem_of_dom. eauto. }
    destruct (MkdirAll_spec (disk st) env (Dir filename)) as [Hmf Hmd].
    destruct (MkdirAll (disk st) env (Dir filename)) as [fs1 made]. cbn [fst] in *.
    destruct (Create_spec fs1 env filename) as [Hcd Hcf].
    destruct (Create fs1 env filename) as [fs2 created]. cbn [fst] in *.
    destruct created; intros [= <-]; cbn [disk datapoints]; split_and!.
    + intros f content Hf. pose proof (Hkeep f content Hf) as Hne.
      rewrite !appendText_lookup, !decide_False by done.
      rewrite Hcf by done. rewrite Hmf.
      eexists; split_and!; [exact Hf|apply startsWith_refl|done].
    + cbn [appendText dirs]. rewrite Hcd. exact Hmd.
    + by eexists.
    + intros f content Hf. pose proof (Hkeep f content Hf) as Hne.
      rewrite Hcf by done. rewrite Hmf.
      eexists; split_and!; [exact Hf|apply startsWith_refl|done].
    + rewrite Hcd. exact Hmd.
    + by eexists.
Qed.

(** [os.Create] fails: nothing is written, and the name is queued all the
    same. *)
Lemma appendObservation_create_fails root st o env :
  createFails env →
  CalculateFilename (AggregateObservation.Name o) root ∉ dom (files (disk st)) →
  ∃ st', appendObservation root st o env = Some st'
         ∧ files (disk st') = files (disk st)
         ∧ datapoints st' = datapoints st ++ [AggregateObservation.Name o].
Proof.
  intros [Hopen Hcreate] Hout. unfold appendObservation, OpenFile.
  rewrite Hopen, decide_False by done. unfold MkdirAll, Create. rewrite Hcreate.
  destruct (mkdirFault env); eexists; split_and!; done.
Qed.

Lemma appendToFile_create_fails root st (l : list (AggregateObservation.t * Faults)) :
  Forall (λ oe, createFails oe.2
                ∧ CalculateFilename (AggregateObservation.Name oe.1) root
                  ∉ dom (files (disk st))) l →
  ∃ st', appendToFile root st l = Some st'
         ∧ files (disk st') = files (disk st)
         ∧ datapoints st' = datapoints st ++ (AggregateObservation.Name <$> l.*1).
Proof.
  revert st. induction l as [|[o env] l IH]; intros st Hl.
  - exists st. split_and!; [done|done|]. by rewrite app_nil_r.
  - apply Forall_cons in Hl as [[Hfail Hout] Hl]. cbn [fst snd] in *.
    destruct (appendObservation_create_fails root st o env Hfail Hout)
      as (st1 & Hstep & Hfiles1 & Hdp1).
    destruct (IH st1) as (st' & Hrun & Hfiles & Hdp).
    { eapply Forall_impl; [exact Hl|]. intros oe. by rewrite Hfiles1. }
    exists st'. cbn [appendToFile]. rewrite Hstep. cbn [mbind option_bind].
    split_and!; [done|by rewrite Hfiles, Hfiles1|].
    rewrite Hdp, Hdp1, !fmap_cons. cbn [fst]. by rewrite <- app_assoc.
Qed.

(** Files that are all there when the writer starts. *)
Lemma appendToFile_old root st0 (all observations : list AggregateObservation.t) :
  (∀ o, o ∈ all →
     CalculateFilename (AggregateObservation.Name o) root ∈ dom (files (disk st0))) →
  (∀ o1 o2, o1 ∈ all → o2 ∈ all →
     CalculateFilename (AggregateObservation.Name o1) root
     = CalculateFilename (AggregateObservation.Name o2) root →
     AggregateObservation.Name o1 = AggregateObservation.Name o2) →
  (∀ o, o ∈ observations → o ∈ all) →
  ∃ st,
    appendToFile root st0 (unfaulted observations) = Some st
    ∧ datapoints st = datapoints st0
    ∧ dirs (disk st) = dirs (disk st0)
    ∧ (∀ o content, o ∈ all →
         files (disk st0) !! CalculateFilename (AggregateObservation.Name o) root
         = Some content →
         files (disk st) !! CalculateFilename (AggregateObservation.Name o) root
         = Some (content +:+ payloads (AggregateObservation.Name o) observations))
    ∧ (∀ f, (∀ o, o ∈ observations →
               CalculateFilename (AggregateObservation.Name o) root ≠ f) →
            files (disk st) !! f = files (disk st0) !! f).
Proof.
  intros Hthere Hinj.
  induction observations as [|o observations IH] using rev_ind; intros Hsub.
  - exists st0. split_and!; try done.
    intros o content _ Hc. by rewrite app_nil_r_str.
  - destruct IH as (st & Hrun & Hdp & Hdirs & Hfiles & Hframe).
    { intros o' Ho'. apply Hsub. apply elem_of_app. by left. }
    assert (Ho : o ∈ all) by (apply Hsub, elem_of_app; right; by left).
    unfold unfaulted in *. rewrite fmap_app, appendToFile_app, Hrun.
    cbn [mbind option_bind fmap list_fmap appendToFile].
    destruct (proj1 (elem_of_dom _ _) (Hthere o Ho)) as [content0 Hc0].
    pose proof (Hfiles o content0 Ho Hc0) as Hfile.
    rewrite (appendObservation_old root st o _ Hfile). cbn [mbind option_bind].
    eexists. split; [done|]. cbn [datapoints disk files dirs].
    split_and!; try done.
    + intros o2 content Ho2 Hc. rewrite payloads_app. cbn [payloads].
      destruct (decide (AggregateObservation.Name o = AggregateObservation.Name o2))
        as [Heq|Hne].
      * rewrite <- Heq in *. rewrite lookup_insert_eq.
        rewrite Hc0 in Hc. injection Hc as <-.
        by rewrite app_nil_r_str, app_assoc_str.
      * rewrite app_nil_r_str, lookup_insert_ne; [by apply Hfiles|].
        intros Hf. apply Hne. by apply (Hinj o o2).
    + intros f Hf. rewrite lookup_insert_ne.
      * apply Hframe. intros o2 Ho2. apply Hf. apply elem_of_app. by left.
      * apply Hf. apply elem_of_app. right. by left.
Qed.
End WriterFacts.

(** X19: on files that are all there when the writer starts (a restart of
    the receiver), every observation is appended to the file of its
    channel and nothing else happens: no header is written, no name is
    queued for the registry, no directory is made, and each file ends up
    as what it held followed by the payloads of its channel, in order.
    One file for each channel is assumed. *)
Theorem appendToFile_existing_files `{Library} (root : string) (st0 : Writer)
    (observations : list AggregateObservation.t) :
  (∀ o, o ∈ observations →
     CalculateFilename (AggregateObservation.Name o) root ∈ dom (files (disk st0))) →
  (∀ o1 o2, o1 ∈ observations → o2 ∈ observations →
     CalculateFilename (AggregateObservation.Name o1) root
     = CalculateFilename (AggregateObservation.Name o2) root →
     AggregateObservation.Name o1 = AggregateObservation.Name o2) →
  ∃ st,
    appendToFile root st0 (unfaulted observations) = Some st
    ∧ datapoints st = datapoints st0
    ∧ saveNewDatapoints (datapoints st) = saveNewDatapoints (datapoints st0)
    ∧ dirs (disk st) = dirs (disk st0)
    ∧ (∀ o content, o ∈ observations →
         files (disk st0) !! CalculateFilename (AggregateObservation.Name o) root
         = Some content →
         files (disk st) !! CalculateFilename (AggregateObservation.Name o) root
         = Some (content +:+ payloads (AggregateObservation.Name o) observations))
    ∧ (∀ f, (∀ o, o ∈ observations →
               CalculateFilename (AggregateObservation.Name o) root ≠ f) →
            files (disk st) !! f = files (disk st0) !! f).
Proof.
  intros Hthere Hinj.
  destruct (appendToFile_old root st0 observations observations Hthere Hinj)
    as (st & Hrun & Hdp & Hdirs & Hfiles & Hframe); [done|].
  exists st. split_and!; try done. by rewrite Hdp.
Qed.

(** X20: when [os.Create] fails on a missing file (the open having failed
    for want of the file), the writer writes nothing and queues the name
    for the registry all the same; as the file is still missing, every
    further observation of the channel queues the name again. *)
Theorem create_failure_still_registers `{Library} (root : string) (st : Writer)
    (l : list (AggregateObservation.t * Faults)) :
  Forall (λ oe, createFails oe.2
                ∧ CalculateFilename (AggregateObservation.Name oe.1) root
                  ∉ dom (files (disk st))) l →
  ∃ st', appendToFile root st l = Some st'
         ∧ files (disk st') = files (disk st)
         ∧ datapoints st' = datapoints st ++ (AggregateObservation.Name <$> l.*1)
         ∧ saveNewDatapoints (datapoints st')
           = saveNewDatapoints (datapoints st)
             ++ ((λ oe, ("datapoints", AggregateObservation.Name oe.1)) <$> l).
Proof.
  intros Hl. destruct (appendToFile_create_fails root st l Hl) as (st' & Hrun & Hfiles & Hdp).
  exists st'. split_and!; try done.
  unfold saveNewDatapoints. rewrite Hdp, fmap_app. f_equal.
  rewrite <- !list_fmap_compose. done.
Qed.

(** X21: the writer only ever appends.  Whatever calls the environment
    refuses along the way, if the writer gets through the observations
    then every file that was on the disk is still there and begins with
    what it held, a file that is the file of none of the observations is
    unchanged, the directories are still there, and the names queued
    before are still queued, in front of the new ones. *)
Theorem appendToFile_only_appends `{Library} (root : string) (st st' : Writer)
    (l : list (AggregateObservation.t * Faults)) :
  appendToFile root st l = Some st' →
  (∀ f content, files (disk st) !! f = Some content →
     ∃ content', files (disk st') !! f = Some content' ∧ startsWith content' content
                 ∧ ((∀ oe, oe ∈ l → f ≠ CalculateFilename (AggregateObservation.Name oe.1) root) →
                    content' = content))
  ∧ dirs (disk st) ⊆ dirs (disk st')
  ∧ ∃ news, datapoints st' = datapoints st ++ news.
Proof.
  intros Hrun. revert st Hrun. induction l as [|[o env] l IH]; intros st Hrun.
  - injection Hrun as <-. split_and!.
    + intros f content Hf. exists content. split_and!; [done|apply startsWith_refl|done].
    + done.
    + exists []. by rewrite app_nil_r.
  - cbn [appendToFile] in Hrun.
    destruct (appendObservation root st o env) as [st1|] eqn:Hstep; [|done].
    cbn in Hrun. destruct (appendObservation_grows root st o env st1 Hstep)
      as (Hfiles1 & Hdirs1 & news1 & Hdp1).
    destruct (IH st1 Hrun) as (Hfiles & Hdirs & news & Hdp).
    split_and!.
    + intros f content Hf. destruct (Hfiles1 f content Hf) as (c1 & Hc1 & Hs1 & Hsame1).
      destruct (Hfiles f c1 Hc1) as (c2 & Hc2 & Hs2 & Hsame2).
      exists c2. split_and!; [done|by eapply startsWith_trans|].
      intros Hother. rewrite Hsame2, Hsame1; [done| |].
      * apply (Hother (o, env)). by left.
      * intros oe Hoe. apply Hother. by right.
    + by etrans.
    + exists (news1 ++ news). by rewrite Hdp, Hdp1, <- app_assoc.
Qed.
(** ** From the socket to the file of a gauge, and to the sorted sets *)

Lemma hasPrefix_app (p s : string) : hasPrefix p (p +:+ s) = true.
Proof.
  induction p as [|a p IH]; [done|]. rewrite app_cons. cbn.
  by rewrite Ascii.eqb_refl, IH.
Qed.

Lemma payloads_filter (P : AggregateObservation.t → Prop) `{∀ o, Decision (P o)}
    (name : string) (l : list AggregateObservation.t) :
  (∀ o, AggregateObservation.Name o = name → P o) →
  payloads name (filter P l) = payloads name l.
Proof.
  intros HP. induction l as [|o l IH]; [done|]. rewrite filter_cons. cbn [payloads].
  destruct (decide (P o)) as [Ho|Ho]; cbn [payloads].
  - by rewrite IH.
  - rewrite decide_False; [done|]. intros Hname. by apply Ho, HP.
Qed.

Section Pipeline.
Context `{Library}.

Lemma payloads_gauges (name : string) (gauges : list Datapoint.t) :
  payloads ("gauges:" +:+ name) (gaugeObservation <$> gauges)
  = joined (gaugeLine <$> filter (λ g, Datapoint.Name g = name) gauges).
Proof.
  induction gauges as [|g gauges IH]; [done|].
  rewrite fmap_cons, filter_cons. cbn [payloads gaugeObservation AggregateObservation.Name].
  destruct (decide (Datapoint.Name g = name)) as [Hg|Hg].
  - rewrite decide_True by (by rewrite Hg). rewrite fmap_cons, joined_cons.
    cbn [AggregateObservation.Content]. unfold gaugeLine at 1.
    rewrite <- IH. reflexivity.
  - rewrite decide_False; [done|].
    intros Heq%(inj (String.app "gauges:")). done.
Qed.

(** What a step of an engine sends: observations of entries that are
    ready, each from the current bucket of its retention. *)
Lemma step_sends (A : Type) `{Accumulator A} (ws ws' : list (Wheel A)) (e : Event)
    (out : list Sent) (x : Sent) :
  Forall wheelOk ws → step ws e = Some (ws', out) → x ∈ out →
  ∃ (i : nat) w bucket ts name value,
    ws !! i = Some w
    ∧ buckets w !! Z.to_nat (currentSlot w) = Some bucket
    ∧ bucket !! name = Some value ∧ ready value = true
    ∧ x = observation i (interval w) ts name value.
Proof.
  intros Hok Hstep Hx.
  destruct (step_views ws e Hok) as (views & Heq & Hlen & Hviews).
  rewrite Heq in Hstep. injection Hstep as <- <-.
  apply list_elem_of_In, in_concat in Hx as (o & Ho & Hx).
  apply list_elem_of_In, list_elem_of_fmap in Ho as ([w1 o1] & -> & Hv).
  apply list_elem_of_lookup in Hv as [i Hv]. cbn [snd] in Hx.
  destruct (lookup_lt_is_Some_2 ws i) as [w Hw].
  { rewrite <- Hlen. by eapply lookup_lt_Some. }
  destruct (Hviews i w Hw) as (v & Hv' & Hsw). rewrite Hv in Hv'. injection Hv' as <-.
  assert (Hokw : wheelOk w) by (by eapply Forall_lookup_1).
  destruct e as [d|clock]; cbn [stepWheel] in Hsw.
  - destruct (receive d w); [|done]. injection Hsw as <- <-. by apply in_nil in Hx.
  - destruct (tick_spec i (clock i).1 (clock i).2 w Hokw) as (bucket & Hb & Htick).
    rewrite Htick in Hsw. injection Hsw as <- <-.
    apply list_elem_of_In, list_elem_of_fmap in Hx as ([name value] & -> & Hin).
    unfold readyEntries in Hin. apply list_elem_of_filter in Hin as [Hready Hin].
    apply elem_of_map_to_list in Hin.
    exists i, w, bucket, (wrap64 ((clock i).1 - Z.rem (clock i).2 (interval w))), name, value.
    split_and!; try done.
    cbn in Hready. by destruct (ready value).
Qed.
End Pipeline.

(** X22: from the socket to the disk.  The gauge datapoints that
    [bindUDP] queues are those parsed from the datagrams, in order; when
    the writer starts on an empty disk and reads them through
    [processGauges], mixed in any way with the observations of the other
    engines, the file of a gauge holds its header and then one line for
    each of its datapoints, in the order of arrival: the clock of the
    datapoint, a space, its value and a newline.  One file for each
    channel is assumed. *)
Theorem gauge_datagrams_reach_their_file `{Library} (root : string) (reads : list Read)
    (merged : list AggregateObservation.t) :
  let gauges := gaugeChannel (bindUDP reads noTraffic) in
  gaugeSeries merged = sentTo diskAppendChannel (processGauges gauges) →
  (∀ o1 o2, o1 ∈ merged → o2 ∈ merged →
     CalculateFilename (AggregateObservation.Name o1) root
     = CalculateFilename (AggregateObservation.Name o2) root →
     AggregateObservation.Name o1 = AggregateObservation.Name o2) →
  gauges = ofType "g" (datapointsRead reads)
  ∧ ∃ st,
      appendToFile root emptyWriter (unfaulted merged) = Some st
      ∧ ∀ d, d ∈ gauges →
          files (disk st) !! CalculateFilename ("gauges:" +:+ Datapoint.Name d) root
          = Some (headerLine ("gauges:" +:+ Datapoint.Name d)
                  +:+ joined (gaugeLine
                              <$> filter (λ g, Datapoint.Name g = Datapoint.Name d) gauges)).
Proof.
  cbn zeta. intros Hgauges Hinj.
  set (gauges := gaugeChannel (bindUDP reads noTraffic)) in *.
  assert (Hsent : sentTo diskAppendChannel (processGauges gauges)
                  = gaugeObservation <$> gauges).
  { unfold processGauges. rewrite processGauges_fold. cbn [app].
    assert (Hsplit : (λ d, (diskAppendChannel, gaugeObservation d)) <$> gauges
                     = (λ o, (diskAppendChannel, o)) <$> (gaugeObservation <$> gauges)).
    { rewrite <- list_fmap_compose. reflexivity. }
    rewrite Hsplit. apply sentTo_disk_only. }
  rewrite Hsent in Hgauges. split.
  - unfold gauges. by rewrite bindUDP_queues.
  - destruct (appendToFile_once root emptyWriter merged merged)
      as (st & news & Hrun & _ & _ & _ & Hfiles & _); [|done|done|].
    { intros o _. cbn. rewrite dom_empty_L. apply not_elem_of_empty. }
    exists st. split; [done|]. intros d Hd.
    assert (Hin : gaugeObservation d ∈ merged).
    { assert (Hg : gaugeObservation d ∈ gaugeSeries merged).
      { rewrite Hgauges. apply list_elem_of_fmap. by exists d. }
      unfold gaugeSeries in Hg. by apply list_elem_of_filter in Hg as [_ Hg]. }
    pose proof (Hfiles _ Hin) as Hfile.
    cbn [gaugeObservation AggregateObservation.Name] in Hfile. rewrite Hfile.
    do 2 f_equal. rewrite <- payloads_gauges, <- Hgauges. unfold gaugeSeries.
    symmetry. apply payloads_filter. intros o ->. apply hasPrefix_app.
Qed.

(** X23: what the engines send to [addToRedisZset].  Every call of
    [redis.Zadd] made for an observation of a turn of an engine comes from
    a ready entry of the current bucket of the first retention; its key
    is [<family><name>], its member is a timestamp in decimal followed by
    [<X>] and the rendered value, and its score is that timestamp as a
    [float64]. *)
Theorem zadd_score_is_payload_timestamp `{Library} {A : Type} `{Accumulator A}
    (ws ws' : list (Wheel A)) (e : Event) (out : list Sent)
    (key : string) (score : float) (member : string) :
  Forall wheelOk ws → step ws e = Some (ws', out) →
  (key, score, member) ∈ addToRedisZset (sentTo redisAppendChannel out) →
  ∃ w bucket name value ts,
    ws !! 0%nat = Some w
    ∧ buckets w !! Z.to_nat (currentSlot w) = Some bucket
    ∧ bucket !! name = Some value ∧ ready value = true
    ∧ key = family +:+ name
    ∧ score = Float64OfInt64 ts
    ∧ member = FormatInt ts +:+ "<X>" +:+ render value.
Proof.
  intros Hok Hstep Hcall. unfold addToRedisZset, sentTo in Hcall.
  apply list_elem_of_fmap in Hcall as (o & Hcall & Ho).
  apply list_elem_of_fmap in Ho as ([sink o'] & -> & Ho).
  apply list_elem_of_filter in Ho as [Hsink Ho]. cbn [fst snd] in *. subst sink.
  destruct (step_sends A ws ws' e out _ Hok Hstep Ho)
    as (i & w & bucket & ts & name & value & Hw & Hb & Hname & Hready & Hobs).
  unfold observation in Hobs. destruct (decide (i = 0%nat)) as [->|Hne]; [|done].
  injection Hobs as ->. injection Hcall as -> -> ->.
  by exists w, bucket, name, value, ts.
Qed.
(** ** The processors of [receiver.go] *)

Lemma valuesFor_cons (name : string) (d : Datapoint.t) (ch : list Datapoint.t) :
  valuesFor name (d :: ch)
  = if decide (Datapoint.Name d = name) then Datapoint.Value d :: valuesFor name ch
    else valuesFor name ch.
Proof.
  unfold valuesFor. rewrite filter_cons.
  by destruct (decide (Datapoint.Name d = name)).
Qed.

(** Two names with the same object are the same name. *)
Lemma metrics_injective (ch : list Datapoint.t) (n1 n2 : string) (m : nat) :
  metrics (processDatatype ch) !! n1 = Some m →
  metrics (processDatatype ch) !! n2 = Some m → n1 = n2.
Proof.
  destruct (processDatatype_inv ch) as (Hids & _ & _ & Hmap & _ & _).
  intros H1%Hmap H2%Hmap.
  assert (Hnd : NoDup ((creations (calls (processDatatype ch))).*2))
    by (rewrite Hids; apply NoDup_seq).
  revert H1 H2 Hnd. generalize (creations (calls (processDatatype ch))).
  intros l. induction l as [|[n k] l IH]; intros H1 H2 Hnd; [by apply elem_of_nil in H1|].
  rewrite fmap_cons in Hnd. apply NoDup_cons in Hnd as [Hk Hnd]. cbn [snd] in Hk.
  apply elem_of_cons in H1 as [Heq1|H1]; apply elem_of_cons in H2 as [Heq2|H2].
  - congruence.
  - exfalso. apply Hk. apply list_elem_of_fmap. exists (n2, m).
    split; [by injection Heq1|done].
  - exfalso. apply Hk. apply list_elem_of_fmap. exists (n1, m).
    split; [by injection Heq2|done].
  - by apply IH.
Qed.

(** The object of a name is passed the values of the datapoints of the
    name, in the order of the channel. *)
Lemma updatesOf_values (ch : list Datapoint.t) (name : string) :
  updatesOf (processDatatype ch) name = valuesFor name ch.
Proof.
  destruct (processDatatype_inv ch) as (_ & _ & _ & Hmap & Hnames & Hupd).
  unfold updatesOf.
  destruct (metrics (processDatatype ch) !! name) as [m|] eqn:Hm.
  - pose proof (metrics_injective ch) as Hinj.
    revert Hupd. generalize (updates (calls (processDatatype ch))).
    generalize ch at 2 3. intros l us Hupd.
    induction Hupd as [|d u l us [Hd Hv] Hupd IH]; [done|].
    rewrite filter_cons, valuesFor_cons.
    destruct (decide (u.1 = m)) as [Hu|Hu].
    + rewrite decide_True by (apply (Hinj _ _ m); [by rewrite Hd, Hu|done]).
      rewrite fmap_cons, IH, Hv. done.
    + rewrite decide_False; [done|]. intros Hname. apply Hu.
      rewrite Hname, Hm in Hd. by injection Hd.
  - symmetry. unfold valuesFor.
    assert (Hno : name ∉ Datapoint.Name <$> ch).
    { intros Hin%Hnames. apply list_elem_of_fmap in Hin as ([n m] & -> & Hin).
      apply Hmap in Hin. cbn in Hm. congruence. }
    clear -Hno. induction ch as [|d ch IH]; [done|].
    rewrite fmap_cons, not_elem_of_cons in Hno. destruct Hno as [Hne Hno].
    rewrite filter_cons, decide_False by done. by apply IH.
Qed.

Lemma processDatatype_names (ch : list Datapoint.t) (name : string) :
  is_Some (metrics (processDatatype ch) !! name) ↔ name ∈ Datapoint.Name <$> ch.
Proof.
  destruct (processDatatype_inv ch) as (_ & _ & _ & Hmap & Hnames & _).
  rewrite <- Hnames. split.
  - intros [m Hm%Hmap]. apply list_elem_of_fmap. by exists (name, m).
  - intros ([n m] & -> & Hin)%list_elem_of_fmap. exists m. by apply Hmap.
Qed.

Lemma processDatatype_created (ch : list Datapoint.t) :
  created (processDatatype ch) = size (dom (metrics (processDatatype ch))).
Proof.
  destruct (processDatatype_inv ch) as (Hids & _ & Hnd & Hmap & _ & _).
  assert (Hdom : dom (metrics (processDatatype ch))
                 = list_to_set ((creations (calls (processDatatype ch))).*1)).
  { apply set_eq. intros name. rewrite elem_of_dom, elem_of_list_to_set. split.
    - intros [m Hm%Hmap]. apply list_elem_of_fmap. by exists (name, m).
    - intros ([n m] & -> & Hin)%list_elem_of_fmap. exists m. by apply Hmap. }
  rewrite Hdom, size_list_to_set by done.
  rewrite length_fmap, <- (length_fmap snd), Hids. by rewrite length_seq.
Qed.

Section ProcessorFacts.
Context (ParseDatapointFromString : string → Datapoint.t).

Lemma processMessage_queues (ch : Channels) (message : string) :
  let d := [ParseDatapointFromString message] in
  processMessage ParseDatapointFromString ch message
  = mkChannels (gaugeChannel ch ++ ofType "g" d) (counterChannel ch ++ ofType "c" d)
      (timerChannel ch ++ ofType "ms" d).
Proof.
  cbn zeta. unfold processMessage, ofType, channels.
  set (d := ParseDatapointFromString message). rewrite !filter_cons, !filter_nil.
  destruct (decide (Datapoint.Datatype d = "g")) as [Hg|Hg].
  { rewrite Hg, lookup_insert_eq. rewrite !decide_False by done.
    cbn [send]. by rewrite !app_nil_r. }
  rewrite lookup_insert_ne by done.
  destruct (decide (Datapoint.Datatype d = "c")) as [Hc|Hc].
  { rewrite Hc, lookup_insert_eq. rewrite !decide_False by done.
    cbn [send]. by rewrite !app_nil_r. }
  rewrite lookup_insert_ne by done.
  destruct (decide (Datapoint.Datatype d = "ms")) as [Hms|Hms].
  { rewrite Hms, lookup_singleton_eq. cbn [send]. by rewrite !app_nil_r. }
  rewrite lookup_singleton_ne by done. rewrite !app_nil_r. by destruct ch.
Qed.

Lemma processMessages_queues (messages : list string) (ch : Channels) :
  foldl (processMessage ParseDatapointFromString) ch messages
  = mkChannels (gaugeChannel ch ++ ofType "g" (ParseDatapointFromString <$> messages))
      (counterChannel ch ++ ofType "c" (ParseDatapointFromString <$> messages))
      (timerChannel ch ++ ofType "ms" (ParseDatapointFromString <$> messages)).
Proof.
  revert ch. induction messages as [|m messages IH]; intros ch.
  - cbn. rewrite !app_nil_r. by destruct ch.
  - cbn [foldl]. rewrite IH, processMessage_queues.
    cbn [gaugeChannel counterChannel timerChannel]. rewrite fmap_cons.
    f_equal; rewrite <- app_assoc; f_equal; symmetry; apply ofType_cons.
Qed.
End ProcessorFacts.

(** X24: [processDatatype] does not depend on the order in which the
    message processors deliver the datapoints.  For two orders of the same
    datapoints the map holds the same names, as many objects are made, and
    the object of each name is passed the same values (in each order, the
    values of the datapoints of its name as they arrive). *)
Theorem processDatatype_order_insensitive (ch1 ch2 : list Datapoint.t) :
  ch1 ≡ₚ ch2 →
  dom (metrics (processDatatype ch1)) = dom (metrics (processDatatype ch2))
  ∧ created (processDatatype ch1) = created (processDatatype ch2)
  ∧ ∀ name,
      updatesOf (processDatatype ch1) name = valuesFor name ch1
      ∧ updatesOf (processDatatype ch2) name = valuesFor name ch2
      ∧ updatesOf (processDatatype ch1) name ≡ₚ updatesOf (processDatatype ch2) name.
Proof.
  intros Hperm.
  assert (Hdom : dom (metrics (processDatatype ch1)) = dom (metrics (processDatatype ch2))).
  { apply set_eq. intros name. rewrite !elem_of_dom, !processDatatype_names.
    by rewrite Hperm. }
  split_and!; [done| |].
  - by rewrite !processDatatype_created, Hdom.
  - intros name. rewrite !updatesOf_values. split_and!; [done|done|].
    unfold valuesFor. by rewrite Hperm.
Qed.

(** X25: the message processors and the three loops of [receiver.go],
    whatever the parser: a message whose datatype is g, c or ms is queued
    for the loop of its datatype, in order, and any other message is
    dropped; each loop then holds an object for exactly the names parsed
    with its datatype, and the object of a name is passed the values
    parsed for that name and datatype, in order. *)
Theorem receiver_one_metric_per_type_and_name
    (ParseDatapointFromString : string → Datapoint.t) (messages : list string) :
  let ch := processMessages ParseDatapointFromString messages in
  let parsed := ParseDatapointFromString <$> messages in
  gaugeChannel ch = ofType "g" parsed
  ∧ counterChannel ch = ofType "c" parsed
  ∧ timerChannel ch = ofType "ms" parsed
  ∧ ∀ datatype queue,
      (datatype, queue)
      ∈ [("g", gaugeChannel ch); ("ms", timerChannel ch); ("c", counterChannel ch)] →
      ∀ name,
        (is_Some (metrics (processDatatype queue) !! name)
         ↔ ∃ d, d ∈ parsed ∧ Datapoint.Datatype d = datatype ∧ Datapoint.Name d = name)
        ∧ updatesOf (processDatatype queue) name = valuesFor name (ofType datatype parsed).
Proof.
  cbn zeta. unfold processMessages. rewrite processMessages_queues.
  cbn [gaugeChannel counterChannel timerChannel noTraffic app].
  split_and!; [done|done|done|].
  intros datatype queue Hq name.
  assert (Hqueue : queue = ofType datatype (ParseDatapointFromString <$> messages)).
  { rewrite !elem_of_cons, elem_of_nil in Hq.
    destruct Hq as [[= -> ->]|[[= -> ->]|[[= -> ->]|[]]]]; done. }
  subst queue. split; [|apply updatesOf_values].
  rewrite processDatatype_names, list_elem_of_fmap. unfold ofType. split.
  - intros (d & -> & [Hd Hin]%list_elem_of_filter). by exists d.
  - intros (d & Hin & Hd & <-). exists d. split; [done|].
    by apply list_elem_of_filter.
Qed.
(** ** A TCP line and a UDP datagram *)

Lemma substring_app_prefix (n : nat) (s t : string) :
  (n ≤ String.length s)%nat → String.substring 0 n (s +:+ t) = String.substring 0 n s.
Proof.
  revert s. induction n as [|n IH]; intros s Hn.
  - by destruct s, t.
  - destruct s as [|a s]; [cbn in Hn; lia|]. rewrite app_cons. cbn.
    rewrite IH; [done|]. cbn in Hn. lia.
Qed.

Lemma consumed_app (s rest t : string) :
  consumed (s +:+ t) (rest +:+ t) = consumed s rest.
Proof.
  unfold consumed. rewrite !length_app_str.
  replace (String.length s + String.length t - (String.length rest + String.length t))%nat
    with (String.length s - String.length rest)%nat by lia.
  apply substring_app_prefix. lia.
Qed.

Section Appended.
Context (c : ascii).

Lemma star_appended (p : ascii → bool) (s : string)
    (k k' : string → option (list string * string)) :
  p c = false →
  (∀ rest, k' (rest +:+ String c "") = matchBefore c (k rest)) →
  star p (s +:+ String c "") k' = matchBefore c (star p s k).
Proof.
  intros Hc Hk. induction s as [|a s IH].
  - rewrite app_nil_l. cbn [star]. rewrite Hc. by rewrite <- Hk.
  - rewrite app_cons. cbn [star]. destruct (p a); [|by rewrite <- Hk, app_cons].
    rewrite IH. destruct (star p s k) as [x|]; [done|].
    cbn [matchBefore fmap option_fmap option_map]. by rewrite <- Hk, app_cons.
Qed.

Lemma backtrack_appended (r : regex) :
  rejects c r = true →
  ∀ (s : string) (caps : captures) (k k' : string → captures → option (list string * string)),
    (∀ rest caps, k' (rest +:+ String c "") caps = matchBefore c (k rest caps)) →
    backtrack r (s +:+ String c "") caps k' = matchBefore c (backtrack r s caps k).
Proof.
  induction r as [a|p|r1 IH1 r2 IH2|r1 IH1 r2 IH2|p|p|n r IH];
    cbn [rejects]; intros Hr s caps k k' Hk.
  - apply negb_true_iff in Hr. destruct s as [|b s].
    + rewrite app_nil_l. cbn [backtrack]. by rewrite Hr.
    + rewrite app_cons. cbn [backtrack]. destruct (Ascii.eqb b a); [apply Hk|done].
  - apply negb_true_iff in Hr. destruct s as [|b s].
    + rewrite app_nil_l. cbn [backtrack]. by rewrite Hr.
    + rewrite app_cons. cbn [backtrack]. destruct (p b); [apply Hk|done].
  - apply andb_true_iff in Hr as [Hr1 Hr2]. cbn [backtrack].
    apply (IH1 Hr1). intros rest caps1. by apply (IH2 Hr2).
  - apply andb_true_iff in Hr as [Hr1 Hr2]. cbn [backtrack].
    rewrite (IH1 Hr1 s caps k k' Hk).
    destruct (backtrack r1 s caps k) as [x|]; [done|].
    cbn [matchBefore fmap option_fmap option_map]. by apply (IH2 Hr2).
  - apply negb_true_iff in Hr. cbn [backtrack]. by apply star_appended.
  - apply negb_true_iff in Hr. destruct s as [|b s].
    + rewrite app_nil_l. cbn [backtrack]. by rewrite Hr.
    + rewrite app_cons. cbn [backtrack]. destruct (p b); [|done].
      by apply star_appended.
  - cbn [backtrack]. apply (IH Hr). intros rest caps'.
    rewrite consumed_app. apply Hk.
Qed.

Lemma matchHere_appended (r : regex) (groups : nat) (s : string) :
  rejects c r = true →
  matchHere r groups (s +:+ String c "") = matchBefore c (matchHere r groups s).
Proof.
  intros Hr. unfold matchHere. apply (backtrack_appended r Hr). intros rest caps.
  cbn [matchBefore fmap option_fmap option_map fst snd]. by rewrite consumed_app.
Qed.

Lemma findSubmatch_appended (r : regex) (groups : nat) (s : string) :
  rejects c r = true →
  findSubmatch r groups (s +:+ String c "") = matchBefore c (findSubmatch r groups s).
Proof.
  intros Hr. induction s as [|a s IH].
  - rewrite app_nil_l. cbn [findSubmatch].
    pose proof (matchHere_appended r groups "" Hr) as Hm. rewrite app_nil_l in Hm.
    rewrite Hm. by destruct (matchHere r groups "").
  - rewrite app_cons. cbn [findSubmatch].
    pose proof (matchHere_appended r groups (String a s) Hr) as Hm.
    rewrite app_cons in Hm. rewrite Hm.
    by destruct (matchHere r groups (String a s)).
Qed.
End Appended.

Section SameParse.
Context `{Library}.

(** The newline that ends a TCP line takes no part in the match. *)
Lemma parseDatapoint_newline (now : Z) (text : string) :
  parseDatapoint now (text +:+ newline) = parseDatapoint now text.
Proof.
  unfold parseDatapoint. cbn zeta.
  pose proof (FindAllStringSubmatch_head metricRegex 3 (text +:+ newline)) as H1.
  pose proof (FindAllStringSubmatch_head metricRegex 3 text) as H2.
  assert (Hhead : head (FindAllStringSubmatch metricRegex 3 (text +:+ newline))
                  = head (FindAllStringSubmatch metricRegex 3 text)).
  { rewrite H1, H2. unfold newline.
    rewrite (findSubmatch_appended "010" metricRegex 3 text eq_refl).
    by destruct (findSubmatch metricRegex 3 text) as [[m rest]|]. }
  destruct (FindAllStringSubmatch metricRegex 3 (text +:+ newline)) as [|m1 ms1];
    destruct (FindAllStringSubmatch metricRegex 3 text) as [|m2 ms2];
    cbn in Hhead; try done.
  by injection Hhead as ->.
Qed.

Lemma lines_as_datagrams (clock : nat → Z) (texts : list string) :
  Forall (λ t, (String.length t ≤ readLen)%nat) texts →
  ∀ (k : nat) (ch : Channels),
    foldl (λ ch kt, processIncomingMessage (clock kt.1) (kt.2 +:+ newline) ch) ch
      (imap (λ j t, ((k + j)%nat, t)) texts)
    = bindUDP (imap (λ j t, Datagram (clock (k + j)%nat) t) texts) ch.
Proof.
  intros Htexts. induction Htexts as [|t texts Ht Htexts IH]; intros k ch; [done|].
  cbn [imap foldl fst snd]. rewrite bindUDP_cons.
  rewrite (imap_ext _ (λ j t, ((S k + j)%nat, t))) by (intros j x _; cbn; f_equal; lia).
  rewrite IH.
  rewrite (imap_ext ((λ j t0, Datagram (clock (k + j)%nat) t0) ∘ S)
             (λ j t0, Datagram (clock (S k + j)%nat) t0))
    by (intros j x _; cbn; do 2 f_equal; lia).
  f_equal. rewrite Nat.add_0_r, ReadFrom_short by done.
  unfold processIncomingMessage. by rewrite parseDatapoint_newline.
Qed.
End SameParse.

(** X26: the two listeners agree.  A line of a TCP client is parsed as the
    same text without its newline, so a client whose lines have at most
    256 bytes each (the newline apart) gets over TCP what it would get by
    sending each line as one UDP datagram, at the same clock: the same
    datapoints on the same queues in the same order. *)
Theorem tcp_stream_as_datagrams `{Library} (clock : nat → Z) (texts : list string)
    (tail : string) (ch : Channels) :
  Forall (λ t, allChars anyCharNotNL t = true) texts →
  allChars anyCharNotNL tail = true →
  Forall (λ t, (String.length t ≤ readLen)%nat) texts →
  (∀ now text, parseDatapoint now (text +:+ newline) = parseDatapoint now text)
  ∧ handleClient clock (joined ((λ t, t +:+ newline) <$> texts) +:+ tail) ch
    = bindUDP (imap (λ k t, Datagram (clock k) t) texts) ch.
Proof.
  intros Htexts Htail Hshort. split; [apply parseDatapoint_newline|].
  rewrite handleClient_lines by done.
  apply (lines_as_datagrams clock texts Hshort 0).
Qed.
(** ** The two engines under [runHeartbeat] *)

Lemma beats_runHeartbeat (b : Beat) (n : nat) : beats b (runHeartbeat n) = n.
Proof.
  unfold beats. induction n as [|n IH]; [done|]. cbn [runHeartbeat].
  rewrite !filter_cons. destruct b.
  - rewrite decide_True by done. rewrite decide_False by done. cbn. by rewrite IH.
  - rewrite decide_False by done. rewrite decide_True by done. cbn. by rewrite IH.
Qed.

Lemma beats_prefix (n k : nat) :
  (beats timerHeartbeat (take k (runHeartbeat n))
   ≤ beats counterHeartbeat (take k (runHeartbeat n))
   ≤ S (beats timerHeartbeat (take k (runHeartbeat n))))%nat.
Proof.
  unfold beats. revert k. induction n as [|n IH]; intros k.
  - cbn [runHeartbeat]. rewrite take_nil. cbn. lia.
  - cbn [runHeartbeat]. destruct k as [|[|k]]; [cbn; lia| |].
    + cbn [take]. rewrite !filter_cons, !filter_nil.
      rewrite decide_False by done. rewrite decide_True by done. cbn. lia.
    + cbn [take]. rewrite !filter_cons.
      repeat first [rewrite decide_True by done | rewrite decide_False by done].
      cbn [length]. specialize (IH k). lia.
Qed.

(** X27: the counter wheels and the timer wheels turn together.
    [runHeartbeat] sends each tick to the counter engine and then to the
    timer engine, so neither is ever more than one heartbeat ahead of the
    other, and when the two engines have taken the heartbeats of [n] ticks
    the pointers of their wheels of a retention are on the same slot,
    [n] modulo the interval: a counter and a timer of the same name are
    flushed at the same ticks. *)
Theorem engines_turn_in_lockstep `{Library} (retentions : list Z) (i : nat) (r : Z)
    (n : nat) (counterEvents timerEvents : list Event) :
  Forall validRetention retentions → retentions !! i = Some r →
  ticks counterEvents = beats counterHeartbeat (runHeartbeat n) →
  ticks timerEvents = beats timerHeartbeat (runHeartbeat n) →
  slotAfter (A:=float) retentions i counterEvents = Some (Z.of_nat n `mod` r)
  ∧ slotAfter (A:=list float) retentions i timerEvents = Some (Z.of_nat n `mod` r)
  ∧ ∀ k, (beats timerHeartbeat (take k (runHeartbeat n))
          ≤ beats counterHeartbeat (take k (runHeartbeat n))
          ≤ S (beats timerHeartbeat (take k (runHeartbeat n))))%nat.
Proof.
  intros Hvalid Hi Hc Ht. rewrite beats_runHeartbeat in Hc, Ht.
  split_and!.
  - by rewrite (slotAfter_ticks retentions i r counterEvents Hvalid Hi), Hc.
  - by rewrite (slotAfter_ticks retentions i r timerEvents Hvalid Hi), Ht.
  - apply beats_prefix.
Qed.

(** ** The scenarios of the specification, run on the definitions *)

Section Scenarios.
Context `{Library}.

(** A gauge sample: name, value text and type letter. *)
Example parse_gauge (now : Z) :
  parseDatapoint now "temp:72.5|g" = Datapoint.mk now "temp" (ParseFloat "72.5") "g".
Proof. reflexivity. Qed.

(** A line read from a TCP connection keeps its newline and is accepted. *)
Example parse_tcp_line (now : Z) :
  parseDatapoint now ("a:1|c" +:+ newline) = Datapoint.mk now "a" (ParseFloat "1") "c".
Proof. reflexivity. Qed.

(** The name is all the text of the line before the last colon that a value
    follows. *)
Example parse_last_colon (now : Z) :
  parseDatapoint now "host:web1:12|ms" = Datapoint.mk now "host:web1" (ParseFloat "12") "ms".
Proof. reflexivity. Qed.

(** A malformed line: the empty datapoint, and no queue receives it. *)
Example parse_garbage (now : Z) (ch : Channels) :
  parseDatapoint now "garbage" = Datapoint.zero
  ∧ processIncomingMessage now "garbage" ch = ch.
Proof. split; reflexivity. Qed.

(** A negative value is not a value of the pattern. *)
Example parse_negative (now : Z) :
  parseDatapoint now "temp:-5|g" = Datapoint.zero.
Proof. reflexivity. Qed.

(** A gauge datapoint goes to the historical channel, as it came. *)
Example gauge_observation :
  processGauges [Datapoint.mk 1700000000 "temp" 72.5%float "g"]
  = [(diskAppendChannel,
      AggregateObservation.mk "gauges:temp"
        ("1700000000 " +:+ FormatFloat 72.5%float +:+ newline) 0)].
Proof. reflexivity. Qed.
End Scenarios.

(** The aggregates of the samples 10, 20, 30: 3/10/30/20/20/8.16.../30/30/30. *)
Example aggregates_of_three :
  let samples := [10; 20; 30]%float in
  Min samples = 10%float ∧ Max samples = 30%float
  ∧ Median samples = 20%float ∧ Mean samples = 20%float
  ∧ PrimFloat.ltb (PrimFloat.div 8164 1000) (Stddev samples) = true
  ∧ PrimFloat.ltb (Stddev samples) (PrimFloat.div 8165 1000) = true
  ∧ Percentile samples p90 = 30%float
  ∧ Percentile samples p95 = 30%float
  ∧ Percentile samples p99 = 30%float.
Proof. cbn zeta. repeat split; vm_compute; reflexivity. Qed.

(** The median of an even number of samples is the mean of the two in the
    middle, and the index of a percentile follows the ceiling. *)
Example median_and_percentile_indices :
  Median [40; 10; 30; 20]%float = 25%float
  ∧ percentileIndex p90 10 = 8%nat
  ∧ percentileIndex p95 20 = 18%nat
  ∧ percentileIndex p99 100 = 98%nat
  ∧ percentileIndex p90 1 = 0%nat.
Proof. repeat split; vm_compute; reflexivity. Qed.

(** Three hits within a second on the retentions of 10 and 60 seconds, with
    the hash of the instance (the length of the name, 4): both pointers
    reach slot 4 at the fifth heartbeat, which sends the sum to the recent
    sink for the first retention and to the historical sink for the
    second; the other nine heartbeats send nothing. *)
Example three_hits :
  let hit := Datapoint.mk 1700000000 "hits" 1%float "c" in
  snd <$> processCounters (H:=exampleLibrary) [10; 60]
            ([Receive hit; Receive hit; Receive hit]
             ++ replicate 10 (Heartbeat (steadyClock 1700000007)))
  = Some ([[]; []; []; []; []; []; [];
           [(redisAppendChannel,
             AggregateObservation.mk "counters:hits" "1700000000<X>#" 1700000000);
            (diskAppendChannel,
             AggregateObservation.mk "counters:hits:60"
               ("1699999980 #" +:+ newline) 1699999980)];
           []; []; []; []; []]).
Proof. vm_compute. reflexivity. Qed.

(** ** The theorems at work *)

#[local] Existing Instance exampleLibrary.

Lemma exampleRetentions_valid : Forall validRetention [10; 60].
Proof. repeat constructor; unfold validRetention; lia. Defined.

Lemma exampleReached_reachable :
  Reachable [10; 60] exampleReached.
Proof. exists [Receive oneHit], [[]]. vm_compute. reflexivity. Defined.

Lemma exampleCounterWheel_ok : Forall (wheelOk (A:=float)) [exampleCounterWheel].
Proof.
  repeat constructor; unfold validRetention; cbn; lia.
Defined.

Lemma exampleTimerWheel_ok : Forall (wheelOk (A:=list float)) [exampleTimerWheel].
Proof.
  repeat constructor; unfold validRetention; cbn; lia.
Defined.

Lemma counters_heartbeat_witness :
  Forall (wheelOk (A:=float)) [exampleCounterWheel]
  ∧ 0 ≤ 1700000007 < 2 ^ 63
  ∧ (∀ i, steadyClock 1700000007 i = (1700000007, 1700000007))
  ∧ ∃ views : list (Wheel float * list Sent),
      step [exampleCounterWheel] (Heartbeat (steadyClock 1700000007))
      = Some (views.*1, concat (views.*2))
      ∧ length views = 1%nat.
Proof.
  assert (Hnow : 0 ≤ 1700000007 < 2 ^ 63) by lia.
  assert (Hclock : ∀ i, steadyClock 1700000007 i = (1700000007, 1700000007)) by done.
  split_and!; [exact exampleCounterWheel_ok|lia|lia|done|].
  destruct (counters_heartbeat [exampleCounterWheel]
              (steadyClock 1700000007) 1700000007 exampleCounterWheel_ok Hnow Hclock)
    as (views & Hstep & Hlen & _).
  exists views. split; [exact Hstep|exact Hlen].
Defined.

Lemma counter_sent_when_its_slot_is_current_witness :
  Forall validRetention [10; 60]
  ∧ Reachable [10; 60] exampleReached
  ∧ ∃ views : list (Wheel float * list Sent),
      step exampleReached (Heartbeat (steadyClock 1700000007))
      = Some (views.*1, concat (views.*2)).
Proof.
  split_and!; [exact exampleRetentions_valid|exact exampleReached_reachable|].
  destruct (counter_sent_when_its_slot_is_current [10; 60] exampleReached
              (steadyClock 1700000007) exampleRetentions_valid exampleReached_reachable)
    as (views & Hstep & _).
  exists views. exact Hstep.
Defined.

Lemma heartbeat_clears_flushed_entries_witness :
  Forall validRetention [10; 60]
  ∧ ∃ views : list (Wheel float * list Sent),
      step exampleReached (Heartbeat (steadyClock 1700000007))
      = Some (views.*1, concat (views.*2)).
Proof.
  split; [exact exampleRetentions_valid|].
  destruct (heartbeat_clears_flushed_entries [10; 60]
              (steadyClock 1700000007) exampleRetentions_valid) as [Hcounters _].
  destruct (Hcounters exampleReached exampleReached_reachable) as (views & Hstep & _).
  exists views. exact Hstep.
Defined.

Lemma timers_heartbeat_aggregates_witness :
  Forall (wheelOk (A:=list float)) [exampleTimerWheel]
  ∧ ∃ views : list (Wheel (list float) * list Sent),
      step [exampleTimerWheel] (Heartbeat (steadyClock 1700000007))
      = Some (views.*1, concat (views.*2)).
Proof.
  split; [exact exampleTimerWheel_ok|].
  destruct (timers_heartbeat_aggregates [exampleTimerWheel]
              (steadyClock 1700000007) exampleTimerWheel_ok) as [(views & Hstep & _) _].
  exists views. exact Hstep.
Defined.

Lemma slot_cycling_witness :
  Forall validRetention [10; 60]
  ∧ [10; 60] !! 1%nat = Some 60
  ∧ SlotCycle (slotAfter (A:=float) [10; 60] 1) 60
  ∧ SlotCycle (slotAfter (A:=list float) [10; 60] 1) 60.
Proof.
  split_and!; [exact exampleRetentions_valid|reflexivity| |].
  - exact (proj1 (slot_cycling [10; 60] 1 60
                    exampleRetentions_valid eq_refl)).
  - exact (proj2 (slot_cycling [10; 60] 1 60
                    exampleRetentions_valid eq_refl)).
Defined.

Lemma counter_sum_conservation_witness :
  Forall validRetention [10; 60]
  ∧ Reachable [10; 60] exampleReached
  ∧ ∃ views : list (Wheel float * list (list Sent)),
      run exampleReached
        (replicate 10 (Heartbeat (steadyClock 1700000007)))
      = Some (views.*1, merge (views.*2) 10).
Proof.
  split_and!; [exact exampleRetentions_valid|exact exampleReached_reachable|].
  destruct (counter_sum_conservation [10; 60] exampleReached
              (replicate 10 (Heartbeat (steadyClock 1700000007))) "a"
              exampleRetentions_valid exampleReached_reachable)
    as (views & Hrun & _).
  exists views. exact Hrun.
Defined.

Lemma historical_writer_witness :
  (∀ o, o ∈ exampleObservations →
     CalculateFilename (AggregateObservation.Name o) "/var/batsd"
     ∉ dom (files (disk emptyWriter)))
  ∧ (∀ o1 o2, o1 ∈ exampleObservations → o2 ∈ exampleObservations →
       CalculateFilename (AggregateObservation.Name o1) "/var/batsd"
       = CalculateFilename (AggregateObservation.Name o2) "/var/batsd" →
       AggregateObservation.Name o1 = AggregateObservation.Name o2)
  ∧ ∃ st news,
      appendToFile "/var/batsd" emptyWriter (unfaulted exampleObservations) = Some st
      ∧ datapoints st = datapoints emptyWriter ++ news
      ∧ NoDup (saveNewDatapoints news)
      ∧ files (disk st) !! "/var/batsd/gauges:temp"
        = Some (headerLine "gauges:temp" +:+ payloads "gauges:temp" exampleObservations).
Proof.
  assert (Hfresh : ∀ o, o ∈ exampleObservations →
            CalculateFilename (AggregateObservation.Name o) "/var/batsd"
            ∉ dom (files (disk emptyWriter))).
  { intros o _. cbn. rewrite dom_empty_L. apply not_elem_of_empty. }
  assert (Hinj : ∀ o1 o2, o1 ∈ exampleObservations → o2 ∈ exampleObservations →
            CalculateFilename (AggregateObservation.Name o1) "/var/batsd"
            = CalculateFilename (AggregateObservation.Name o2) "/var/batsd" →
            AggregateObservation.Name o1 = AggregateObservation.Name o2).
  { intros o1 o2 _ _ Heq. cbn in Heq.
    apply (inj (String.app "/var/batsd")) in Heq.
    by apply (inj (String.app "/")) in Heq. }
  split_and!; [exact Hfresh|exact Hinj|].
  destruct (proj2 (proj2 (historical_writer "/var/batsd"))
              emptyWriter exampleObservations Hfresh Hinj)
    as (st & news & Hrun & Hdp & Hnd & _ & Hfiles).
  exists st, news. split_and!; [exact Hrun|exact Hdp|exact Hnd|].
  apply (Hfiles (AggregateObservation.mk "gauges:temp" ("1700000000 72.5" +:+ newline) 0)).
  unfold exampleObservations. apply list_elem_of_here.
Defined.

(** ** The further theorems at work *)

Lemma exampleSamples_wellFormed : Forall wellFormed exampleSamples.
Proof.
  apply Forall_cons. split.
  { unfold wellFormed. cbn. split_and!; [reflexivity|discriminate|reflexivity|set_solver]. }
  apply Forall_cons. split; [|by apply Forall_nil].
  unfold wellFormed. cbn. split_and!; [reflexivity|discriminate|reflexivity|set_solver].
Defined.

Lemma parseDatapoint_round_trip_witness :
  wellFormed ("hits", "1", "c")
  ∧ colonFreeLine "|@0.1" = true
  ∧ parseDatapoint 1700000000 (sample "hits" "1" "c" +:+ "|@0.1")
    = datapointOf 1700000000 ("hits", "1", "c").
Proof.
  assert (Hs : wellFormed ("hits", "1", "c")).
  { unfold wellFormed. cbn. split_and!; [reflexivity|discriminate|reflexivity|set_solver]. }
  split_and!; [exact Hs|reflexivity|].
  exact (parseDatapoint_round_trip 1700000000 ("hits", "1", "c") "|@0.1" Hs eq_refl).
Defined.

Lemma message_without_value_is_dropped_witness :
  colonThenValue "a:-1|c" = false
  ∧ parseDatapoint 1700000000 "a:-1|c" = Datapoint.zero
  ∧ processIncomingMessage 1700000000 "a:-1|c" noTraffic = noTraffic.
Proof.
  split; [reflexivity|].
  exact (message_without_value_is_dropped 1700000000 "a:-1|c" noTraffic eq_refl).
Defined.

Lemma bindUDP_long_name_dropped_witness :
  (readLen ≤ String.length exampleLongName)%nat
  ∧ countChar ":" exampleLongName = 0%nat
  ∧ bindUDP [Datagram 1700000000 (exampleLongName +:+ ":1|c")] noTraffic
    = bindUDP [] noTraffic.
Proof.
  assert (Hlong : (readLen ≤ String.length exampleLongName)%nat).
  { apply Nat.leb_le. vm_compute. reflexivity. }
  assert (Hname : countChar ":" exampleLongName = 0%nat) by (vm_compute; reflexivity).
  split_and!; [exact Hlong|exact Hname|].
  exact (bindUDP_long_name_dropped 1700000000 exampleLongName ":1|c" [] noTraffic
           Hlong Hname).
Defined.

Lemma bindUDP_samples_witness :
  Forall (λ ns : Z * (string * string * string),
            wellFormed ns.2
            ∧ (String.length (sample ns.2.1.1 ns.2.1.2 ns.2.2) ≤ readLen)%nat)
    [(1700000000, ("hits", "1", "c"))]
  ∧ bindUDP [Datagram 1700000000 (sample "hits" "1" "c")] noTraffic
    = mkChannels [] [datapointOf 1700000000 ("hits", "1", "c")] [].
Proof.
  assert (Hsent : Forall (λ ns : Z * (string * string * string),
                            wellFormed ns.2
                            ∧ (String.length (sample ns.2.1.1 ns.2.1.2 ns.2.2) ≤ readLen)%nat)
                    [(1700000000, ("hits", "1", "c"))]).
  { apply Forall_cons. split; [|by apply Forall_nil]. split.
    - unfold wellFormed. cbn. split_and!; [reflexivity|discriminate|reflexivity|set_solver].
    - apply Nat.leb_le. vm_compute. reflexivity. }
  split; [exact Hsent|].
  exact (bindUDP_samples [(1700000000, ("hits", "1", "c"))] noTraffic Hsent).
Defined.

Lemma handleClient_samples_witness :
  Forall wellFormed exampleSamples
  ∧ allChars anyCharNotNL "lat:3|ms" = true
  ∧ handleClient exampleClock (joined (wire <$> exampleSamples) +:+ "lat:3|ms") noTraffic
    = mkChannels [datapointOf 1700000001 ("temp", "72.5", "g")]
        [datapointOf 1700000000 ("hits", "1", "c")] [].
Proof.
  split_and!; [exact exampleSamples_wellFormed|reflexivity|].
  exact (handleClient_samples exampleClock exampleSamples "lat:3|ms" noTraffic
           exampleSamples_wellFormed eq_refl).
Defined.

Lemma engines_never_panic_witness :
  Forall validRetention [10; 60]
  ∧ ∃ ws outs,
      processCounters [10; 60] [Receive oneHit; Heartbeat (steadyClock 1700000007)]
      = Some (ws, outs)
      ∧ length ws = 2%nat ∧ length outs = 2%nat.
Proof.
  split; [exact exampleRetentions_valid|].
  exact (proj1 (engines_never_panic [10; 60]
                  [Receive oneHit; Heartbeat (steadyClock 1700000007)]
                  exampleRetentions_valid)).
Defined.

Lemma engines_panic_on_bad_interval_witness :
  0 ∈ [10; 0]
  ∧ (0 < 0 ∨ (0 = 0 ∧ [Receive oneHit] ≠ []))
  ∧ processCounters [10; 0] [Receive oneHit] = None
  ∧ processTimers [10; 0] [Receive oneHit] = None.
Proof.
  assert (Hin : 0 ∈ [10; 0]) by (apply list_elem_of_further, list_elem_of_here).
  assert (Hbad : 0 < 0 ∨ (0 = 0 ∧ [Receive oneHit] ≠ [])) by (right; split; done).
  split_and!; [exact Hin|exact Hbad| |].
  - exact (proj1 (engines_panic_on_bad_interval [10; 0] [Receive oneHit] 0 Hin Hbad)).
  - exact (proj2 (engines_panic_on_bad_interval [10; 0] [Receive oneHit] 0 Hin Hbad)).
Defined.

Lemma names_stay_in_their_hash_slot_witness :
  Forall validRetention [10; 60]
  ∧ Reachable [10; 60] exampleReached
  ∧ exampleReached !! 0%nat = Some exampleWheel
  ∧ buckets exampleWheel !! 1%nat = Some exampleBucket
  ∧ exampleBucket !! "a" = Some 1%float
  ∧ hashSlot "a" (maxSlot exampleWheel) = Some 1
  ∧ held exampleWheel "a" = Some 1%float.
Proof.
  assert (Hw : exampleReached !! 0%nat = Some exampleWheel) by (vm_compute; reflexivity).
  assert (Hb : buckets exampleWheel !! 1%nat = Some exampleBucket) by (vm_compute; reflexivity).
  assert (Ha : exampleBucket !! "a" = Some 1%float) by (vm_compute; reflexivity).
  split_and!; [exact exampleRetentions_valid|exact exampleReached_reachable
              |exact Hw|exact Hb|exact Ha| |].
  - exact (proj1 (names_stay_in_their_hash_slot [10; 60] exampleReached 0 1 exampleWheel
                    exampleBucket "a" 1%float exampleRetentions_valid
                    exampleReached_reachable Hw Hb Ha)).
  - exact (proj1 (proj2 (names_stay_in_their_hash_slot [10; 60] exampleReached 0 1
                           exampleWheel exampleBucket "a" 1%float exampleRetentions_valid
                           exampleReached_reachable Hw Hb Ha))).
Defined.

Lemma datapoint_feeds_every_retention_witness :
  Forall validRetention [10; 60]
  ∧ Reachable [10; 60] exampleReached
  ∧ ∃ ws' : list (Wheel float),
      step exampleReached (Receive oneHit) = Some (ws', [])
      ∧ length ws' = length exampleReached.
Proof.
  split_and!; [exact exampleRetentions_valid|exact exampleReached_reachable|].
  destruct (datapoint_feeds_every_retention [10; 60] exampleReached oneHit
              exampleRetentions_valid exampleReached_reachable) as (ws' & Hstep & Hlen & _).
  exists ws'. split; [exact Hstep|exact Hlen].
Defined.

Lemma exampleTimersReached_reachable :
  Reachable [10; 60] exampleTimersReached.
Proof. exists [Receive oneHit], [[]]. vm_compute. reflexivity. Defined.

Lemma timer_samples_conservation_witness :
  Forall validRetention [10; 60]
  ∧ Reachable [10; 60] exampleTimersReached
  ∧ ∃ views : list (Wheel (list float) * list (list Sent)),
      run exampleTimersReached (replicate 10 (Heartbeat (steadyClock 1700000007)))
      = Some (views.*1, merge (views.*2) 10).
Proof.
  split_and!; [exact exampleRetentions_valid|exact exampleTimersReached_reachable|].
  destruct (timer_samples_conservation [10; 60] exampleTimersReached
              (replicate 10 (Heartbeat (steadyClock 1700000007))) "a"
              exampleRetentions_valid exampleTimersReached_reachable)
    as (views & Hrun & _).
  exists views. exact Hrun.
Defined.

Lemma exampleCounterWheel_wheelOk : wheelOk exampleCounterWheel.
Proof. repeat split; unfold validRetention; cbn; lia. Defined.

Lemma timestamp_across_second_boundary_witness :
  wheelOk exampleCounterWheel
  ∧ 2 ≤ interval exampleCounterWheel
  ∧ 0 ≤ 1700000009 < 2 ^ 63 - 1
  ∧ ∃ ts, alignedTimestamp 1700000009 (1700000009 + 1) (interval exampleCounterWheel)
          = Some ts
          ∧ ts `mod` interval exampleCounterWheel = interval exampleCounterWheel - 1.
Proof.
  assert (Hr : 2 ≤ interval exampleCounterWheel) by (cbn; lia).
  assert (Ht : 0 ≤ 1700000009 < 2 ^ 63 - 1) by lia.
  split_and!; [exact exampleCounterWheel_wheelOk|exact Hr|lia|lia|].
  destruct (timestamp_across_second_boundary (A:=float) 0 1700000009 exampleCounterWheel
              exampleCounterWheel_wheelOk Hr Ht)
    as (w' & bucket & ts & _ & _ & Hts & Hmod & _).
  exists ts. split; [exact Hts|exact Hmod].
Defined.

Lemma payload_gives_back_timestamp_witness :
  AggregateObservation.Content (observation 0 10 1700000000 "a" 3%float).2
  = AggregateObservation.Content (observation 0 60 1700000000 "b" 3%float).2
  ∧ render 3%float = render 3%float.
Proof.
  assert (Heq : AggregateObservation.Content (observation 0 10 1700000000 "a" 3%float).2
                = AggregateObservation.Content (observation 0 60 1700000000 "b" 3%float).2)
    by reflexivity.
  split; [exact Heq|].
  exact (proj1 (proj2 (payload_gives_back_timestamp (A:=float) 0 10 60 1700000000
                         1700000000 "a" "b" 3%float 3%float Heq))).
Defined.

Lemma appendToFile_existing_files_witness :
  (∀ o, o ∈ [exampleGaugeObservation] →
     CalculateFilename (AggregateObservation.Name o) "/var/batsd"
     ∈ dom (files (disk restartedWriter)))
  ∧ (∀ o1 o2, o1 ∈ [exampleGaugeObservation] → o2 ∈ [exampleGaugeObservation] →
       CalculateFilename (AggregateObservation.Name o1) "/var/batsd"
       = CalculateFilename (AggregateObservation.Name o2) "/var/batsd" →
       AggregateObservation.Name o1 = AggregateObservation.Name o2)
  ∧ ∃ st,
      appendToFile "/var/batsd" restartedWriter (unfaulted [exampleGaugeObservation])
      = Some st
      ∧ datapoints st = []
      ∧ files (disk st) !! "/var/batsd/gauges:temp"
        = Some (headerLine "gauges:temp" +:+ "1700000000 72.5" +:+ newline).
Proof.
  assert (Hthere : ∀ o, o ∈ [exampleGaugeObservation] →
            CalculateFilename (AggregateObservation.Name o) "/var/batsd"
            ∈ dom (files (disk restartedWriter))).
  { intros o ->%list_elem_of_singleton. cbn. rewrite dom_singleton_L.
    by apply elem_of_singleton. }
  assert (Hinj : ∀ o1 o2, o1 ∈ [exampleGaugeObservation] → o2 ∈ [exampleGaugeObservation] →
            CalculateFilename (AggregateObservation.Name o1) "/var/batsd"
            = CalculateFilename (AggregateObservation.Name o2) "/var/batsd" →
            AggregateObservation.Name o1 = AggregateObservation.Name o2).
  { intros o1 o2 ->%list_elem_of_singleton ->%list_elem_of_singleton _. done. }
  split_and!; [exact Hthere|exact Hinj|].
  destruct (appendToFile_existing_files "/var/batsd" restartedWriter
              [exampleGaugeObservation] Hthere Hinj)
    as (st & Hrun & Hdp & _ & _ & Hfiles & _).
  exists st. split_and!; [exact Hrun|exact Hdp|].
  apply (Hfiles exampleGaugeObservation (headerLine "gauges:temp")).
  - apply list_elem_of_here.
  - reflexivity.
Defined.

Lemma create_failure_still_registers_witness :
  Forall (λ oe : AggregateObservation.t * Faults,
            createFails oe.2
            ∧ CalculateFilename (AggregateObservation.Name oe.1) "/var/batsd"
              ∉ dom (files (disk emptyWriter)))
    [(exampleGaugeObservation, failingCreate); (exampleGaugeObservation, failingCreate)]
  ∧ ∃ st',
      appendToFile "/var/batsd" emptyWriter
        [(exampleGaugeObservation, failingCreate); (exampleGaugeObservation, failingCreate)]
      = Some st'
      ∧ files (disk st') = ∅
      ∧ datapoints st' = ["gauges:temp"; "gauges:temp"].
Proof.
  assert (Hone : createFails failingCreate
                 ∧ CalculateFilename (AggregateObservation.Name exampleGaugeObservation)
                     "/var/batsd" ∉ dom (files (disk emptyWriter))).
  { split; [by split|]. cbn. rewrite dom_empty_L. apply not_elem_of_empty. }
  assert (Hl : Forall (λ oe : AggregateObservation.t * Faults,
                         createFails oe.2
                         ∧ CalculateFilename (AggregateObservation.Name oe.1) "/var/batsd"
                           ∉ dom (files (disk emptyWriter)))
                 [(exampleGaugeObservation, failingCreate);
                  (exampleGaugeObservation, failingCreate)]).
  { apply Forall_cons. split; [exact Hone|].
    apply Forall_cons. split; [exact Hone|by apply Forall_nil]. }
  split; [exact Hl|].
  destruct (create_failure_still_registers "/var/batsd" emptyWriter _ Hl)
    as (st' & Hrun & Hfiles & Hdp & _).
  exists st'. split_and!; [exact Hrun|exact Hfiles|exact Hdp].
Defined.

Lemma appendToFile_only_appends_witness :
  appendToFile "/var/batsd" restartedWriter (unfaulted [exampleGaugeObservation])
  = Some (mkWriter
            (mkFileSystem ∅
               (<["/var/batsd/gauges:temp" :=
                    headerLine "gauges:temp" +:+ "1700000000 72.5" +:+ newline]>
                  {[ "/var/batsd/gauges:temp" := headerLine "gauges:temp" ]}))
            [])
  ∧ ∃ content',
      <["/var/batsd/gauges:temp" :=
          headerLine "gauges:temp" +:+ "1700000000 72.5" +:+ newline]>
        ({[ "/var/batsd/gauges:temp" := headerLine "gauges:temp" ]} : gmap string string)
      !! "/var/batsd/gauges:temp" = Some content'
      ∧ startsWith content' (headerLine "gauges:temp").
Proof.
  assert (Hrun : appendToFile "/var/batsd" restartedWriter
                   (unfaulted [exampleGaugeObservation])
                 = Some (mkWriter
                           (mkFileSystem ∅
                              (<["/var/batsd/gauges:temp" :=
                                   headerLine "gauges:temp" +:+ "1700000000 72.5" +:+ newline]>
                                 {[ "/var/batsd/gauges:temp" := headerLine "gauges:temp" ]}))
                           [])).
  { cbn [unfaulted fmap list_fmap appendToFile].
    rewrite (appendObservation_old "/var/batsd" restartedWriter exampleGaugeObservation
               (headerLine "gauges:temp")) by reflexivity.
    reflexivity. }
  split; [exact Hrun|].
  destruct (proj1 (appendToFile_only_appends "/var/batsd" restartedWriter _ _ Hrun)
              "/var/batsd/gauges:temp" (headerLine "gauges:temp") eq_refl)
    as (content' & Hc & Hs & _).
  exists content'. split; [exact Hc|exact Hs].
Defined.

Lemma gauge_datagrams_reach_their_file_witness :
  gaugeSeries exampleMerged
  = sentTo diskAppendChannel
      (processGauges (gaugeChannel (bindUDP exampleReads noTraffic)))
  ∧ (∀ o1 o2, o1 ∈ exampleMerged → o2 ∈ exampleMerged →
       CalculateFilename (AggregateObservation.Name o1) "/var/batsd"
       = CalculateFilename (AggregateObservation.Name o2) "/var/batsd" →
       AggregateObservation.Name o1 = AggregateObservation.Name o2)
  ∧ ∃ st,
      appendToFile "/var/batsd" emptyWriter (unfaulted exampleMerged) = Some st
      ∧ files (disk st) !! "/var/batsd/gauges:temp"
        = Some (headerLine "gauges:temp" +:+ "1700000000 #" +:+ newline).
Proof.
  assert (Hgauges : gaugeSeries exampleMerged
                    = sentTo diskAppendChannel
                        (processGauges (gaugeChannel (bindUDP exampleReads noTraffic))))
    by (vm_compute; reflexivity).
  assert (Hinj : ∀ o1 o2, o1 ∈ exampleMerged → o2 ∈ exampleMerged →
            CalculateFilename (AggregateObservation.Name o1) "/var/batsd"
            = CalculateFilename (AggregateObservation.Name o2) "/var/batsd" →
            AggregateObservation.Name o1 = AggregateObservation.Name o2).
  { intros o1 o2 _ _ Heq. cbn in Heq.
    apply (inj (String.app "/var/batsd")) in Heq.
    by apply (inj (String.app "/")) in Heq. }
  split_and!; [exact Hgauges|exact Hinj|].
  destruct (gauge_datagrams_reach_their_file "/var/batsd" exampleReads exampleMerged
              Hgauges Hinj) as (_ & st & Hrun & Hfiles).
  exists st. split; [exact Hrun|].
  apply (Hfiles (Datapoint.mk 1700000000 "temp" 0%float "g")).
  vm_compute. apply list_elem_of_here.
Defined.

Lemma exampleFlush_step :
  step [exampleCounterWheel] (Heartbeat (steadyClock 1700000007))
  = Some (exampleFlush.1, exampleFlush.2).
Proof. vm_compute. reflexivity. Defined.

Lemma zadd_score_is_payload_timestamp_witness :
  Forall (wheelOk (A:=float)) [exampleCounterWheel]
  ∧ step [exampleCounterWheel] (Heartbeat (steadyClock 1700000007))
    = Some (exampleFlush.1, exampleFlush.2)
  ∧ ("counters:hits", 1700000000%float, "1700000000<X>#")
    ∈ addToRedisZset (sentTo redisAppendChannel exampleFlush.2)
  ∧ ∃ w bucket name value,
      [exampleCounterWheel] !! 0%nat = Some w
      ∧ buckets w !! Z.to_nat (currentSlot w) = Some bucket
      ∧ bucket !! name = Some value
      ∧ "counters:hits" = "counters:" +:+ name.
Proof.
  assert (Hcall : ("counters:hits", 1700000000%float, "1700000000<X>#")
                  ∈ addToRedisZset (sentTo redisAppendChannel exampleFlush.2)).
  { assert (Heq : addToRedisZset (sentTo redisAppendChannel exampleFlush.2)
                  = [("counters:hits", 1700000000%float, "1700000000<X>#")])
      by (vm_compute; reflexivity).
    rewrite Heq. apply list_elem_of_here. }
  split_and!; [exact exampleCounterWheel_ok|exact exampleFlush_step|exact Hcall|].
  destruct (zadd_score_is_payload_timestamp (A:=float) [exampleCounterWheel] exampleFlush.1
              (Heartbeat (steadyClock 1700000007)) exampleFlush.2
              "counters:hits" 1700000000%float "1700000000<X>#"
              exampleCounterWheel_ok exampleFlush_step Hcall)
    as (w & bucket & name & value & ts & Hw & Hb & Hname & _ & Hkey & _).
  exists w, bucket, name, value. split_and!; [exact Hw|exact Hb|exact Hname|exact Hkey].
Defined.

Lemma processDatatype_order_insensitive_witness :
  [zeroHit; oneHit] ≡ₚ [oneHit; zeroHit]
  ∧ dom (metrics (processDatatype [zeroHit; oneHit]))
    = dom (metrics (processDatatype [oneHit; zeroHit]))
  ∧ created (processDatatype [zeroHit; oneHit]) = created (processDatatype [oneHit; zeroHit]).
Proof.
  assert (Hperm : [zeroHit; oneHit] ≡ₚ [oneHit; zeroHit]) by apply perm_swap.
  split_and!; [exact Hperm| |].
  - exact (proj1 (processDatatype_order_insensitive _ _ Hperm)).
  - exact (proj1 (proj2 (processDatatype_order_insensitive _ _ Hperm))).
Defined.

Lemma tcp_stream_as_datagrams_witness :
  Forall (λ t, allChars anyCharNotNL t = true) exampleTexts
  ∧ allChars anyCharNotNL "lat:3|ms" = true
  ∧ Forall (λ t, (String.length t ≤ readLen)%nat) exampleTexts
  ∧ handleClient exampleClock
      (joined ((λ t, t +:+ newline) <$> exampleTexts) +:+ "lat:3|ms") noTraffic
    = bindUDP [Datagram 1700000000 "hits:1|c"; Datagram 1700000001 "temp:72.5|g"] noTraffic.
Proof.
  assert (Htexts : Forall (λ t, allChars anyCharNotNL t = true) exampleTexts).
  { apply Forall_cons. split; [reflexivity|].
    apply Forall_cons. split; [reflexivity|by apply Forall_nil]. }
  assert (Hshort : Forall (λ t, (String.length t ≤ readLen)%nat) exampleTexts).
  { apply Forall_cons. split; [apply Nat.leb_le; vm_compute; reflexivity|].
    apply Forall_cons. split; [apply Nat.leb_le; vm_compute; reflexivity|by apply Forall_nil]. }
  split_and!; [exact Htexts|reflexivity|exact Hshort|].
  exact (proj2 (tcp_stream_as_datagrams exampleClock exampleTexts "lat:3|ms" noTraffic
                  Htexts eq_refl Hshort)).
Defined.

Lemma parseDatapoint_first_sample_line_witness :
  colonThenValue ("junk" +:+ newline) = false
  ∧ ("junk" +:+ newline = "" ∨ ∃ q, "junk" +:+ newline = q +:+ newline)
  ∧ wellFormed ("hits", "1", "c")
  ∧ colonFreeLine (newline +:+ "temp:1|g") = true
  ∧ parseDatapoint 1700000000
      (("junk" +:+ newline) +:+ sample "hits" "1" "c" +:+ (newline +:+ "temp:1|g"))
    = datapointOf 1700000000 ("hits", "1", "c").
Proof.
  assert (Hend : "junk" +:+ newline = "" ∨ ∃ q, "junk" +:+ newline = q +:+ newline)
    by (right; by exists "junk").
  assert (Hs : wellFormed ("hits", "1", "c")).
  { unfold wellFormed. cbn.
    split_and!; [reflexivity|discriminate|reflexivity|apply list_elem_of_here]. }
  split_and!; [reflexivity|exact Hend|exact Hs|reflexivity|].
  exact (parseDatapoint_first_sample_line 1700000000 ("junk" +:+ newline)
           ("hits", "1", "c") (newline +:+ "temp:1|g") eq_refl Hend Hs eq_refl).
Defined.

Lemma timer_sent_when_its_slot_is_current_witness :
  Forall validRetention [10; 60]
  ∧ Reachable [10; 60] exampleTimersReached
  ∧ ∃ views : list (Wheel (list float) * list Sent),
      step exampleTimersReached (Heartbeat (steadyClock 1700000007))
      = Some (views.*1, concat (views.*2)).
Proof.
  split_and!; [exact exampleRetentions_valid|exact exampleTimersReached_reachable|].
  destruct (timer_sent_when_its_slot_is_current [10; 60] exampleTimersReached
              (steadyClock 1700000007) exampleRetentions_valid
              exampleTimersReached_reachable) as (views & Hstep & _).
  exists views. exact Hstep.
Defined.

Lemma timer_samples_all_reported_in_order_witness :
  Forall validRetention [10; 60]
  ∧ Reachable [10; 60] exampleTimersReached
  ∧ ∃ views : list (Wheel (list float) * list (list Sent)),
      run exampleTimersReached
        [Heartbeat (steadyClock 1700000007); Receive oneHit;
         Heartbeat (steadyClock 1700000008)]
      = Some (views.*1, merge (views.*2) 3).
Proof.
  split_and!; [exact exampleRetentions_valid|exact exampleTimersReached_reachable|].
  destruct (timer_samples_all_reported_in_order [10; 60] exampleTimersReached
              [Heartbeat (steadyClock 1700000007); Receive oneHit;
               Heartbeat (steadyClock 1700000008)] "a"
              exampleRetentions_valid exampleTimersReached_reachable)
    as (views & Hrun & _).
  exists views. exact Hrun.
Defined.

Lemma engines_turn_in_lockstep_witness :
  Forall validRetention [10; 60]
  ∧ [10; 60] !! 1%nat = Some 60
  ∧ ticks [Heartbeat (steadyClock 1700000007); Receive oneHit]
    = beats counterHeartbeat (runHeartbeat 1)
  ∧ ticks [Heartbeat (steadyClock 1700000007)] = beats timerHeartbeat (runHeartbeat 1)
  ∧ slotAfter (A:=float) [10; 60] 1
      [Heartbeat (steadyClock 1700000007); Receive oneHit] = Some (1 `mod` 60)
  ∧ slotAfter (A:=list float) [10; 60] 1 [Heartbeat (steadyClock 1700000007)]
    = Some (1 `mod` 60).
Proof.
  split_and!; [exact exampleRetentions_valid|reflexivity|reflexivity|reflexivity| |].
  - exact (proj1 (engines_turn_in_lockstep [10; 60] 1 60 1
                    [Heartbeat (steadyClock 1700000007); Receive oneHit]
                    [Heartbeat (steadyClock 1700000007)]
                    exampleRetentions_valid eq_refl eq_refl eq_refl)).
  - exact (proj1 (proj2 (engines_turn_in_lockstep [10; 60] 1 60 1
                           [Heartbeat (steadyClock 1700000007); Receive oneHit]
                           [Heartbeat (steadyClock 1700000007)]
                           exampleRetentions_valid eq_refl eq_refl eq_refl))).
Defined.
